(** * TokenPriceConverter: the conversion-rate engine

    A shallow embedding of [core/node.py], [service/cache.py] and
    [service/calculation.py], and the properties of the engine that the
    specification states about them.

    The Python runtime and the two libraries the engine calls (the
    [rustworkx] graph library, Python's hash sets) are modelled by what
    they document; where the documentation leaves a choice open (the order
    in which a [set] is iterated, which of several parallel edges
    [get_edge_data] returns, which shortest paths come first) the choice
    is a field of the [Library] record and the theorems hold for every
    library that meets the contract [LibraryOk]. *)

From Stdlib Require Import ZArith NArith List ListDec String Ascii Lia Bool.
From Stdlib Require Import Floats.SpecFloat.
From Stdlib Require Import DecimalString DecimalN.
From stdpp Require Import base gmap strings.
Import ListNotations.

(* ================================================================== *)
(** * Python: exceptions, outcomes of an awaited call, numbers, bytes   *)
(* ================================================================== *)

Module Py.

(** The exceptions the engine raises or lets through.  [Exception msg] is
    the plain [raise Exception(f"...")] of the source; the message is kept
    because it is all that tells two such failures apart. *)
Inductive exn : Type :=
| Exception (msg : string)
| ContractNotFoundException (msg : string) (cause : exn)
| ZeroDivisionError
| OverflowError
| ValueError
| KeyError
| IndexError
| NoEdgeBetweenNodes
| ClientError.

(** What awaiting a coroutine gives: a value, an exception, or nothing
    yet ([Pending]: the coroutine is still inside a [while True] loop
    after every reply it was given). *)
Inductive outcome (A : Type) : Type :=
| Returned (a : A)
| Raised (e : exn)
| Pending.
Arguments Returned {A} a.
Arguments Raised {A} e.
Arguments Pending {A}.

Definition bind {A B} (m : outcome A) (k : A -> outcome B) : outcome B :=
  match m with
  | Returned a => k a
  | Raised e => Raised e
  | Pending => Pending
  end.

Definition of_option {A} (e : exn) (o : option A) : outcome A :=
  match o with
  | Some a => Returned a
  | None => Raised e
  end.

(** [asyncio.gather]: all the results in order; an exception of one of
    the coroutines is raised as soon as it occurs, also while others are
    still waiting (when several raise, the first in the list stands for
    the first in time). *)
Fixpoint gather {A} (ms : list (outcome A)) : outcome (list A) :=
  match ms with
  | [] => Returned []
  | m :: rest =>
      match m, gather rest with
      | Raised e, _ => Raised e
      | _, Raised e => Raised e
      | Pending, _ => Pending
      | _, Pending => Pending
      | Returned a, Returned l => Returned (a :: l)
      end
  end.

(** ** Numbers: [int] is unbounded, [float] is IEEE-754 binary64 *)

Definition prec : Z := 53.
Definition emax : Z := 1024.

Inductive num : Type :=
| PyInt (z : Z)
| PyFloat (f : spec_float).

Definition Z2SF (z : Z) : spec_float :=
  match z with
  | Z0 => S754_zero false
  | Zpos p => S754_finite false p 0
  | Zneg p => S754_finite true p 0
  end.

(** [float(z)]: the nearest double, ties to even; [OverflowError] when
    the integer is beyond the range of a double. *)
Definition float_of_int (z : Z) : outcome spec_float :=
  match binary_normalize prec emax z 0 false with
  | S754_infinity _ => Raised OverflowError
  | f => Returned f
  end.

(** [a / b] on two ints: the correctly rounded quotient. *)
Definition int_truediv (a b : Z) : outcome spec_float :=
  if (b =? 0)%Z then Raised ZeroDivisionError
  else match SFdiv prec emax (Z2SF a) (Z2SF b) with
       | S754_infinity _ => Raised OverflowError
       | f => Returned f
       end.

Definition is_zero (f : spec_float) : bool :=
  match f with
  | S754_zero _ => true
  | _ => false
  end.

Definition float_truediv (x y : spec_float) : outcome spec_float :=
  if is_zero y then Raised ZeroDivisionError
  else Returned (SFdiv prec emax x y).

(** [x * y] *)
Definition mul (x y : num) : outcome num :=
  match x, y with
  | PyInt a, PyInt b => Returned (PyInt (a * b))
  | PyInt a, PyFloat g =>
      bind (float_of_int a) (fun f => Returned (PyFloat (SFmul prec emax f g)))
  | PyFloat f, PyInt b =>
      bind (float_of_int b) (fun g => Returned (PyFloat (SFmul prec emax f g)))
  | PyFloat f, PyFloat g => Returned (PyFloat (SFmul prec emax f g))
  end.

(** [x / y] *)
Definition truediv (x y : num) : outcome num :=
  match x, y with
  | PyInt a, PyInt b => bind (int_truediv a b) (fun f => Returned (PyFloat f))
  | PyInt a, PyFloat g =>
      bind (float_of_int a) (fun f =>
      bind (float_truediv f g) (fun q => Returned (PyFloat q)))
  | PyFloat f, PyInt b =>
      bind (float_of_int b) (fun g =>
      bind (float_truediv f g) (fun q => Returned (PyFloat q)))
  | PyFloat f, PyFloat g =>
      bind (float_truediv f g) (fun q => Returned (PyFloat q))
  end.

(** [10 ** d] for a non-negative [d] *)
Definition pow10 (d : N) : num := PyInt (10 ^ Z.of_N d).

(** [int(x)] on a float: truncation towards zero. *)
Definition int_of_float (f : spec_float) : outcome Z :=
  match f with
  | S754_zero _ => Returned 0%Z
  | S754_infinity _ => Raised OverflowError
  | S754_nan => Raised ValueError
  | S754_finite s m e =>
      let a := match e with
               | Zneg p => Z.shiftr (Zpos m) (Zpos p)
               | _ => Z.shiftl (Zpos m) e
               end in
      Returned (if s then Z.opp a else a)
  end.

(** The double written as the decimal literal [m]e[e10]. *)
Definition decimal (m e10 : Z) : spec_float :=
  match e10 with
  | Zneg p => SFdiv prec emax (Z2SF m) (Z2SF (10 ^ Zpos p))
  | _ => binary_normalize prec emax (m * 10 ^ e10) 0 false
  end.

(** ** Strings and bytes *)

(** [str.lower()] on the ASCII letters (addresses are ASCII). *)
Definition lower_ascii (c : ascii) : ascii :=
  let n := N_of_ascii c in
  if ((65 <=? n) && (n <=? 90))%N then ascii_of_N (n + 32) else c.

Fixpoint lower (s : string) : string :=
  match s with
  | EmptyString => EmptyString
  | String c rest => String (lower_ascii c) (lower rest)
  end.

(** [s[a:b]] for [0 <= a <= b] *)
Definition slice (a b : nat) (s : string) : string :=
  substring a (b - a) s.

(** [s[a:]] *)
Fixpoint drop_str (a : nat) (s : string) : string :=
  match a, s with
  | O, _ => s
  | S a', EmptyString => EmptyString
  | S a', String _ rest => drop_str a' rest
  end.

Definition hex_digit (c : ascii) : option N :=
  let n := N_of_ascii c in
  if ((48 <=? n) && (n <=? 57))%N then Some (n - 48)%N
  else if ((97 <=? n) && (n <=? 102))%N then Some (n - 87)%N
  else if ((65 <=? n) && (n <=? 70))%N then Some (n - 55)%N
  else None.

(** [Py_ISSPACE]: space, tab, line feed, vertical tab, form feed,
    carriage return. *)
Definition is_space (c : ascii) : bool :=
  let n := N_of_ascii c in
  ((n =? 32) || ((9 <=? n) && (n <=? 13)))%N.

(** [bytes.fromhex(s)]: two hexadecimal digits per byte, white space
    allowed before a byte, [ValueError] ([None]) otherwise. *)
Fixpoint fromhex (s : string) : option (list Byte.byte) :=
  match s with
  | EmptyString => Some []
  | String c rest =>
      if is_space c then fromhex rest
      else match rest with
           | EmptyString => None
           | String c' rest' =>
               match hex_digit c, hex_digit c' with
               | Some h, Some l =>
                   option_map
                     (cons (byte_of_ascii (ascii_of_N (16 * h + l))))
                     (fromhex rest')
               | _, _ => None
               end
           end
  end.

Definition byte_val (b : Byte.byte) : Z := Z.of_N (Byte.to_N b).

(** [int.from_bytes(bs, signed=True)], big-endian (the default byte
    order). *)
Definition unsigned_be (bs : list Byte.byte) : Z :=
  fold_left (fun acc b => (acc * 256 + byte_val b)%Z) bs 0%Z.

Definition from_bytes_signed (bs : list Byte.byte) : Z :=
  let u := unsigned_be bs in
  let bits := (8 * Z.of_nat (length bs))%Z in
  if ((0 <? bits) && (2 ^ (bits - 1) <=? u))%Z then (u - 2 ^ bits)%Z else u.

(** [s.split(",")] *)
Fixpoint split_comma_aux (s : string) (cur : string) : list string :=
  match s with
  | EmptyString => [cur]
  | String c rest =>
      if Ascii.eqb c ","%char then cur :: split_comma_aux rest EmptyString
      else split_comma_aux rest (cur +:+ String c EmptyString)
  end.

Definition split_comma (s : string) : list string :=
  split_comma_aux s EmptyString.

(** No comma in the string (an address has none). *)
Fixpoint no_comma (s : string) : bool :=
  match s with
  | EmptyString => true
  | String c rest => negb (Ascii.eqb c ","%char) && no_comma rest
  end.

(** [str(n)] and [int(s)] for the non-negative integers the cache holds
    ([int] is only ever applied to what [str] wrote). *)
Definition str_of_N (n : N) : string := NilZero.string_of_uint (N.to_uint n).

Definition int_of_str (s : string) : option N :=
  option_map N.of_uint (NilZero.uint_of_string s).

(** [str(z)] inside an f-string *)
Definition str_of_Z (z : Z) : string :=
  match z with
  | Zneg p => "-" +:+ str_of_N (Npos p)
  | _ => str_of_N (Z.to_N z)
  end.

End Py.

Notation "'let?' x ':=' m 'in' k" := (Py.bind m (fun x => k))
  (at level 10, x name, m at level 100, k at level 200, only parsing).


(* ================================================================== *)
(** * rustworkx: the undirected multigraph the engine builds           *)
(* ================================================================== *)

Module Rx.

(** [rx.PyGraph()]: a node is known by its index, the position at which
    it was added; an edge joins two indices and carries a payload.
    Parallel edges are kept. *)
Record PyGraph (E : Type) : Type := {
  nodes : list nat;
  edges : list (nat * nat * E)
}.
Arguments nodes {E} _.
Arguments edges {E} _.

Definition empty {E} : PyGraph E := {| nodes := []; edges := [] |}.

(** [graph.add_node(payload)] *)
Definition add_node {E} (g : PyGraph E) (payload : nat) : PyGraph E :=
  {| nodes := nodes g ++ [payload]; edges := edges g |}.

(** [graph.add_edge(a, b, w)]; an endpoint that is not a node of the
    graph is an [IndexError]. *)
Definition add_edge {E} (g : PyGraph E) (a b : nat) (w : E)
  : Py.outcome (PyGraph E) :=
  if (a <? length (nodes g)) && (b <? length (nodes g))
  then Py.Returned {| nodes := nodes g; edges := edges g ++ [(a, b, w)] |}
  else Py.Raised Py.IndexError.

(** An edge joins [u] and [v], whichever way round it was added. *)
Definition joins {E} (u v : nat) (e : nat * nat * E) : bool :=
  let '(a, b, _) := e in
  ((a =? u) && (b =? v)) || ((a =? v) && (b =? u)).

Definition adjacent {E} (g : PyGraph E) (u v : nat) : bool :=
  existsb (joins u v) (edges g).

(** A walk: consecutive nodes are adjacent. *)
Fixpoint is_walk {E} (g : PyGraph E) (p : list nat) : bool :=
  match p with
  | u :: ((v :: _) as rest) => adjacent g u v && is_walk g rest
  | _ => true
  end.

Definition walk_between {E} (g : PyGraph E) (s t : nat) (p : list nat)
  : Prop :=
  hd_error p = Some s /\ List.last p s = t /\ is_walk g p = true.

End Rx.

(** What the engine takes from its libraries and from the interpreter
    without fixing it itself. *)
Record Library : Type := {
  (** [rx.graph_all_shortest_paths(g, source, target)] with the default
      unit edge weight *)
  graph_all_shortest_paths :
    forall E : Type, Rx.PyGraph E -> nat -> nat -> list (list nat);
  (** [g.get_edge_data(u, v)]; [None] is [NoEdgeBetweenNodes] *)
  get_edge_data : forall E : Type, Rx.PyGraph E -> nat -> nat -> option E;
  (** the order in which the [set] built from these strings is iterated *)
  set_of_str : list string -> list string;
  (** [list(set(paths))] on tuples of node indices *)
  set_of_path : list (list nat) -> list (list nat);
  (** [int(s, 16)] on the words of a node's reply; [None] is
      [ValueError] *)
  int16 : string -> option N;
  (** [bytes.decode()]; [None] is [UnicodeDecodeError] *)
  utf8_decode : list Byte.byte -> option string
}.
Arguments graph_all_shortest_paths _ {E} _ _ _.
Arguments get_edge_data _ {E} _ _ _.

(** The documented behaviour the theorems rely on.  Nothing is assumed
    about [graph_all_shortest_paths] when source and target coincide
    beyond soundness, and nothing about the two decoders. *)
Record LibraryOk (L : Library) : Prop := {
  asp_sound : forall E (g : Rx.PyGraph E) s t p,
    In p (graph_all_shortest_paths L g s t) -> Rx.walk_between g s t p;
  asp_shortest : forall E (g : Rx.PyGraph E) s t p q,
    In p (graph_all_shortest_paths L g s t) ->
    Rx.walk_between g s t q -> length p <= length q;
  asp_complete : forall E (g : Rx.PyGraph E) s t q,
    s <> t -> Rx.walk_between g s t q ->
    graph_all_shortest_paths L g s t <> [];
  edge_data_sound : forall E (g : Rx.PyGraph E) u v w,
    get_edge_data L g u v = Some w ->
    exists a b, In (a, b, w) (Rx.edges g) /\ Rx.joins u v (a, b, w) = true;
  edge_data_complete : forall E (g : Rx.PyGraph E) u v,
    Rx.adjacent g u v = true -> get_edge_data L g u v <> None;
  set_of_str_nodup : forall l, List.NoDup (set_of_str L l);
  set_of_str_in : forall l x, In x (set_of_str L l) <-> In x l;
  set_of_path_nodup : forall l, List.NoDup (set_of_path L l);
  set_of_path_in : forall l x, In x (set_of_path L l) <-> In x l
}.

(** ** A library that meets the contract *)

Module RefLib.

Definition neighbours {E} (g : Rx.PyGraph E) (u : nat) : list nat :=
  flat_map (fun e : nat * nat * E =>
              let '(a, b, _) := e in
              (if a =? u then [b] else []) ++ (if b =? u then [a] else []))
           (Rx.edges g).

(** Walks are grown from the source and kept reversed: the head of a
    walk is the node it has reached. *)
Definition extend {E} (g : Rx.PyGraph E) (ws : list (list nat))
  : list (list nat) :=
  flat_map (fun w => match w with
                     | [] => []
                     | x :: _ => map (fun n => n :: w) (neighbours g x)
                     end) ws.

(** The walks of [k] edges from [s]. *)
Fixpoint layer {E} (g : Rx.PyGraph E) (s : nat) (k : nat)
  : list (list nat) :=
  match k with
  | O => [[s]]
  | S k' => extend g (layer g s k')
  end.

Definition reaches (t : nat) (w : list nat) : bool :=
  match w with
  | x :: _ => x =? t
  | [] => false
  end.

(** A walk kept reversed: [k] edges, ending (at its last element) at the
    source [s]. *)
Definition rwalk {E} (g : Rx.PyGraph E) (s k : nat) (w : list nat)
  : Prop :=
  length w = S k /\ List.last w s = s /\ Rx.is_walk g w = true.

(** The walks of [k] edges from [s] that end at [t]. *)
Definition hits {E} (g : Rx.PyGraph E) (s t k : nat) : list (list nat) :=
  List.filter (reaches t) (layer g s k).

(** The endpoints of the edges, with repetition. *)
Definition endpoints {E} (g : Rx.PyGraph E) : list nat :=
  flat_map (fun e : nat * nat * E => let '(a, b, _) := e in [a; b])
           (Rx.edges g).

Fixpoint search {E} (g : Rx.PyGraph E) (t : nat) (fuel : nat)
  (ws : list (list nat)) : list (list nat) :=
  match List.filter (reaches t) ws with
  | [] => match fuel with
          | O => []
          | S fuel' => search g t fuel' (extend g ws)
          end
  | hits => map (@rev nat) hits
  end.

Definition all_shortest_paths {E} (g : Rx.PyGraph E) (s t : nat)
  : list (list nat) :=
  if s =? t then []
  else search g t (2 * length (Rx.edges g)) [[s]].

Definition edge_data {E} (g : Rx.PyGraph E) (u v : nat) : option E :=
  option_map snd (find (Rx.joins u v) (Rx.edges g)).

(** Plain hexadecimal with an optional [0x]. *)
Fixpoint hex_value (s : string) (acc : N) : option N :=
  match s with
  | EmptyString => Some acc
  | String c rest =>
      match Py.hex_digit c with
      | Some d => hex_value rest (16 * acc + d)%N
      | None => None
      end
  end.

Definition hex_int (s : string) : option N :=
  match s with
  | String "0" (String "x" (String c rest)) => hex_value (String c rest) 0
  | String c rest => hex_value (String c rest) 0
  | EmptyString => None
  end.

(** ASCII only. *)
Fixpoint ascii_decode (bs : list Byte.byte) : option string :=
  match bs with
  | [] => Some EmptyString
  | b :: rest =>
      if (Byte.to_N b <? 128)%N
      then option_map (String (ascii_of_byte b)) (ascii_decode rest)
      else None
  end.

Definition lib : Library := {|
  graph_all_shortest_paths := fun E => @all_shortest_paths E;
  get_edge_data := fun E => @edge_data E;
  set_of_str := nodup string_dec;
  set_of_path := nodup (List.list_eq_dec Nat.eq_dec);
  int16 := hex_int;
  utf8_decode := ascii_decode
|}.

End RefLib.

(* ================================================================== *)
(** * core/node.py: the chain client                                   *)
(* ================================================================== *)

Module Node.
Import Py.

(** One answer of the node to one [session.post]:
    - [Http status (Some r)]: an HTTP status with a JSON body whose
      ['result'] is [r];
    - [Http status None]: an HTTP status with a JSON body that has no
      ['result'], as a JSON-RPC error object has none:
      [(await response.json())['result']] raises [KeyError];
    - [Unparsed status e]: an HTTP status with a body on which
      [await response.json()] raises [e] (a [JSONDecodeError], which is a
      [ValueError]; aiohttp's [ContentTypeError], which is a
      [ClientError]);
    - [Unreachable]: no answer at all, [session.post] raises. *)
Inductive reply (B : Type) : Type :=
| Http (status : Z) (result : option B)
| Unparsed (status : Z) (e : exn)
| Unreachable.
Arguments Http {B} status result.
Arguments Unparsed {B} status e.
Arguments Unreachable {B}.

Definition status_of {B} (r : reply B) : option Z :=
  match r with
  | Http status _ | Unparsed status _ => Some status
  | Unreachable => None
  end.

(** A reply whose status is not 200. *)
Definition refused {B} (r : reply B) : Prop :=
  exists status, status_of r = Some status /\ status <> 200%Z.

(** A reply that is no answer: a status other than 200, or no reply. *)
Definition failed {B} (r : reply B) : Prop :=
  refused r \/ r = Unreachable.

Definition is_429 {B} (r : reply B) : bool :=
  match r with
  | Http status _ | Unparsed status _ => (status =? 429)%Z
  | Unreachable => false
  end.

Definition count_429 {B} (rs : list (reply B)) : nat :=
  length (List.filter is_429 rs).

(** An entry of [eth_getLogs]' result. *)
Record log : Type := {
  log_address : string;
  log_blockNumber : string;
  log_transactionHash : string;
  log_logIndex : string;
  log_data : string
}.

(** The [while True] loops, run on the replies the node gives to the
    successive attempts of one call.  Each returns what the call gives
    and the number of [asyncio.sleep(1)] it went through. *)

Fixpoint single_pool_token_loop (replies : list (reply string))
  (slept : nat) : outcome string * nat :=
  match replies with
  | [] => (Pending, slept)
  | Unreachable :: rest => single_pool_token_loop rest (S slept)
  | Unparsed status _ :: rest =>
      let slept := if (status =? 429)%Z then S slept else slept in
      (* [response.json()] raises, or [raise Exception(...)]: caught *)
      single_pool_token_loop rest (S slept)
  | Http status result :: rest =>
      let slept := if (status =? 429)%Z then S slept else slept in
      if (status =? 200)%Z then
        match result with
        | Some r => (Returned ("0x" +:+ slice 26 66 r), slept)
        | None => single_pool_token_loop rest (S slept)
        end
      else
        (* raise Exception(...), caught by the enclosing except *)
        single_pool_token_loop rest (S slept)
  end.

Definition get_single_pool_token_async (replies : list (reply string))
  (token : Z) : outcome string * nat :=
  if ((token =? 0) || (token =? 1))%Z
  then single_pool_token_loop replies 0
  else (Raised (Exception ("Invalid token index: " +:+ str_of_Z token
                           +:+ " - must be 0 or 1")), 0).

Definition get_pool_tokens_async (replies0 replies1 : list (reply string))
  : outcome (list string) :=
  gather [fst (get_single_pool_token_async replies0 0);
          fst (get_single_pool_token_async replies1 1)].

(** Here the handler starts with [raise e]: whatever the attempt raised
    leaves the call as it is. *)
Fixpoint raw_swap_logs_loop (replies : list (reply (list log)))
  (slept : nat) : outcome (list log) * nat :=
  match replies with
  | [] => (Pending, slept)
  | Unreachable :: _ => (Raised ClientError, slept)
  | Unparsed status e :: rest =>
      if (status =? 200)%Z then (Raised e, slept)
      else raw_swap_logs_loop rest (S slept)
  | Http status result :: rest =>
      if (status =? 200)%Z then
        match result with
        | Some logs => (Returned logs, slept)
        | None => (Raised KeyError, slept)
        end
      else raw_swap_logs_loop rest (S slept)
  end.

Definition get_raw_swap_logs (replies : list (reply (list log)))
  : outcome (list log) * nat :=
  raw_swap_logs_loop replies 0.

Fixpoint token_decimals_loop (L : Library) (replies : list (reply string))
  (slept : nat) : outcome N * nat :=
  match replies with
  | [] => (Pending, slept)
  | Unreachable :: rest => token_decimals_loop L rest (S slept)
  | Unparsed _ _ :: rest => token_decimals_loop L rest (S slept)
  | Http status result :: rest =>
      if (status =? 200)%Z then
        match result with
        | Some r =>
            match int16 L r with
            | Some d => (Returned d, slept)
            | None => token_decimals_loop L rest (S slept)
            end
        | None => token_decimals_loop L rest (S slept)
        end
      else token_decimals_loop L rest (S slept)
  end.

Definition get_token_decimals (L : Library) (replies : list (reply string))
  : outcome N * nat :=
  token_decimals_loop L replies 0.

Fixpoint token_symbol_loop (L : Library) (replies : list (reply string))
  (slept : nat) : outcome string * nat :=
  match replies with
  | [] => (Pending, slept)
  | Unreachable :: rest => token_symbol_loop L rest (S slept)
  | Unparsed _ _ :: rest => token_symbol_loop L rest (S slept)
  | Http status result :: rest =>
      if (status =? 200)%Z then
        match result with
        | Some r =>
            match fromhex (drop_str 2 r) with
            | Some bs =>
                match utf8_decode L bs with
                | Some sym => (Returned sym, slept)
                | None => token_symbol_loop L rest (S slept)
                end
            | None => token_symbol_loop L rest (S slept)
            end
        | None => token_symbol_loop L rest (S slept)
        end
      else token_symbol_loop L rest (S slept)
  end.

Definition get_token_symbol (L : Library) (replies : list (reply string))
  : outcome string * nat :=
  token_symbol_loop L replies 0.

End Node.

(* ================================================================== *)
(** * service/cache.py: the three Redis databases                      *)
(* ================================================================== *)

Module Cache.
Import Py.

(** [token_decimals_db] is bound twice in the source (databases 1 and
    3); the second binding is the one every function sees. *)
Record t : Type := {
  pool_address_redis : gmap string string;
  token_decimals_db : gmap string string;
  token_symbols_db : gmap string string
}.

Definition empty : t :=
  {| pool_address_redis := ∅; token_decimals_db := ∅;
     token_symbols_db := ∅ |}.

(** [f"{tokens[0]},{tokens[1]}"]: [IndexError] on a shorter tuple. *)
Definition set_pool_pair (c : t) (pool_address : string)
  (tokens : list string) : outcome t :=
  match tokens with
  | t0 :: t1 :: _ =>
      Returned {| pool_address_redis :=
                    <[pool_address := t0 +:+ "," +:+ t1]>
                      (pool_address_redis c);
                  token_decimals_db := token_decimals_db c;
                  token_symbols_db := token_symbols_db c |}
  | _ => Raised IndexError
  end.

Definition get_pool_pair (c : t) (pool_address : string)
  : option (list string) :=
  option_map split_comma (pool_address_redis c !! pool_address).

Definition set_token_decimals (c : t) (token_address : string)
  (decimals : N) : t :=
  {| pool_address_redis := pool_address_redis c;
     token_decimals_db :=
       <[token_address := str_of_N decimals]> (token_decimals_db c);
     token_symbols_db := token_symbols_db c |}.

(** [int(...)] on the stored text: [ValueError] when it is no number. *)
Definition get_token_decimals (c : t) (token_address : string)
  : outcome (option N) :=
  match token_decimals_db c !! token_address with
  | Some v => let? d := of_option ValueError (int_of_str v) in
              Returned (Some d)
  | None => Returned None
  end.

Definition set_token_symbol (c : t) (token_address : string)
  (symbol : string) : t :=
  {| pool_address_redis := pool_address_redis c;
     token_decimals_db := token_decimals_db c;
     token_symbols_db := <[token_address := symbol]> (token_symbols_db c) |}.

Definition get_token_symbol (c : t) (token_address : string)
  : option string :=
  token_symbols_db c !! token_address.

End Cache.

(* ================================================================== *)
(** * service/calculation.py                                           *)
(* ================================================================== *)

Module Calculation.
Import Py.

(** ** Cache fetchers

    Each resolver is run from a cache state with the outcome that
    awaiting the node's fetcher would have; it gives its own outcome,
    the cache it leaves and the number of times it called the fetcher. *)

Record run (A : Type) : Type := {
  result : outcome A;
  cache_after : Cache.t;
  fetches : nat
}.
Arguments result {A} _.
Arguments cache_after {A} _.
Arguments fetches {A} _.

Definition get_token_decimals (c : Cache.t) (fetch : outcome N)
  (token_address : string) : run N :=
  match Cache.get_token_decimals c token_address with
  | Returned (Some decimals) =>
      {| result := Returned decimals;
         cache_after := Cache.set_token_decimals c token_address decimals;
         fetches := 0 |}
  | Returned None =>
      match fetch with
      | Returned decimals =>
          {| result := Returned decimals;
             cache_after := Cache.set_token_decimals c token_address decimals;
             fetches := 1 |}
      | Raised e =>
          {| result := Raised (ContractNotFoundException
                                 ("Token contract not found: "
                                  +:+ token_address) e);
             cache_after := c; fetches := 1 |}
      | Pending => {| result := Pending; cache_after := c; fetches := 1 |}
      end
  | Raised e => {| result := Raised e; cache_after := c; fetches := 0 |}
  | Pending => {| result := Pending; cache_after := c; fetches := 0 |}
  end.

Definition get_token_symbol (c : Cache.t) (fetch : outcome string)
  (token_address : string) : run string :=
  match Cache.get_token_symbol c token_address with
  | Some symbol =>
      {| result := Returned symbol;
         cache_after := Cache.set_token_symbol c token_address symbol;
         fetches := 0 |}
  | None =>
      match fetch with
      | Returned symbol =>
          {| result := Returned symbol;
             cache_after := Cache.set_token_symbol c token_address symbol;
             fetches := 1 |}
      | Raised e =>
          {| result := Raised (ContractNotFoundException
                                 ("Token contract not found: "
                                  +:+ token_address) e);
             cache_after := c; fetches := 1 |}
      | Pending => {| result := Pending; cache_after := c; fetches := 1 |}
      end
  end.

(** [set_cached_pool_pair] runs after the [try] block, on a hit as on a
    miss.  The handler is [raise e]: the statement that would wrap the
    exception comes after it and is never reached. *)
Definition store_pool_pair (c : Cache.t) (pool_address : string)
  (tokens : list string) (n : nat) : run (list string) :=
  match Cache.set_pool_pair c pool_address tokens with
  | Returned c' =>
      {| result := Returned tokens; cache_after := c'; fetches := n |}
  | Raised e => {| result := Raised e; cache_after := c; fetches := n |}
  | Pending => {| result := Pending; cache_after := c; fetches := n |}
  end.

Definition get_pool_tokens (c : Cache.t) (fetch : outcome (list string))
  (pool_address : string) : run (list string) :=
  match Cache.get_pool_pair c pool_address with
  | Some tokens => store_pool_pair c pool_address tokens 0
  | None =>
      match fetch with
      | Returned tokens => store_pool_pair c pool_address tokens 1
      | Raised e => {| result := Raised e; cache_after := c; fetches := 1 |}
      | Pending => {| result := Pending; cache_after := c; fetches := 1 |}
      end
  end.

(** ** Swaps within a block range *)

Record SwapEvent : Type := {
  block_number : N;
  transaction_hash : string;
  log_index : N;
  address : string;
  from_token : string;
  to_token : string;
  from_amount : Z;
  to_amount : Z
}.

Definition ratio (s : SwapEvent) : outcome spec_float :=
  int_truediv (to_amount s) (from_amount s).

(** What the awaited calls of one request give. *)
Record world : Type := {
  raw_swap_logs : Z -> Z -> outcome (list Node.log);
  pool_tokens : string -> outcome (list string);
  token_decimals : string -> outcome N;
  token_symbol : string -> outcome string
}.

(** [abs(int.from_bytes(bytes.fromhex(data[a:b]), signed=True))] *)
Definition amount (data : string) (a b : nat) : outcome Z :=
  let? bs := of_option ValueError (fromhex (slice a b data)) in
  Returned (Z.abs (from_bytes_signed bs)).

(** [dict(zip(pool_addresses, pool_tokens_lst))[pool_address]] *)
Fixpoint lookup_pool (pool_tokens : list (string * list string))
  (pool_address : string) : option (list string) :=
  match pool_tokens with
  | [] => None
  | (k, v) :: rest =>
      if String.eqb k pool_address then Some v
      else lookup_pool rest pool_address
  end.

(** [from_token, to_token = ...]: exactly two items. *)
Definition unpack2 (tokens : list string) : outcome (string * string) :=
  match tokens with
  | [t0; t1] => Returned (t0, t1)
  | _ => Raised ValueError
  end.

Definition parse_log (L : Library)
  (pool_tokens : list (string * list string)) (log : Node.log)
  : outcome SwapEvent :=
  let pool_address := Node.log_address log in
  let? tokens := of_option KeyError (lookup_pool pool_tokens pool_address) in
  let? pair := unpack2 tokens in
  let? bn := of_option ValueError (int16 L (Node.log_blockNumber log)) in
  let? li := of_option ValueError (int16 L (Node.log_logIndex log)) in
  let? fa := amount (Node.log_data log) 2 66 in
  let? ta := amount (Node.log_data log) 66 130 in
  Returned {| block_number := bn;
              transaction_hash := Node.log_transactionHash log;
              log_index := li;
              address := lower pool_address;
              from_token := lower (fst pair);
              to_token := lower (snd pair);
              from_amount := fa;
              to_amount := ta |}.

Fixpoint parse_logs (L : Library)
  (pool_tokens : list (string * list string)) (logs : list Node.log)
  : outcome (list SwapEvent) :=
  match logs with
  | [] => Returned []
  | log :: rest =>
      let? swap := parse_log L pool_tokens log in
      let? swaps := parse_logs L pool_tokens rest in
      Returned (swap :: swaps)
  end.

Definition get_swaps (L : Library) (w : world) (from_block to_block : Z)
  : outcome (list SwapEvent) :=
  let? logs := raw_swap_logs w from_block to_block in
  let pool_addresses := set_of_str L (map Node.log_address logs) in
  let? pool_tokens_lst := gather (map (pool_tokens w) pool_addresses) in
  parse_logs L (combine pool_addresses pool_tokens_lst) logs.

(** ** Ratio between two tokens *)

Record ConversionResult : Type := {
  conversion_rate : num;
  token0_decimals : N;
  token1_decimals : N;
  token0_symbol : string;
  token1_symbol : string;
  token_pair_path : list string
}.

(** [int(block_number - BLOCK_RANGE/2)] and
    [int(block_number + BLOCK_RANGE/2)] with [BLOCK_RANGE = 200]; the
    division makes both sides floats. *)
Definition block_window (block_number : Z) : outcome (Z * Z) :=
  let? half := int_truediv 200 2 in
  let? b := float_of_int block_number in
  let? lo := int_of_float (SFsub prec emax b half) in
  let? hi := int_of_float (SFadd prec emax b half) in
  Returned (lo, hi).

(** [token_addresses]: the set of the tokens of the swaps, in the order
    it is enumerated.  A token's id is its position. *)
Definition token_addresses (L : Library) (swaps : list SwapEvent)
  : list string :=
  set_of_str L (flat_map (fun s => [from_token s; to_token s]) swaps).

(** [token_id_map.get(token)] *)
Fixpoint index_of (x : string) (l : list string) : option nat :=
  match l with
  | [] => None
  | y :: rest =>
      if String.eqb y x then Some 0 else option_map S (index_of x rest)
  end.

(** One node per token; the node added for the [i]-th token has index
    [i] and payload [i]. *)
Definition add_nodes (ids : list string) : Rx.PyGraph SwapEvent :=
  fold_left Rx.add_node (seq 0 (length ids)) Rx.empty.

Fixpoint add_swap_edges (ids : list string) (g : Rx.PyGraph SwapEvent)
  (swaps : list SwapEvent) : outcome (Rx.PyGraph SwapEvent) :=
  match swaps with
  | [] => Returned g
  | swap :: rest =>
      let? from_token_id :=
        of_option KeyError (index_of (from_token swap) ids) in
      let? to_token_id :=
        of_option KeyError (index_of (to_token swap) ids) in
      let? g' := Rx.add_edge g from_token_id to_token_id swap in
      add_swap_edges ids g' rest
  end.

Definition build_graph (ids : list string) (swaps : list SwapEvent)
  : outcome (Rx.PyGraph SwapEvent) :=
  add_swap_edges ids (add_nodes ids) swaps.

(** [token_id_map_inv[i]] *)
Definition token_of (ids : list string) (i : nat) : outcome string :=
  of_option KeyError (nth_error ids i).

(** The [elif] of the loop: the record runs against the traversal. *)
Definition step_reversed (ids : list string) (swap : SwapEvent)
  (r : spec_float) (u v : nat) (total_ratio : num) : outcome num :=
  let? tu := token_of ids u in
  if String.eqb (to_token swap) tu then
    let? tv := token_of ids v in
    if String.eqb (from_token swap) tv
    then truediv total_ratio (PyFloat r)
    else Returned total_ratio
  else Returned total_ratio.

(** One turn of the loop over the path, for the edge from [u] to [v]. *)
Definition step (L : Library) (g : Rx.PyGraph SwapEvent)
  (ids : list string) (u v : nat) (total_ratio : num) : outcome num :=
  let? swap := of_option NoEdgeBetweenNodes (get_edge_data L g u v) in
  let? r := ratio swap in
  let? tu := token_of ids u in
  if String.eqb (from_token swap) tu then
    let? tv := token_of ids v in
    if String.eqb (to_token swap) tv
    then mul total_ratio (PyFloat r)
    else step_reversed ids swap r u v total_ratio
  else step_reversed ids swap r u v total_ratio.

(** [for i in range(len(path) - 1): ...] *)
Fixpoint walk_path (L : Library) (g : Rx.PyGraph SwapEvent)
  (ids : list string) (path : list nat) (total_ratio : num)
  : outcome num :=
  match path with
  | u :: ((v :: _) as rest) =>
      let? total_ratio' := step L g ids u v total_ratio in
      walk_path L g ids rest total_ratio'
  | _ => Returned total_ratio
  end.

(** [total_ratio * (10 ** token0_decimals) / (10 ** token1_decimals)],
    left to right. *)
Definition scale (total_ratio : num) (d0 d1 : N) : outcome num :=
  let? scaled := mul total_ratio (pow10 d0) in
  truediv scaled (pow10 d1).

Definition remove_char (c : ascii) (symbol : string) : string :=
  string_of_list_ascii
    (List.filter (fun x => negb (Ascii.eqb x c))
                 (list_ascii_of_string symbol)).

Definition REPLACE_CHARS : list ascii :=
  map ascii_of_nat [0; 1; 2; 3; 4; 5; 6; 7; 8; 9; 32].

Definition parse_symbol (symbol : string) : string :=
  fold_left (fun s c => remove_char c s) REPLACE_CHARS symbol.

Fixpoint path_tokens (ids : list string) (path : list nat)
  : outcome (list string) :=
  match path with
  | [] => Returned []
  | i :: rest =>
      let? tok := token_of ids i in
      let? toks := path_tokens ids rest in
      Returned (tok :: toks)
  end.

(** The three failures the function raises itself, each a plain
    [Exception] with its own message. *)
Definition token0_not_found (token0 : string) : exn :=
  Exception ("Token0 " +:+ token0 +:+ " not found in swap events").

Definition token1_not_found (token1 : string) : exn :=
  Exception ("Token " +:+ token1 +:+ " not found in swap events").

Definition no_swap_path (token0 token1 : string) : exn :=
  Exception ("No swap path found between token0 " +:+ token0
             +:+ " and token1 " +:+ token1
             +:+ ", unable to calculate conversion rate.").

(** The function from the point where the swaps are known. *)
Definition rate_from_swaps (L : Library) (w : world)
  (swaps : list SwapEvent) (token0 token1 : string)
  : outcome ConversionResult :=
  let ids := token_addresses L swaps in
  let? graph := build_graph ids swaps in
  let? from_token_id :=
    of_option (token0_not_found token0) (index_of token0 ids) in
  let? to_token_id :=
    of_option (token1_not_found token1) (index_of token1 ids) in
  let paths :=
    set_of_path L (graph_all_shortest_paths L graph from_token_id
                                            to_token_id) in
  let? path := of_option (no_swap_path token0 token1) (hd_error paths) in
  let? total_ratio := walk_path L graph ids path (PyInt 1) in
  let? d0 := token_decimals w token0 in
  let? d1 := token_decimals w token1 in
  let? rate := scale total_ratio d0 d1 in
  let? s0 := token_symbol w token0 in
  let? s1 := token_symbol w token1 in
  let? toks := path_tokens ids path in
  Returned {| conversion_rate := rate;
              token0_decimals := d0;
              token1_decimals := d1;
              token0_symbol := parse_symbol s0;
              token1_symbol := parse_symbol s1;
              token_pair_path := toks |}.

Definition get_token_conversion_rate (L : Library) (w : world)
  (token0 token1 : string) (block_number : Z)
  : outcome ConversionResult :=
  let token0 := lower token0 in
  let token1 := lower token1 in
  let? window := block_window block_number in
  let? swaps := get_swaps L w (fst window) (snd window) in
  rate_from_swaps L w swaps token0 token1.

(** ** The swap graph in closed form, and the vocabulary of the properties *)

(** The graph the function builds, written out. *)
Definition id_of (ids : list string) (token : string) : nat :=
  match index_of token ids with
  | Some i => i
  | None => 0
  end.

Definition swap_edge (ids : list string) (s : SwapEvent)
  : nat * nat * SwapEvent :=
  (id_of ids (from_token s), id_of ids (to_token s), s).

Definition swap_graph (ids : list string) (swaps : list SwapEvent)
  : Rx.PyGraph SwapEvent :=
  {| Rx.nodes := seq 0 (length ids);
     Rx.edges := map (swap_edge ids) swaps |}.

(** A token has an id exactly when some swap touches it. *)
Definition touches (swaps : list SwapEvent) (token : string) : Prop :=
  exists s, In s swaps /\ (from_token s = token \/ to_token s = token).

(** Some swap trades one token for the other, either way round. *)
Definition linked (swaps : list SwapEvent) (x y : string) : Prop :=
  exists s, In s swaps /\
    ((from_token s = x /\ to_token s = y) \/
     (from_token s = y /\ to_token s = x)).

End Calculation.


(* ================================================================== *)
(** * The ABI encoding of a swap log's amounts                         *)
(* ================================================================== *)

Module Abi.

Definition hex_char (d : N) : ascii :=
  if (d <? 10)%N then ascii_of_N (48 + d) else ascii_of_N (87 + d).

Definition hex_of_byte (b : Byte.byte) (rest : string) : string :=
  let n := Byte.to_N b in
  String (hex_char (n / 16)) (String (hex_char (n mod 16)) rest).

Fixpoint hex_of_bytes (bs : list Byte.byte) : string :=
  match bs with
  | [] => EmptyString
  | b :: rest => hex_of_byte b (hex_of_bytes rest)
  end.

(** The [n] low-order bytes of [u], most significant first. *)
Fixpoint be_bytes (n : nat) (u : Z) : list Byte.byte :=
  match n with
  | O => []
  | S k =>
      be_bytes k (u / 256)
        ++ [byte_of_ascii (ascii_of_N (Z.to_N (u mod 256)))]
  end.

(** An [int256] as the contract emits it: 32 bytes, two's complement,
    64 hexadecimal characters. *)
Definition int256 (z : Z) : string :=
  hex_of_bytes (be_bytes 32 (z mod 2 ^ 256)).

(** The [data] field of a swap log: the two amounts, then whatever
    else the event carries. *)
Definition swap_data (amount0 amount1 : Z) (rest : string) : string :=
  "0x" +:+ int256 amount0 +:+ int256 amount1 +:+ rest.

End Abi.

(* ================================================================== *)
(** * A small chain to run the theorems on                             *)
(* ================================================================== *)

Module Examples.
Import Py Calculation.

Definition pool_AB : string := "0xP001".
Definition pool_CD : string := "0xP002".
Definition token_A : string := "0xAA".
Definition token_B : string := "0xBB".
Definition token_C : string := "0xcc".
Definition token_D : string := "0xdd".

(** 1000 of A paid in, 2000 of B paid out. *)
Definition log_AB : Node.log :=
  {| Node.log_address := pool_AB;
     Node.log_blockNumber := "0x12abbab";
     Node.log_transactionHash := "0xfeed01";
     Node.log_logIndex := "0x1f";
     Node.log_data := Abi.swap_data 1000 (-2000) "00ff" |}.

Definition log_CD : Node.log :=
  {| Node.log_address := pool_CD;
     Node.log_blockNumber := "0x12abbac";
     Node.log_transactionHash := "0xfeed02";
     Node.log_logIndex := "0x02";
     Node.log_data := Abi.swap_data (-500) 1000 "" |}.

Definition pools (pool_address : string) : outcome (list string) :=
  if String.eqb pool_address pool_AB then Returned [token_A; token_B]
  else if String.eqb pool_address pool_CD then Returned [token_C; token_D]
  else Pending.

(** A window with the one swap of the pool of A and B. *)
Definition one_pool : world :=
  {| raw_swap_logs := fun _ _ => Returned [log_AB];
     pool_tokens := pools;
     token_decimals := fun _ => Returned 18%N;
     token_symbol := fun _ => Returned "US DC"%string |}.

(** A window with a swap in each of two pools that share no token. *)
Definition two_islands : world :=
  {| raw_swap_logs := fun _ _ => Returned [log_AB; log_CD];
     pool_tokens := pools;
     token_decimals := fun _ => Returned 18%N;
     token_symbol := fun _ => Returned "US DC"%string |}.

Definition swap_AB : SwapEvent :=
  {| block_number := 19577771; transaction_hash := "0xfeed01";
     log_index := 31; address := "0xp001";
     from_token := "0xaa"; to_token := "0xbb";
     from_amount := 1000; to_amount := 2000 |}.

Definition swap_CD : SwapEvent :=
  {| block_number := 19577772; transaction_hash := "0xfeed02";
     log_index := 2; address := "0xp002";
     from_token := "0xcc"; to_token := "0xdd";
     from_amount := 500; to_amount := 1000 |}.

(** A swap from C to B at ratio 0.5. *)
Definition swap_CB : SwapEvent :=
  {| block_number := 19577772; transaction_hash := "0xfeed03";
     log_index := 3; address := "0xp003";
     from_token := "0xcc"; to_token := "0xbb";
     from_amount := 1000; to_amount := 500 |}.

(** A log of its own for the amounts -1000 and 500. *)
Definition amount_parsing_log : Node.log :=
  {| Node.log_address := "0xpool";
     Node.log_blockNumber := "0x12ab7eb";
     Node.log_transactionHash := "0xfeed";
     Node.log_logIndex := "0x1f";
     Node.log_data := Abi.swap_data (-1000) 500 "" |}.

End Examples.

(* ================================================================== *)
(** * Further words for the properties                                 *)
(* ================================================================== *)

Module Words.
Import Py.

(** One of the characters [parse_symbol] removes. *)
Definition replaced (c : ascii) : bool :=
  existsb (Ascii.eqb c) Calculation.REPLACE_CHARS.

(** A reply that ends the decimals call: status 200 with a word that
    [int(., 16)] reads. *)
Definition answers_decimals (L : Library) (r : Node.reply string) : bool :=
  match r with
  | Node.Http status (Some word) =>
      (status =? 200)%Z
      && match int16 L word with Some _ => true | None => false end
  | _ => false
  end.

(** A reply that ends a call for one token of a pool: status 200 with a
    result word. *)
Definition answers_pool_token (r : Node.reply string) : bool :=
  match r with
  | Node.Http status (Some _) => (status =? 200)%Z
  | _ => false
  end.

(** Each token of the list is linked to the next by a swap. *)
Fixpoint chain (swaps : list Calculation.SwapEvent) (toks : list string)
  : Prop :=
  match toks with
  | x :: ((y :: _) as rest) =>
      Calculation.linked swaps x y /\ chain swaps rest
  | _ => True
  end.

(** What a swap record keeps of the log it was parsed from, given the
    pair its pool resolved to. *)
Definition parsed_from (w : Calculation.world) (log : Node.log)
  (s : Calculation.SwapEvent) : Prop :=
  exists t0 t1,
    Calculation.pool_tokens w (Node.log_address log) = Returned [t0; t1] /\
    Calculation.from_token s = lower t0 /\
    Calculation.to_token s = lower t1 /\
    Calculation.address s = lower (Node.log_address log) /\
    Calculation.transaction_hash s = Node.log_transactionHash log /\
    (0 <= Calculation.from_amount s <= 2 ^ 255)%Z /\
    (0 <= Calculation.to_amount s <= 2 ^ 255)%Z.

(** The double holds the integer [n] exactly, with no fractional bits. *)
Definition holds_int (f : spec_float) (n : Z) : Prop :=
  match f with
  | S754_zero _ => n = 0%Z
  | S754_finite s m e =>
      (e <= 0)%Z /\ cond_Zopp s (Zpos m) = (n * 2 ^ (- e))%Z
  | _ => False
  end.

(** A number that is not below zero: an int from 0 on, or a float whose
    sign bit is clear (0.0, a positive number, infinity) or that is no
    number at all. *)
Definition float_not_negative (f : spec_float) : Prop :=
  match f with
  | S754_nan => True
  | S754_zero s | S754_infinity s | S754_finite s _ _ => s = false
  end.

Definition not_negative (x : num) : Prop :=
  match x with
  | PyInt z => (0 <= z)%Z
  | PyFloat f => float_not_negative f
  end.






End Words.

(* ================================================================== *)
(** * Further windows to run the properties on                         *)
(* ================================================================== *)

Module Cases.
Import Py Calculation.

(** The pool of C and D cannot be resolved. *)
Definition pools_CD_down (pool_address : string) : outcome (list string) :=
  if String.eqb pool_address Examples.pool_AB
  then Returned [Examples.token_A; Examples.token_B]
  else Raised ClientError.

Definition one_pool_down : world :=
  {| raw_swap_logs := fun _ _ => Returned [Examples.log_AB; Examples.log_CD];
     pool_tokens := pools_CD_down;
     token_decimals := fun _ => Returned 18%N;
     token_symbol := fun _ => Returned "US DC"%string |}.

(** A log of the pool of C and D whose data is no hexadecimal text. *)
Definition garbled_log : Node.log :=
  {| Node.log_address := Examples.pool_CD;
     Node.log_blockNumber := "0x12abbac";
     Node.log_transactionHash := "0xfeed04";
     Node.log_logIndex := "0x05";
     Node.log_data := "0xnothex" |}.

Definition one_log_garbled : world :=
  {| raw_swap_logs := fun _ _ => Returned [Examples.log_AB; garbled_log];
     pool_tokens := Examples.pools;
     token_decimals := fun _ => Returned 18%N;
     token_symbol := fun _ => Returned "US DC"%string |}.

(** The pool of A and B with a swap of nothing for nothing. *)
Definition log_AB_zero : Node.log :=
  {| Node.log_address := Examples.pool_AB;
     Node.log_blockNumber := "0x12abbab";
     Node.log_transactionHash := "0xfeed05";
     Node.log_logIndex := "0x1f";
     Node.log_data := Abi.swap_data 0 0 "" |}.

Definition one_pool_zero : world :=
  {| raw_swap_logs := fun _ _ => Returned [log_AB_zero];
     pool_tokens := Examples.pools;
     token_decimals := fun _ => Returned 18%N;
     token_symbol := fun _ => Returned "US DC"%string |}.

(** A window without swap logs. *)
Definition quiet : world :=
  {| raw_swap_logs := fun _ _ => Returned [];
     pool_tokens := Examples.pools;
     token_decimals := fun _ => Returned 18%N;
     token_symbol := fun _ => Returned "US DC"%string |}.

(** What the conversions between A and B give in the window of the one
    pool, one way and the other. *)
Definition rate_AB : ConversionResult :=
  {| conversion_rate := PyFloat (decimal 20 (-1));
     token0_decimals := 18;
     token1_decimals := 18;
     token0_symbol := "USDC";
     token1_symbol := "USDC";
     token_pair_path := ["0xaa"%string; "0xbb"%string] |}.

Definition rate_BA : ConversionResult :=
  {| conversion_rate := PyFloat (decimal 5 (-1));
     token0_decimals := 18;
     token1_decimals := 18;
     token0_symbol := "USDC";
     token1_symbol := "USDC";
     token_pair_path := ["0xbb"%string; "0xaa"%string] |}.

End Cases.

(* ================================================================== *)
(** * Properties                                                       *)
(* ================================================================== *)

(** ** Amount parsing *)

Section AmountParsing.
Import Py.

Lemma fromhex_hex_of_byte (b : Byte.byte) (rest : string) :
  fromhex (Abi.hex_of_byte b rest) = option_map (cons b) (fromhex rest).
Proof. destruct b; reflexivity. Qed.

Lemma fromhex_hex_of_bytes (bs : list Byte.byte) :
  fromhex (Abi.hex_of_bytes bs) = Some bs.
Proof.
  induction bs as [|b bs IH]; [reflexivity|].
  cbn [Abi.hex_of_bytes]. rewrite fromhex_hex_of_byte, IH. reflexivity.
Qed.

Lemma length_hex_of_bytes (bs : list Byte.byte) :
  String.length (Abi.hex_of_bytes bs) = 2 * length bs.
Proof.
  induction bs as [|b bs IH]; [reflexivity|].
  cbn [Abi.hex_of_bytes Abi.hex_of_byte String.length length].
  rewrite IH. lia.
Qed.

Lemma length_be_bytes (n : nat) (u : Z) : length (Abi.be_bytes n u) = n.
Proof.
  revert u. induction n as [|n IH]; intros u; [reflexivity|].
  cbn [Abi.be_bytes]. rewrite length_app, IH. cbn. lia.
Qed.

Lemma byte_val_of_ascii (r : Z) :
  (0 <= r < 256)%Z ->
  byte_val (byte_of_ascii (ascii_of_N (Z.to_N r))) = r.
Proof.
  intros Hr. unfold byte_val.
  assert (H : Byte.to_N (byte_of_ascii (ascii_of_N (Z.to_N r)))
              = N_of_ascii (ascii_of_N (Z.to_N r))).
  { generalize (ascii_of_N (Z.to_N r)) as a. intros a.
    pose proof (byte_of_ascii_via_N a) as E. symmetry in E.
    apply Byte.to_of_N in E. exact E. }
  rewrite H, N_ascii_embedding by lia. lia.
Qed.

Lemma unsigned_be_snoc (bs : list Byte.byte) (b : Byte.byte) :
  unsigned_be (bs ++ [b]) = (unsigned_be bs * 256 + byte_val b)%Z.
Proof. unfold unsigned_be. rewrite fold_left_app. reflexivity. Qed.

Lemma unsigned_be_be_bytes (n : nat) (u : Z) :
  (0 <= u)%Z ->
  unsigned_be (Abi.be_bytes n u) = (u mod 256 ^ Z.of_nat n)%Z.
Proof.
  revert u. induction n as [|n IH]; intros u Hu.
  - cbn. rewrite Z.mod_1_r. reflexivity.
  - cbn [Abi.be_bytes]. rewrite unsigned_be_snoc, IH
      by (apply Z.div_pos; lia).
    rewrite byte_val_of_ascii by (apply Z.mod_pos_bound; lia).
    rewrite Nat2Z.inj_succ, Z.pow_succ_r by lia.
    rewrite (Z.rem_mul_r u 256 (256 ^ Z.of_nat n)) by lia. lia.
Qed.

(** Decoding the 32 bytes of an [int256] gives the integer back. *)
Lemma from_bytes_signed_int256 (z : Z) :
  (- 2 ^ 255 <= z < 2 ^ 255)%Z ->
  from_bytes_signed (Abi.be_bytes 32 (z mod 2 ^ 256)) = z.
Proof.
  intros Hz. unfold from_bytes_signed.
  rewrite length_be_bytes.
  rewrite unsigned_be_be_bytes by (apply Z.mod_pos_bound; lia).
  change (256 ^ Z.of_nat 32)%Z with (2 ^ 256)%Z.
  change (8 * Z.of_nat 32)%Z with 256%Z.
  change (256 - 1)%Z with 255%Z.
  rewrite Z.mod_mod by lia.
  change (0 <? 256)%Z with true. cbn [andb].
  destruct (Z.leb_spec (2 ^ 255) (z mod 2 ^ 256)) as [Hge|Hlt].
  - assert (Hneg : (z < 0)%Z).
    { destruct (Z_lt_le_dec z 0) as [|Hnn]; [assumption|].
      rewrite Z.mod_small in Hge by lia. lia. }
    replace z with ((z + 2 ^ 256) - 1 * 2 ^ 256)%Z at 1 by lia.
    rewrite Zminus_mod, Z_mod_mult, Z.sub_0_r, Z.mod_mod by lia.
    rewrite Z.mod_small by lia. lia.
  - destruct (Z_lt_le_dec z 0) as [Hneg|Hnn].
    + replace z with ((z + 2 ^ 256) - 1 * 2 ^ 256)%Z in Hlt at 1 by lia.
      rewrite Zminus_mod, Z_mod_mult, Z.sub_0_r, Z.mod_mod in Hlt by lia.
      rewrite Z.mod_small in Hlt by lia. lia.
    + apply Z.mod_small. lia.
Qed.

Lemma substring_append_l (s t : string) :
  substring 0 (String.length s) (s +:+ t) = s.
Proof.
  induction s as [|c s IH].
  - destruct t; reflexivity.
  - simpl. f_equal. exact IH.
Qed.

Lemma substring_append_r (s t : string) (m : nat) :
  substring (String.length s) m (s +:+ t) = substring 0 m t.
Proof. induction s as [|c s IH]; simpl; [reflexivity | exact IH]. Qed.

Lemma length_int256 (z : Z) : String.length (Abi.int256 z) = 64.
Proof.
  unfold Abi.int256. rewrite length_hex_of_bytes, length_be_bytes.
  reflexivity.
Qed.

Lemma slice_amount0 (a0 a1 : Z) (rest : string) :
  slice 2 66 (Abi.swap_data a0 a1 rest) = Abi.int256 a0.
Proof.
  unfold slice, Abi.swap_data.
  change (66 - 2) with 64. rewrite <- (length_int256 a0) at 1.
  change (substring 2 ?m ("0x" +:+ ?x)) with (substring 0 m x).
  apply substring_append_l.
Qed.

Lemma slice_amount1 (a0 a1 : Z) (rest : string) :
  slice 66 130 (Abi.swap_data a0 a1 rest) = Abi.int256 a1.
Proof.
  unfold slice, Abi.swap_data.
  change (130 - 66) with 64.
  change (substring 66 ?m ("0x" +:+ ?x)) with (substring 64 m x).
  rewrite <- (length_int256 a0) at 1. rewrite substring_append_r.
  rewrite <- (length_int256 a1) at 1. apply substring_append_l.
Qed.

Lemma amount_int256 (data : string) (a b : nat) (z : Z) :
  (- 2 ^ 255 <= z < 2 ^ 255)%Z ->
  slice a b data = Abi.int256 z ->
  Calculation.amount data a b = Returned (Z.abs z).
Proof.
  intros Hz Hs. unfold Calculation.amount. rewrite Hs.
  unfold Abi.int256. rewrite fromhex_hex_of_bytes. cbn [of_option bind].
  rewrite from_bytes_signed_int256 by exact Hz. reflexivity.
Qed.

End AmountParsing.

Section AmountParsingProperty.
Import Py Calculation Examples.

(** The record a well-formed log parses to. *)
Lemma parse_log_swap_data (L : Library)
  (pool_tokens : list (string * list string)) (log : Node.log)
  (a0 a1 : Z) (rest t0 t1 : string) (bn li : N) :
  (- 2 ^ 255 <= a0 < 2 ^ 255)%Z ->
  (- 2 ^ 255 <= a1 < 2 ^ 255)%Z ->
  Node.log_data log = Abi.swap_data a0 a1 rest ->
  lookup_pool pool_tokens (Node.log_address log) = Some [t0; t1] ->
  int16 L (Node.log_blockNumber log) = Some bn ->
  int16 L (Node.log_logIndex log) = Some li ->
  parse_log L pool_tokens log
  = Returned {| block_number := bn;
                transaction_hash := Node.log_transactionHash log;
                log_index := li;
                address := lower (Node.log_address log);
                from_token := lower t0;
                to_token := lower t1;
                from_amount := Z.abs a0;
                to_amount := Z.abs a1 |}.
Proof.
  intros H0 H1 Hdata Hpool Hbn Hli.
  unfold parse_log. rewrite Hpool, Hbn, Hli, Hdata.
  rewrite (amount_int256 _ 2 66 a0 H0 (slice_amount0 a0 a1 rest)).
  rewrite (amount_int256 _ 66 130 a1 H1 (slice_amount1 a0 a1 rest)).
  reflexivity.
Qed.

(** C8.  Amount parsing: the [data] of a raw swap log holds two signed
    256-bit integers back to back (characters 2..66 and 66..130); each is
    read as a signed integer and its absolute value is kept.  In
    particular the amounts -1000 and 500 parse to [from_amount = 1000],
    [to_amount = 500], whose ratio is 0.5. *)
Theorem amount_parsing (L : Library)
  (pool_tokens : list (string * list string)) (log : Node.log)
  (a0 a1 : Z) (rest t0 t1 : string) (bn li : N) :
  (- 2 ^ 255 <= a0 < 2 ^ 255)%Z ->
  (- 2 ^ 255 <= a1 < 2 ^ 255)%Z ->
  Node.log_data log = Abi.swap_data a0 a1 rest ->
  lookup_pool pool_tokens (Node.log_address log) = Some [t0; t1] ->
  int16 L (Node.log_blockNumber log) = Some bn ->
  int16 L (Node.log_logIndex log) = Some li ->
  exists swap,
    parse_log L pool_tokens log = Returned swap /\
    from_amount swap = Z.abs a0 /\
    to_amount swap = Z.abs a1 /\
    (a0 = (-1000)%Z -> a1 = 500%Z ->
     from_amount swap = 1000%Z /\ to_amount swap = 500%Z /\
     ratio swap = Returned (decimal 5 (-1))).
Proof.
  intros H0 H1 Hdata Hpool Hbn Hli.
  rewrite (parse_log_swap_data L pool_tokens log a0 a1 rest t0 t1 bn li)
    by assumption.
  eexists. split; [reflexivity|].
  cbn [from_amount to_amount]. repeat split; subst; reflexivity.
Qed.

Lemma amount_parsing_witness :
  exists swap,
    parse_log RefLib.lib [("0xpool"%string, ["0xa"%string; "0xb"%string])]
              amount_parsing_log = Returned swap /\
    from_amount swap = Z.abs (-1000) /\
    to_amount swap = Z.abs 500 /\
    ((-1000)%Z = (-1000)%Z -> 500%Z = 500%Z ->
     from_amount swap = 1000%Z /\ to_amount swap = 500%Z /\
     ratio swap = Returned (decimal 5 (-1))).
Proof.
  apply (amount_parsing RefLib.lib _ amount_parsing_log (-1000) 500 ""
           "0xa" "0xb" 19576811 31);
    solve [reflexivity | lia].
Defined.

End AmountParsingProperty.

(** ** The chain client's retry loops *)

Section ChainClient.
Import Py Node.

Lemma single_pool_token_loop_failed (bad tail : list (reply string))
  (slept : nat) :
  Forall failed bad ->
  single_pool_token_loop (bad ++ tail) slept
  = single_pool_token_loop tail (slept + length bad + count_429 bad).
Proof.
  intros Hbad. revert slept.
  induction Hbad as [|r bad Hr _ IH]; intros slept.
  - unfold count_429. simpl. f_equal. lia.
  - destruct Hr as [(status & Hs & Hst) | ->].
    + apply Z.eqb_neq in Hst.
      destruct r as [status' result|status' e|]; try discriminate;
        injection Hs as ->; cbn [app single_pool_token_loop];
        try rewrite Hst; unfold count_429; cbn [List.filter is_429];
        destruct (status =? 429)%Z; rewrite IH; cbn [length];
        f_equal; unfold count_429; lia.
    + cbn [app single_pool_token_loop]. rewrite IH.
      unfold count_429. cbn [List.filter is_429 length]. f_equal. lia.
Qed.

Lemma raw_swap_logs_loop_refused (bad tail : list (reply (list log)))
  (slept : nat) :
  Forall refused bad ->
  raw_swap_logs_loop (bad ++ tail) slept
  = raw_swap_logs_loop tail (slept + length bad).
Proof.
  intros Hbad. revert slept.
  induction Hbad as [|r bad Hr _ IH]; intros slept.
  - simpl. f_equal. lia.
  - destruct Hr as (status & Hs & Hst). apply Z.eqb_neq in Hst.
    destruct r as [status' result|status' e|]; try discriminate;
      injection Hs as ->; cbn [app raw_swap_logs_loop];
      rewrite Hst, IH; cbn [length]; f_equal; lia.
Qed.

Lemma token_decimals_loop_failed (L : Library)
  (bad tail : list (reply string)) (slept : nat) :
  Forall failed bad ->
  token_decimals_loop L (bad ++ tail) slept
  = token_decimals_loop L tail (slept + length bad).
Proof.
  intros Hbad. revert slept.
  induction Hbad as [|r bad Hr _ IH]; intros slept.
  - simpl. f_equal. lia.
  - destruct Hr as [(status & Hs & Hst) | ->].
    + apply Z.eqb_neq in Hst.
      destruct r as [status' result|status' e|]; try discriminate;
        injection Hs as ->; cbn [app token_decimals_loop];
        try rewrite Hst; rewrite IH; cbn [length]; f_equal; lia.
    + cbn [app token_decimals_loop]. rewrite IH. cbn [length]. f_equal. lia.
Qed.

Lemma token_symbol_loop_failed (L : Library)
  (bad tail : list (reply string)) (slept : nat) :
  Forall failed bad ->
  token_symbol_loop L (bad ++ tail) slept
  = token_symbol_loop L tail (slept + length bad).
Proof.
  intros Hbad. revert slept.
  induction Hbad as [|r bad Hr _ IH]; intros slept.
  - simpl. f_equal. lia.
  - destruct Hr as [(status & Hs & Hst) | ->].
    + apply Z.eqb_neq in Hst.
      destruct r as [status' result|status' e|]; try discriminate;
        injection Hs as ->; cbn [app token_symbol_loop];
        try rewrite Hst; rewrite IH; cbn [length]; f_equal; lia.
    + cbn [app token_symbol_loop]. rewrite IH. cbn [length]. f_equal. lia.
Qed.

Lemma get_single_pool_token_async_loop (replies : list (reply string))
  (token : Z) :
  token = 0%Z \/ token = 1%Z ->
  get_single_pool_token_async replies token
  = single_pool_token_loop replies 0.
Proof. intros [-> | ->]; reflexivity. Qed.

(** C4, as the code has it.  No HTTP status is fatal: every reply whose
    status is not 200 (429 or any other) is followed by a wait of at
    least one second and a new attempt, however many of them come, and
    none reaches the caller; the pool-token, decimals and symbol calls
    treat a transport error the same way.  While only such replies come
    the call is still waiting; the first good reply is what it returns. *)
Theorem chain_client_retries_every_failure (L : Library)
  (bad : list (reply string)) (bad_logs : list (reply (list log)))
  (r : string) (logs : list log) (d : N) (bs : list Byte.byte)
  (sym : string) :
  Forall failed bad ->
  Forall refused bad_logs ->
  int16 L r = Some d ->
  fromhex (drop_str 2 r) = Some bs ->
  utf8_decode L bs = Some sym ->
  (forall token, token = 0%Z \/ token = 1%Z ->
     get_single_pool_token_async bad token
       = (Pending, length bad + count_429 bad) /\
     get_single_pool_token_async (bad ++ [Http 200 (Some r)]) token
       = (Returned ("0x" +:+ slice 26 66 r),
          length bad + count_429 bad)) /\
  (get_raw_swap_logs bad_logs = (Pending, length bad_logs) /\
   get_raw_swap_logs (bad_logs ++ [Http 200 (Some logs)])
     = (Returned logs, length bad_logs)) /\
  (get_token_decimals L bad = (Pending, length bad) /\
   get_token_decimals L (bad ++ [Http 200 (Some r)])
     = (Returned d, length bad)) /\
  (get_token_symbol L bad = (Pending, length bad) /\
   get_token_symbol L (bad ++ [Http 200 (Some r)])
     = (Returned sym, length bad)).
Proof.
  intros Hbad Hlogs Hd Hbs Hsym.
  split; [|split; [|split]].
  - intros token Htoken.
    rewrite !(get_single_pool_token_async_loop _ _ Htoken).
    rewrite <- (app_nil_r bad) at 1.
    rewrite !single_pool_token_loop_failed by exact Hbad.
    split; reflexivity.
  - unfold get_raw_swap_logs. rewrite <- (app_nil_r bad_logs) at 1.
    rewrite !raw_swap_logs_loop_refused by exact Hlogs.
    split; reflexivity.
  - unfold get_token_decimals. rewrite <- (app_nil_r bad) at 1.
    rewrite !token_decimals_loop_failed by exact Hbad.
    cbn [token_decimals_loop Z.eqb]. rewrite Hd. split; reflexivity.
  - unfold get_token_symbol. rewrite <- (app_nil_r bad) at 1.
    rewrite !token_symbol_loop_failed by exact Hbad.
    cbn [token_symbol_loop Z.eqb]. rewrite Hbs, Hsym. split; reflexivity.
Qed.

End ChainClient.

Section ChainClientExamples.
Import Py Node.

Ltac solve_failed :=
  repeat match goal with
    | |- Forall _ [] => constructor
    | |- Forall _ (_ :: _) => constructor
    | |- failed _ =>
        unfold failed, refused;
        first [ left; eexists; split; [reflexivity | lia]
              | right; reflexivity ]
    | |- refused _ =>
        unfold refused; eexists; split; [reflexivity | lia]
    end.

Lemma chain_client_retries_every_failure_witness :
  (get_token_decimals RefLib.lib [Http 429 None; Unreachable; Http 500 None]
     = (Pending, 3) /\
   get_token_decimals RefLib.lib
     ([Http 429 None; Unreachable; Http 500 None]
        ++ [Http 200 (Some "0x55534443"%string)])
     = (Returned 1431520323%N, 3)) /\
  (get_token_symbol RefLib.lib [Http 429 None; Unreachable; Http 500 None]
     = (Pending, 3) /\
   get_token_symbol RefLib.lib
     ([Http 429 None; Unreachable; Http 500 None]
        ++ [Http 200 (Some "0x55534443"%string)])
     = (Returned "USDC"%string, 3)).
Proof.
  refine (proj2 (proj2
    (chain_client_retries_every_failure RefLib.lib
       [Http 429 None; Unreachable; Http 500 None]
       [Http 429 None; Http 503 None]
       "0x55534443" [] 1431520323
       [Byte.x55; Byte.x53; Byte.x44; Byte.x43] "USDC"
       _ _ _ _ _))); try reflexivity; solve_failed.
Defined.

(** C4 as stated fails: a status that is neither 200 nor 429 is not
    fatal.  After an HTTP 500 the decimals call waits a second, asks
    again and returns the next answer; nothing is raised. *)
Lemma status_500_is_retried_not_raised :
  get_token_decimals RefLib.lib
    [Http 500 None; Http 200 (Some "0x12"%string)] = (Returned 18%N, 1) /\
  ~ (exists e,
       fst (get_token_decimals RefLib.lib
              [Http 500 None; Http 200 (Some "0x12"%string)]) = Raised e).
Proof.
  split; [reflexivity|]. intros [e He]. discriminate He.
Qed.

(** The one place where a failure does leave the client: a transport
    error in [get_raw_swap_logs], whose handler starts with [raise e]. *)
Remark raw_swap_logs_transport_error (rest : list (reply (list log))) :
  get_raw_swap_logs (Http 429 None :: Unreachable :: rest)
  = (Raised ClientError, 1).
Proof. reflexivity. Qed.

End ChainClientExamples.

(** ** The metadata resolvers *)

Section Resolvers.
Import Py Calculation.

Lemma append_cons (c : ascii) (s t : string) :
  String c s +:+ t = String c (s +:+ t).
Proof. reflexivity. Qed.

Lemma append_snoc (cur : string) (c : ascii) (s : string) :
  (cur +:+ String c EmptyString) +:+ s = cur +:+ String c s.
Proof.
  induction cur as [|x cur IH]; [reflexivity|].
  rewrite !append_cons, IH. reflexivity.
Qed.

Lemma append_empty_r (s : string) : s +:+ EmptyString = s.
Proof.
  induction s as [|x s IH]; [reflexivity|].
  rewrite append_cons, IH. reflexivity.
Qed.

Lemma split_comma_aux_no_comma (s rest cur : string) :
  no_comma s = true ->
  split_comma_aux (s +:+ rest) cur = split_comma_aux rest (cur +:+ s).
Proof.
  revert cur. induction s as [|c s IH]; intros cur Hs.
  - rewrite append_empty_r. reflexivity.
  - cbn [no_comma] in Hs. apply andb_prop in Hs as [Hc Hs].
    apply negb_true_iff in Hc.
    rewrite append_cons. cbn [split_comma_aux].
    rewrite Hc, IH by exact Hs. rewrite append_snoc. reflexivity.
Qed.

(** What [set_pool_pair] writes reads back as the same pair. *)
Lemma split_comma_join (t0 t1 : string) :
  no_comma t0 = true -> no_comma t1 = true ->
  split_comma (t0 +:+ "," +:+ t1) = [t0; t1].
Proof.
  intros H0 H1. unfold split_comma.
  rewrite split_comma_aux_no_comma by exact H0.
  change ("," +:+ t1) with (String ","%char t1).
  cbn [split_comma_aux]. rewrite Ascii.eqb_refl.
  rewrite <- (append_empty_r t1) at 1.
  rewrite split_comma_aux_no_comma by exact H1. reflexivity.
Qed.

(** What [set_token_decimals] writes reads back as the same number. *)
Lemma int_of_str_of_N (d : N) : int_of_str (str_of_N d) = Some d.
Proof.
  unfold int_of_str, str_of_N.
  rewrite NilZero.usu.
  - cbn [option_map]. now rewrite DecimalN.Unsigned.of_to.
  - destruct d as [|p]; [discriminate|].
    apply DecimalPos.Unsigned.to_uint_nonnil.
Qed.

(** C9.  Cache idempotence: from a cache that does not hold the
    address, a first resolution calls the chain fetcher once and a
    second one, whatever the node would answer then, calls it not at all
    and returns the value of the first; so for the pool pair, for the
    decimals and for the symbol. *)
Theorem cache_idempotence (c : Cache.t) (adr t0 t1 sym : string) (d : N)
  (again : outcome (list string)) (again_d : outcome N)
  (again_s : outcome string) :
  no_comma t0 = true -> no_comma t1 = true ->
  Cache.pool_address_redis c !! adr = None ->
  Cache.token_decimals_db c !! adr = None ->
  Cache.token_symbols_db c !! adr = None ->
  (let first := get_pool_tokens c (Returned [t0; t1]) adr in
   let second := get_pool_tokens (cache_after first) again adr in
   result first = Returned [t0; t1] /\ fetches first = 1 /\
   result second = result first /\ fetches second = 0) /\
  (let first := get_token_decimals c (Returned d) adr in
   let second := get_token_decimals (cache_after first) again_d adr in
   result first = Returned d /\ fetches first = 1 /\
   result second = result first /\ fetches second = 0) /\
  (let first := get_token_symbol c (Returned sym) adr in
   let second := get_token_symbol (cache_after first) again_s adr in
   result first = Returned sym /\ fetches first = 1 /\
   result second = result first /\ fetches second = 0).
Proof.
  intros H0 H1 Hp Hd Hs. split; [|split].
  - unfold get_pool_tokens, Cache.get_pool_pair. rewrite Hp.
    cbn [option_map store_pool_pair Cache.set_pool_pair result
         cache_after fetches Cache.pool_address_redis].
    rewrite lookup_insert_eq. cbn [option_map].
    rewrite split_comma_join by assumption.
    cbn [store_pool_pair Cache.set_pool_pair result fetches].
    repeat split; reflexivity.
  - unfold get_token_decimals, Cache.get_token_decimals. rewrite Hd.
    cbn [result cache_after fetches Cache.set_token_decimals
         Cache.token_decimals_db].
    rewrite lookup_insert_eq, int_of_str_of_N.
    cbn [of_option bind result fetches].
    repeat split; reflexivity.
  - unfold get_token_symbol, Cache.get_token_symbol. rewrite Hs.
    cbn [result cache_after fetches Cache.set_token_symbol
         Cache.token_symbols_db].
    rewrite lookup_insert_eq. cbn [result fetches].
    repeat split; reflexivity.
Qed.

Lemma cache_idempotence_witness :
  (let first :=
     get_pool_tokens Cache.empty (Returned ["0xa0"%string; "0xb1"%string])
                     "0xpool" in
   let second := get_pool_tokens (cache_after first) Pending "0xpool" in
   result first = Returned ["0xa0"%string; "0xb1"%string] /\
   fetches first = 1 /\
   result second = result first /\ fetches second = 0) /\
  (let first := get_token_decimals Cache.empty (Returned 18%N) "0xpool" in
   let second := get_token_decimals (cache_after first) Pending "0xpool" in
   result first = Returned 18%N /\ fetches first = 1 /\
   result second = result first /\ fetches second = 0) /\
  (let first :=
     get_token_symbol Cache.empty (Returned "USDC"%string) "0xpool" in
   let second := get_token_symbol (cache_after first) Pending "0xpool" in
   result first = Returned "USDC"%string /\ fetches first = 1 /\
   result second = result first /\ fetches second = 0).
Proof.
  apply (cache_idempotence Cache.empty "0xpool" "0xa0" "0xb1" "USDC" 18
           Pending Pending Pending); reflexivity.
Defined.

(** C5, the code at the failing input.  A pool address that answers
    [token0()] and [token1()] with the empty word resolves to the pair
    [("0x", "0x")]; when the fetcher does raise, [get_pool_tokens] lets
    the exception through as it is, where the token resolvers wrap it in
    [ContractNotFoundException]; and a token address whose [decimals()]
    call only ever gets an error object is still being retried after any
    number of replies.  No [ContractNotFoundException] in either. *)
Theorem pool_resolution_failure_is_not_typed :
  result (get_pool_tokens Cache.empty
            (Node.get_pool_tokens_async
               [Node.Http 200 (Some "0x"%string)]
               [Node.Http 200 (Some "0x"%string)])
            "0x00000000000000000000000000000000000000aa")
    = Returned ["0x"%string; "0x"%string] /\
  result (get_pool_tokens Cache.empty (Raised ClientError)
            "0x00000000000000000000000000000000000000aa")
    = Raised ClientError /\
  result (get_token_decimals Cache.empty (Raised ClientError)
            "0x00000000000000000000000000000000000000aa")
    = Raised (ContractNotFoundException
                "Token contract not found: 0x00000000000000000000000000000000000000aa"
                ClientError) /\
  forall (L : Library) (n : nat),
    result (get_token_decimals Cache.empty
              (fst (Node.get_token_decimals L
                      (repeat (Node.Http 200 None) n)))
              "0x00000000000000000000000000000000000000aa")
      = Pending.
Proof.
  repeat split.
  intros L n.
  assert (H : forall slept,
             Node.token_decimals_loop L (repeat (Node.Http 200 None) n) slept
             = (Pending, slept + n)).
  { induction n as [|n IH]; intros slept; simpl.
    - f_equal. lia.
    - rewrite IH. f_equal. lia. }
  unfold Node.get_token_decimals. rewrite H. reflexivity.
Qed.

End Resolvers.

(** ** The swap graph *)

Section SwapGraph.
Import Py Calculation.

Lemma index_of_Some (x : string) (l : list string) (i : nat) :
  index_of x l = Some i -> nth_error l i = Some x.
Proof.
  revert i. induction l as [|y l IH]; intros i H; [discriminate|].
  cbn [index_of] in H. destruct (String.eqb_spec y x) as [->|Hne].
  - injection H as <-. reflexivity.
  - destruct (index_of x l) as [j|]; [|discriminate].
    injection H as <-. cbn [nth_error]. now apply IH.
Qed.

Lemma index_of_In (x : string) (l : list string) :
  In x l -> exists i, index_of x l = Some i.
Proof.
  induction l as [|y l IH]; intros H; [destruct H|].
  cbn [index_of]. destruct (String.eqb_spec y x) as [->|Hne].
  - now exists 0.
  - destruct H as [H|H]; [congruence|].
    destruct (IH H) as [i ->]. now exists (S i).
Qed.

Lemma index_of_not_In (x : string) (l : list string) :
  ~ In x l -> index_of x l = None.
Proof.
  intros H. destruct (index_of x l) as [i|] eqn:E; [|reflexivity].
  exfalso. apply H. apply index_of_Some in E.
  now apply nth_error_In in E.
Qed.

Lemma index_of_lt (x : string) (l : list string) (i : nat) :
  index_of x l = Some i -> i < length l.
Proof.
  intros H. apply index_of_Some in H.
  apply nth_error_Some. congruence.
Qed.

(** Two tokens with the same id are the same token. *)
Lemma index_of_inj (x y : string) (l : list string) (i : nat) :
  index_of x l = Some i -> index_of y l = Some i -> x = y.
Proof.
  intros Hx Hy. apply index_of_Some in Hx, Hy. congruence.
Qed.

Lemma add_nodes_spec (l : list nat) (g : Rx.PyGraph SwapEvent) :
  fold_left Rx.add_node l g
  = {| Rx.nodes := Rx.nodes g ++ l; Rx.edges := Rx.edges g |}.
Proof.
  revert g. induction l as [|x l IH]; intros g; cbn [fold_left].
  - rewrite app_nil_r. now destruct g.
  - rewrite IH. cbn [Rx.add_node Rx.nodes Rx.edges].
    now rewrite <- app_assoc.
Qed.

Lemma add_swap_edges_spec (ids : list string) (swaps : list SwapEvent)
  (g : Rx.PyGraph SwapEvent) :
  length (Rx.nodes g) = length ids ->
  (forall s, In s swaps -> In (from_token s) ids /\ In (to_token s) ids) ->
  add_swap_edges ids g swaps
  = Returned {| Rx.nodes := Rx.nodes g;
                Rx.edges := Rx.edges g ++ map (swap_edge ids) swaps |}.
Proof.
  revert g. induction swaps as [|s swaps IH]; intros g Hn Hin.
  - cbn [add_swap_edges map]. rewrite app_nil_r. now destruct g.
  - cbn [add_swap_edges].
    destruct (Hin s (or_introl eq_refl)) as [Hf Ht].
    destruct (index_of_In _ _ Hf) as [a Ha].
    destruct (index_of_In _ _ Ht) as [b Hb].
    rewrite Ha, Hb. cbn [of_option bind]. unfold Rx.add_edge.
    rewrite Hn.
    rewrite (proj2 (Nat.ltb_lt _ _) (index_of_lt _ _ _ Ha)).
    rewrite (proj2 (Nat.ltb_lt _ _) (index_of_lt _ _ _ Hb)).
    cbn [andb bind]. rewrite IH.
    + cbn [Rx.nodes Rx.edges map]. rewrite <- app_assoc.
      unfold swap_edge at 2, id_of. now rewrite Ha, Hb.
    + exact Hn.
    + intros s' Hs'. apply Hin. now right.
Qed.

Lemma token_addresses_in (L : Library) (swaps : list SwapEvent) :
  LibraryOk L ->
  forall s, In s swaps ->
    In (from_token s) (token_addresses L swaps) /\
    In (to_token s) (token_addresses L swaps).
Proof.
  intros ok s Hs. unfold token_addresses.
  rewrite !(set_of_str_in L ok), !in_flat_map.
  split; exists s; cbn [In]; tauto.
Qed.

Lemma build_graph_spec (L : Library) (swaps : list SwapEvent) :
  LibraryOk L ->
  build_graph (token_addresses L swaps) swaps
  = Returned (swap_graph (token_addresses L swaps) swaps).
Proof.
  intros ok. unfold build_graph, add_nodes. rewrite add_nodes_spec.
  rewrite add_swap_edges_spec.
  - reflexivity.
  - cbn [Rx.nodes Rx.empty app]. apply length_seq.
  - apply token_addresses_in. exact ok.
Qed.

Lemma token_addresses_touches (L : Library) (swaps : list SwapEvent)
  (token : string) :
  LibraryOk L ->
  In token (token_addresses L swaps) <-> touches swaps token.
Proof.
  intros ok. unfold token_addresses, touches.
  rewrite (set_of_str_in L ok), in_flat_map.
  split; intros (s & Hs & H); exists s; (split; [exact Hs|]);
    cbn [In] in *; intuition.
Qed.

End SwapGraph.

(** ** Tokens without a swap, tokens without a path *)

Section Failures.
Import Py Calculation.

Variable L : Library.
Hypothesis ok : LibraryOk L.

Lemma rate_from_swaps_unfold (w : world) (swaps : list SwapEvent)
  (token0 token1 : string) :
  rate_from_swaps L w swaps token0 token1
  = let ids := token_addresses L swaps in
    let graph := swap_graph ids swaps in
    let? from_token_id :=
      of_option (token0_not_found token0) (index_of token0 ids) in
    let? to_token_id :=
      of_option (token1_not_found token1) (index_of token1 ids) in
    let? path :=
      of_option (no_swap_path token0 token1)
        (hd_error (set_of_path L
           (graph_all_shortest_paths L graph from_token_id to_token_id))) in
    let? total_ratio := walk_path L graph ids path (PyInt 1) in
    let? d0 := token_decimals w token0 in
    let? d1 := token_decimals w token1 in
    let? rate := scale total_ratio d0 d1 in
    let? s0 := token_symbol w token0 in
    let? s1 := token_symbol w token1 in
    let? toks := path_tokens ids path in
    Returned {| conversion_rate := rate;
                token0_decimals := d0;
                token1_decimals := d1;
                token0_symbol := parse_symbol s0;
                token1_symbol := parse_symbol s1;
                token_pair_path := toks |}.
Proof.
  unfold rate_from_swaps. rewrite (build_graph_spec L swaps ok).
  reflexivity.
Qed.

Lemma conversion_unfold (w : world) (token0 token1 : string) (blk : Z)
  (window : Z * Z) (swaps : list SwapEvent) :
  block_window blk = Returned window ->
  get_swaps L w (fst window) (snd window) = Returned swaps ->
  get_token_conversion_rate L w token0 token1 blk
  = rate_from_swaps L w swaps (lower token0) (lower token1).
Proof.
  intros Hw Hs. unfold get_token_conversion_rate.
  rewrite Hw. cbn [bind]. rewrite Hs. reflexivity.
Qed.

(** C6.  Missing-token failure: when no swap of the block window touches
    the source token the conversion raises the exception the function
    has for it ("Token0 ... not found in swap events"), and when the
    source is there but no swap touches the target it raises the one for
    the target; in neither case is a rate returned. *)
Theorem missing_token_failure (w : world) (token0 token1 : string)
  (blk : Z) (window : Z * Z) (swaps : list SwapEvent) :
  block_window blk = Returned window ->
  get_swaps L w (fst window) (snd window) = Returned swaps ->
  (~ touches swaps (lower token0) ->
   get_token_conversion_rate L w token0 token1 blk
   = Raised (token0_not_found (lower token0))) /\
  (touches swaps (lower token0) -> ~ touches swaps (lower token1) ->
   get_token_conversion_rate L w token0 token1 blk
   = Raised (token1_not_found (lower token1))).
Proof.
  intros Hw Hs.
  rewrite (conversion_unfold w token0 token1 blk window swaps Hw Hs).
  rewrite rate_from_swaps_unfold. cbv zeta. split.
  - intros H0.
    rewrite index_of_not_In
      by (now rewrite (token_addresses_touches L swaps _ ok)).
    reflexivity.
  - intros H0 H1.
    apply (token_addresses_touches L swaps _ ok) in H0.
    destruct (index_of_In _ _ H0) as [a ->]. cbn [of_option bind].
    rewrite index_of_not_In
      by (now rewrite (token_addresses_touches L swaps _ ok)).
    reflexivity.
Qed.

Lemma swap_graph_adjacent (ids : list string) (swaps : list SwapEvent)
  (u v : nat) (tu : string) :
  (forall s, In s swaps -> In (from_token s) ids /\ In (to_token s) ids) ->
  Rx.adjacent (swap_graph ids swaps) u v = true ->
  nth_error ids u = Some tu ->
  exists tv, nth_error ids v = Some tv /\ linked swaps tu tv.
Proof.
  intros Hin Hadj Hu. unfold Rx.adjacent in Hadj.
  apply existsb_exists in Hadj as (e & He & Hj).
  cbn [swap_graph Rx.edges] in He. apply in_map_iff in He as (s & <- & Hs).
  destruct (Hin s Hs) as [Hf Ht].
  destruct (index_of_In _ _ Hf) as [a Ha].
  destruct (index_of_In _ _ Ht) as [b Hb].
  unfold swap_edge, id_of in Hj. rewrite Ha, Hb in Hj. cbn [Rx.joins] in Hj.
  apply index_of_Some in Ha, Hb.
  apply orb_prop in Hj as [Hj|Hj]; apply andb_prop in Hj as [H1 H2];
    apply Nat.eqb_eq in H1, H2; subst.
  - exists (to_token s). split; [exact Hb|].
    exists s. split; [exact Hs|]. left. split; congruence.
  - exists (from_token s). split; [exact Ha|].
    exists s. split; [exact Hs|]. right. split; congruence.
Qed.

Lemma last_cons_default (y : nat) (p : list nat) (d d' : nat) :
  List.last (y :: p) d = List.last (y :: p) d'.
Proof.
  revert y. induction p as [|z p IH]; intros y; [reflexivity|].
  change (List.last (z :: p) d = List.last (z :: p) d'). apply IH.
Qed.

(** Along a walk of the swap graph the tokens stay linked. *)
Lemma swap_graph_walk (ids : list string) (swaps : list SwapEvent)
  (p : list nat) (u : nat) (tu : string) :
  (forall s, In s swaps -> In (from_token s) ids /\ In (to_token s) ids) ->
  Rx.is_walk (swap_graph ids swaps) p = true ->
  hd_error p = Some u ->
  nth_error ids u = Some tu ->
  exists tv, nth_error ids (List.last p u) = Some tv /\
             rtc (linked swaps) tu tv.
Proof.
  intros Hin. revert u tu.
  induction p as [|x p IH]; intros u tu Hwalk Hhd Hu; [discriminate|].
  injection Hhd as ->. destruct p as [|y p].
  - exists tu. split; [exact Hu | apply rtc_refl].
  - cbn [Rx.is_walk] in Hwalk. apply andb_prop in Hwalk as [Hadj Hwalk].
    destruct (swap_graph_adjacent ids swaps u y tu Hin Hadj Hu)
      as (ty & Hy & Hlink).
    destruct (IH y ty Hwalk eq_refl Hy) as (tv & Hv & Hrtc).
    exists tv. split.
    + change (List.last (u :: y :: p) u) with (List.last (y :: p) u).
      rewrite (last_cons_default y p u y). exact Hv.
    + eapply rtc_l; eassumption.
Qed.

Lemma set_of_path_nil : set_of_path L [] = [].
Proof.
  destruct (set_of_path L []) as [|x l] eqn:E; [reflexivity|].
  exfalso. apply (proj1 (set_of_path_in L ok [] x)). rewrite E. now left.
Qed.

(** C7.  Disconnected-graph failure: when both tokens are touched by
    swaps of the block window but no chain of swaps links one to the
    other, the conversion raises the exception the function has for it
    ("No swap path found ...") and returns no rate. *)
Theorem disconnected_graph_failure (w : world) (token0 token1 : string)
  (blk : Z) (window : Z * Z) (swaps : list SwapEvent) :
  block_window blk = Returned window ->
  get_swaps L w (fst window) (snd window) = Returned swaps ->
  touches swaps (lower token0) ->
  touches swaps (lower token1) ->
  ~ rtc (linked swaps) (lower token0) (lower token1) ->
  get_token_conversion_rate L w token0 token1 blk
  = Raised (no_swap_path (lower token0) (lower token1)).
Proof.
  intros Hw Hs H0 H1 Hsep.
  rewrite (conversion_unfold w token0 token1 blk window swaps Hw Hs).
  rewrite rate_from_swaps_unfold. cbv zeta.
  apply (token_addresses_touches L swaps _ ok) in H0, H1.
  destruct (index_of_In _ _ H0) as [a Ha].
  destruct (index_of_In _ _ H1) as [b Hb].
  rewrite Ha, Hb. cbn [of_option bind].
  destruct (graph_all_shortest_paths L
              (swap_graph (token_addresses L swaps) swaps) a b)
    as [|p ps] eqn:E.
  - rewrite set_of_path_nil. reflexivity.
  - exfalso. apply Hsep.
    destruct (asp_sound L ok SwapEvent
                (swap_graph (token_addresses L swaps) swaps) a b p)
      as (Hhd & Hlast & Hwalk).
    { rewrite E. now left. }
    apply index_of_Some in Ha, Hb.
    destruct (swap_graph_walk _ swaps p a (lower token0)
                (token_addresses_in L swaps ok) Hwalk Hhd Ha)
      as (tv & Hv & Hrtc).
    rewrite Hlast in Hv. congruence.
Qed.

End Failures.

(** ** The chosen path and the ratio along it *)

Section Conversion.
Import Py Calculation.

Variable L : Library.
Hypothesis ok : LibraryOk L.

(** When one walk is at most as long as every other walk between two
    nodes and is the only one of its length, it is the path chosen. *)
Lemma select_path_unique {E} (g : Rx.PyGraph E) (a b : nat)
  (p0 : list nat) :
  a <> b ->
  Rx.walk_between g a b p0 ->
  (forall p, Rx.walk_between g a b p -> length p <= length p0 -> p = p0) ->
  hd_error (set_of_path L (graph_all_shortest_paths L g a b)) = Some p0.
Proof.
  intros Hab Hp0 Huniq.
  assert (Hall : forall q, In q (graph_all_shortest_paths L g a b) -> q = p0).
  { intros q Hq. apply Huniq.
    - exact (asp_sound L ok E g a b q Hq).
    - exact (asp_shortest L ok E g a b q p0 Hq Hp0). }
  destruct (set_of_path L (graph_all_shortest_paths L g a b))
    as [|x l] eqn:Eset.
  - exfalso.
    destruct (graph_all_shortest_paths L g a b) as [|q qs] eqn:Easp.
    + exact (asp_complete L ok E g a b p0 Hab Hp0 Easp).
    + assert (Hq : In q (set_of_path L (q :: qs)))
        by (apply (set_of_path_in L ok); now left).
      rewrite Eset in Hq. destruct Hq.
  - cbn [hd_error]. f_equal. apply Hall.
    apply (set_of_path_in L ok). rewrite Eset. now left.
Qed.

(** When every edge between two nodes carries the same record, that is
    the record [get_edge_data] gives. *)
Lemma get_edge_data_unique {E} (g : Rx.PyGraph E) (u v : nat) (w : E) :
  Rx.adjacent g u v = true ->
  (forall a b w', In (a, b, w') (Rx.edges g) ->
                  Rx.joins u v (a, b, w') = true -> w' = w) ->
  get_edge_data L g u v = Some w.
Proof.
  intros Hadj Huniq.
  destruct (get_edge_data L g u v) as [w'|] eqn:Eget.
  - destruct (edge_data_sound L ok E g u v w' Eget) as (a & b & Hin & Hj).
    f_equal. exact (Huniq a b w' Hin Hj).
  - exfalso. exact (edge_data_complete L ok E g u v Hadj Eget).
Qed.

Lemma set_of_str_singleton (x : string) : set_of_str L [x] = [x].
Proof.
  pose proof (set_of_str_nodup L ok [x]) as Hnd.
  pose proof (set_of_str_in L ok [x]) as Hin.
  destruct (set_of_str L [x]) as [|y l].
  - exfalso. apply (proj2 (Hin x)). now left.
  - assert (Hy : y = x).
    { destruct (proj1 (Hin y) (or_introl eq_refl)) as [H|[]]. now symmetry. }
    subst y. f_equal. destruct l as [|z l]; [reflexivity|].
    exfalso. apply NoDup_cons_iff in Hnd as [Hnotin _]. apply Hnotin.
    destruct (proj1 (Hin z) (or_intror (or_introl eq_refl))) as [H|[]].
    subst z. now left.
Qed.

(** One turn of the loop when the record runs with the traversal... *)
Lemma step_forward (g : Rx.PyGraph SwapEvent) (ids : list string)
  (u v : nat) (total_ratio : num) (swap : SwapEvent) (r : spec_float) :
  get_edge_data L g u v = Some swap ->
  ratio swap = Returned r ->
  nth_error ids u = Some (from_token swap) ->
  nth_error ids v = Some (to_token swap) ->
  step L g ids u v total_ratio = mul total_ratio (PyFloat r).
Proof.
  intros Hget Hr Hu Hv. unfold step, token_of.
  rewrite Hget. cbn [of_option bind]. rewrite Hr. cbn [bind].
  rewrite Hu. cbn [of_option bind]. rewrite String.eqb_refl.
  rewrite Hv. cbn [of_option bind]. rewrite String.eqb_refl.
  reflexivity.
Qed.

(** ... and when it runs against it. *)
Lemma step_backward (g : Rx.PyGraph SwapEvent) (ids : list string)
  (u v : nat) (total_ratio : num) (swap : SwapEvent) (r : spec_float) :
  get_edge_data L g u v = Some swap ->
  ratio swap = Returned r ->
  nth_error ids u = Some (to_token swap) ->
  nth_error ids v = Some (from_token swap) ->
  from_token swap <> to_token swap ->
  step L g ids u v total_ratio = truediv total_ratio (PyFloat r).
Proof.
  intros Hget Hr Hu Hv Hne. unfold step, step_reversed, token_of.
  rewrite Hget. cbn [of_option bind]. rewrite Hr. cbn [bind].
  rewrite Hu. cbn [of_option bind].
  rewrite (proj2 (String.eqb_neq _ _) Hne).
  rewrite String.eqb_refl. rewrite Hv. cbn [of_option bind].
  rewrite String.eqb_refl. reflexivity.
Qed.

End Conversion.

(** ** One pool, one swap *)

Section EndToEnd.
Import Py Calculation.

Variable L : Library.
Hypothesis ok : LibraryOk L.

Lemma get_swaps_single (w : world) (lo hi : Z) (log : Node.log)
  (a0 a1 : Z) (rest t0 t1 : string) (bn li : N) :
  raw_swap_logs w lo hi = Returned [log] ->
  pool_tokens w (Node.log_address log) = Returned [t0; t1] ->
  (- 2 ^ 255 <= a0 < 2 ^ 255)%Z ->
  (- 2 ^ 255 <= a1 < 2 ^ 255)%Z ->
  Node.log_data log = Abi.swap_data a0 a1 rest ->
  int16 L (Node.log_blockNumber log) = Some bn ->
  int16 L (Node.log_logIndex log) = Some li ->
  get_swaps L w lo hi
  = Returned [ {| block_number := bn;
                  transaction_hash := Node.log_transactionHash log;
                  log_index := li;
                  address := lower (Node.log_address log);
                  from_token := lower t0;
                  to_token := lower t1;
                  from_amount := Z.abs a0;
                  to_amount := Z.abs a1 |} ].
Proof.
  intros Hlogs Hpool H0 H1 Hdata Hbn Hli. unfold get_swaps.
  rewrite Hlogs. cbn [bind map]. rewrite (set_of_str_singleton L ok).
  cbn [map gather]. rewrite Hpool. cbn [bind combine parse_logs].
  rewrite (parse_log_swap_data L _ log a0 a1 rest t0 t1 bn li);
    try assumption.
  - reflexivity.
  - cbn [lookup_pool]. now rewrite String.eqb_refl.
Qed.

Lemma ratio_2000_1000 : int_truediv 2000 1000 = Returned (decimal 20 (-1)).
Proof. reflexivity. Qed.

Lemma mul_1_by_2 :
  mul (PyInt 1) (PyFloat (decimal 20 (-1)))
  = Returned (PyFloat (decimal 20 (-1))).
Proof. reflexivity. Qed.

Lemma scale_2_18_18 :
  scale (PyFloat (decimal 20 (-1))) 18 18
  = Returned (PyFloat (decimal 20 (-1))).
Proof. vm_compute. reflexivity. Qed.

(** Two nodes joined by one edge: the only shortest walk. *)
Lemma single_edge_walk {E} (a b : nat) (ns : list nat) (e : E) :
  a <> b ->
  let g := {| Rx.nodes := ns; Rx.edges := [(a, b, e)] |} in
  Rx.walk_between g a b [a; b] /\
  (forall p, Rx.walk_between g a b p -> length p <= 2 -> p = [a; b]) /\
  get_edge_data L g a b = Some e.
Proof.
  intros Hab g.
  assert (Hadj : Rx.adjacent g a b = true).
  { unfold Rx.adjacent. cbn [g Rx.edges existsb Rx.joins].
    now rewrite !Nat.eqb_refl. }
  split; [|split].
  - repeat split. cbn [Rx.is_walk]. now rewrite Hadj.
  - intros p (Hhd & Hlast & _) Hlen.
    destruct p as [|x [|y [|z p]]]; cbn in Hhd, Hlast, Hlen.
    + discriminate.
    + congruence.
    + congruence.
    + lia.
  - apply (get_edge_data_unique L ok g a b e Hadj).
    intros a' b' w' [Hin|[]] _. congruence.
Qed.

(** C1.  End-to-end: the block window holds one swap log, of a pool
    whose tokens are A and B, with amounts of magnitude 1000 and 2000;
    both tokens have 18 decimals.  Then converting A to B returns the
    rate 2.0 and the path from A to B. *)
Theorem end_to_end_single_swap (w : world) (tokenA tokenB : string)
  (blk : Z) (window : Z * Z) (log : Node.log) (a0 a1 : Z)
  (rest s0 s1 : string) (bn li : N) :
  lower tokenA <> lower tokenB ->
  block_window blk = Returned window ->
  raw_swap_logs w (fst window) (snd window) = Returned [log] ->
  pool_tokens w (Node.log_address log) = Returned [tokenA; tokenB] ->
  (Z.abs a0 = 1000 /\ Z.abs a1 = 2000)%Z ->
  Node.log_data log = Abi.swap_data a0 a1 rest ->
  int16 L (Node.log_blockNumber log) = Some bn ->
  int16 L (Node.log_logIndex log) = Some li ->
  token_decimals w (lower tokenA) = Returned 18%N ->
  token_decimals w (lower tokenB) = Returned 18%N ->
  token_symbol w (lower tokenA) = Returned s0 ->
  token_symbol w (lower tokenB) = Returned s1 ->
  get_token_conversion_rate L w tokenA tokenB blk
  = Returned {| conversion_rate := PyFloat (decimal 20 (-1));
                token0_decimals := 18;
                token1_decimals := 18;
                token0_symbol := parse_symbol s0;
                token1_symbol := parse_symbol s1;
                token_pair_path := [lower tokenA; lower tokenB] |}.
Proof.
  intros Hne Hwin Hlogs Hpool [Ha0 Ha1] Hdata Hbn Hli Hd0 Hd1 Hs0 Hs1.
  assert (Hswaps := get_swaps_single w _ _ log a0 a1 rest tokenA tokenB
                      bn li Hlogs Hpool ltac:(lia) ltac:(lia) Hdata Hbn Hli).
  rewrite Ha0, Ha1 in Hswaps.
  rewrite (conversion_unfold L w tokenA tokenB blk window _ Hwin Hswaps).
  rewrite (rate_from_swaps_unfold L ok). cbv zeta.
  set (swap := {| block_number := bn; from_amount := 1000 |}) in *.
  set (ids := token_addresses L [swap]).
  destruct (token_addresses_in L [swap] ok swap (or_introl eq_refl))
    as [HinA HinB].
  fold ids in HinA, HinB.
  destruct (index_of_In _ _ HinA) as [a Ha].
  destruct (index_of_In _ _ HinB) as [b Hb].
  cbn [swap from_token to_token] in Ha, Hb.
  assert (Hab : a <> b).
  { intros ->. apply Hne. exact (index_of_inj _ _ ids b Ha Hb). }
  rewrite Ha, Hb. cbn [of_option bind].
  assert (Hg : swap_graph ids [swap]
               = {| Rx.nodes := seq 0 (length ids);
                    Rx.edges := [(a, b, swap)] |}).
  { unfold swap_graph. cbn [map]. unfold swap_edge, id_of.
    cbn [swap from_token to_token]. now rewrite Ha, Hb. }
  rewrite Hg.
  destruct (single_edge_walk a b (seq 0 (length ids)) swap Hab)
    as (Hwalk & Huniq & Hget).
  rewrite (select_path_unique L ok _ a b [a; b] Hab Hwalk Huniq).
  cbn [of_option bind walk_path].
  apply index_of_Some in Ha, Hb.
  rewrite (step_forward L _ ids a b (PyInt 1) swap (decimal 20 (-1))
             Hget ratio_2000_1000 Ha Hb).
  rewrite mul_1_by_2. cbn [bind].
  rewrite Hd0, Hd1. cbn [bind]. rewrite scale_2_18_18. cbn [bind].
  rewrite Hs0, Hs1. cbn [bind path_tokens]. unfold token_of.
  rewrite Ha, Hb. reflexivity.
Qed.

End EndToEnd.

(** ** Direction of an edge *)

Section Direction.
Import Py Calculation.

Variable L : Library.
Hypothesis ok : LibraryOk L.

Ltac eqb_cases :=
  repeat match goal with
    | H : context [Nat.eqb ?x ?y] |- _ =>
        destruct (Nat.eqb_spec x y); cbn [andb orb] in H
    | |- context [Nat.eqb ?x ?y] =>
        destruct (Nat.eqb_spec x y); cbn [andb orb]
    end;
  try congruence.

Lemma truediv_2_by_half :
  truediv (PyFloat (decimal 20 (-1))) (PyFloat (decimal 5 (-1)))
  = Returned (PyFloat (decimal 40 (-1))).
Proof. reflexivity. Qed.

(** Three nodes, an edge added from [a] to [b] and one added from [c]
    to [b]: the only shortest walk from [a] to [c] goes through [b]. *)
Lemma two_hop_walk {E} (a b c : nat) (ns : list nat) (e1 e2 : E) :
  a <> b -> b <> c -> a <> c ->
  let g := {| Rx.nodes := ns; Rx.edges := [(a, b, e1); (c, b, e2)] |} in
  Rx.walk_between g a c [a; b; c] /\
  (forall p, Rx.walk_between g a c p -> length p <= 3 -> p = [a; b; c]) /\
  get_edge_data L g a b = Some e1 /\
  get_edge_data L g b c = Some e2.
Proof.
  intros Hab Hbc Hac g.
  assert (Hadj1 : Rx.adjacent g a b = true).
  { unfold Rx.adjacent. cbn [g Rx.edges existsb Rx.joins]. eqb_cases. }
  assert (Hadj2 : Rx.adjacent g b c = true).
  { unfold Rx.adjacent. cbn [g Rx.edges existsb Rx.joins]. eqb_cases. }
  split; [|split; [|split]].
  - repeat split. cbn [Rx.is_walk]. now rewrite Hadj1, Hadj2.
  - intros p (Hhd & Hlast & Hwalk) Hlen.
    destruct p as [|x [|y [|z [|t p]]]]; cbn in Hhd, Hlast, Hlen.
    + discriminate.
    + congruence.
    + exfalso. injection Hhd as ->. subst y.
      cbn [Rx.is_walk] in Hwalk. unfold Rx.adjacent in Hwalk.
      cbn [g Rx.edges existsb Rx.joins] in Hwalk. eqb_cases.
    + injection Hhd as ->. subst z.
      cbn [Rx.is_walk] in Hwalk. unfold Rx.adjacent in Hwalk.
      cbn [g Rx.edges existsb Rx.joins] in Hwalk.
      destruct (Nat.eq_dec y b) as [->|Hyb]; [reflexivity|].
      exfalso. eqb_cases.
    + lia.
  - apply (get_edge_data_unique L ok g a b e1 Hadj1).
    intros a' b' w' [Hin|[Hin|[]]] Hj; injection Hin as <- <- <-;
      [reflexivity|]. exfalso. cbn [Rx.joins] in Hj. eqb_cases.
  - apply (get_edge_data_unique L ok g b c e2 Hadj2).
    intros a' b' w' [Hin|[Hin|[]]] Hj; injection Hin as <- <- <-;
      [|reflexivity]. exfalso. cbn [Rx.joins] in Hj. eqb_cases.
Qed.

(** C2.  Direction-aware aggregation: at the edge from [u] to [v] of the
    path the running ratio is multiplied by the ratio of the edge's
    record when the record goes from [u]'s token to [v]'s token, and
    divided by it when the record goes the other way.  In particular,
    with a swap from A to B of ratio 2.0 and a swap from C to B of ratio
    0.5, the path chosen from A to C is A, B, C and the ratio along it is
    2.0 / 0.5 = 4.0. *)
Theorem direction_aware_aggregation :
  (forall g ids u v rest total_ratio swap r,
     get_edge_data L g u v = Some swap ->
     ratio swap = Returned r ->
     nth_error ids u = Some (from_token swap) ->
     nth_error ids v = Some (to_token swap) ->
     walk_path L g ids (u :: v :: rest) total_ratio
     = (let? t := mul total_ratio (PyFloat r) in
        walk_path L g ids (v :: rest) t)) /\
  (forall g ids u v rest total_ratio swap r,
     get_edge_data L g u v = Some swap ->
     ratio swap = Returned r ->
     nth_error ids u = Some (to_token swap) ->
     nth_error ids v = Some (from_token swap) ->
     from_token swap <> to_token swap ->
     walk_path L g ids (u :: v :: rest) total_ratio
     = (let? t := truediv total_ratio (PyFloat r) in
        walk_path L g ids (v :: rest) t)) /\
  (forall (s1 s2 : SwapEvent) (tokenA tokenB tokenC : string),
     tokenA <> tokenB -> tokenB <> tokenC -> tokenA <> tokenC ->
     from_token s1 = tokenA -> to_token s1 = tokenB ->
     from_token s2 = tokenC -> to_token s2 = tokenB ->
     ratio s1 = Returned (decimal 20 (-1)) ->
     ratio s2 = Returned (decimal 5 (-1)) ->
     let ids := token_addresses L [s1; s2] in
     exists g a b c,
       build_graph ids [s1; s2] = Returned g /\
       index_of tokenA ids = Some a /\
       index_of tokenB ids = Some b /\
       index_of tokenC ids = Some c /\
       hd_error (set_of_path L (graph_all_shortest_paths L g a c))
         = Some [a; b; c] /\
       walk_path L g ids [a; b; c] (PyInt 1)
         = Returned (PyFloat (decimal 40 (-1)))).
Proof.
  split; [|split].
  - intros g ids u v rest total_ratio swap r Hget Hr Hu Hv.
    cbn [walk_path].
    now rewrite (step_forward L g ids u v total_ratio swap r Hget Hr Hu Hv).
  - intros g ids u v rest total_ratio swap r Hget Hr Hu Hv Hne.
    cbn [walk_path].
    now rewrite (step_backward L g ids u v total_ratio swap r
                   Hget Hr Hu Hv Hne).
  - intros s1 s2 tokenA tokenB tokenC HAB HBC HAC Hf1 Ht1 Hf2 Ht2 Hr1 Hr2
           ids.
    destruct (token_addresses_in L [s1; s2] ok s1 (or_introl eq_refl))
      as [HinA HinB].
    destruct (token_addresses_in L [s1; s2] ok s2
                (or_intror (or_introl eq_refl))) as [HinC _].
    fold ids in HinA, HinB, HinC. rewrite Hf1 in HinA.
    rewrite Ht1 in HinB. rewrite Hf2 in HinC.
    destruct (index_of_In _ _ HinA) as [a Ha].
    destruct (index_of_In _ _ HinB) as [b Hb].
    destruct (index_of_In _ _ HinC) as [c Hc].
    assert (Hab : a <> b)
      by (intros ->; exact (HAB (index_of_inj _ _ ids b Ha Hb))).
    assert (Hbc : b <> c)
      by (intros ->; exact (HBC (index_of_inj _ _ ids c Hb Hc))).
    assert (Hac : a <> c)
      by (intros ->; exact (HAC (index_of_inj _ _ ids c Ha Hc))).
    exists {| Rx.nodes := seq 0 (length ids);
              Rx.edges := [(a, b, s1); (c, b, s2)] |}, a, b, c.
    destruct (two_hop_walk a b c (seq 0 (length ids)) s1 s2 Hab Hbc Hac)
      as (Hwalk & Huniq & Hget1 & Hget2).
    split; [|split; [|split; [|split; [|split]]]]; try assumption.
    + unfold ids. rewrite (build_graph_spec L [s1; s2] ok). fold ids.
      unfold swap_graph. cbn [map]. unfold swap_edge, id_of.
      now rewrite Hf1, Ht1, Hf2, Ht2, Ha, Hb, Hc.
    + exact (select_path_unique L ok _ a c [a; b; c] Hac Hwalk Huniq).
    + apply index_of_Some in Ha, Hb, Hc.
      cbn [walk_path].
      rewrite (step_forward L _ ids a b (PyInt 1) s1 (decimal 20 (-1))
                 Hget1 Hr1) by congruence.
      rewrite mul_1_by_2. cbn [bind].
      rewrite (step_backward L _ ids b c _ s2 (decimal 5 (-1)) Hget2 Hr2)
        by congruence.
      rewrite truediv_2_by_half. reflexivity.
Qed.

End Direction.

(** ** The reference library meets the contract *)

Section Walks.
Context {E : Type}.
Variable g : Rx.PyGraph E.

Lemma joins_sym (u v : nat) (e : nat * nat * E) :
  Rx.joins u v e = Rx.joins v u e.
Proof. destruct e as [[a b] w]. cbn [Rx.joins]. apply orb_comm. Qed.

Lemma adjacent_sym (u v : nat) : Rx.adjacent g u v = Rx.adjacent g v u.
Proof.
  unfold Rx.adjacent. induction (Rx.edges g) as [|e l IH]; [reflexivity|].
  cbn [existsb]. now rewrite IH, joins_sym.
Qed.

Lemma neighbours_adjacent (u n : nat) :
  In n (RefLib.neighbours g u) <-> Rx.adjacent g n u = true.
Proof.
  unfold RefLib.neighbours, Rx.adjacent.
  rewrite in_flat_map, existsb_exists.
  split; intros ([[a b] w] & Hin & H); exists (a, b, w);
    (split; [exact Hin|]); cbn [Rx.joins] in *.
  - apply in_app_or in H as [H|H].
    + destruct (Nat.eqb_spec a u); [|destruct H].
      destruct H as [->|[]]. subst a.
      rewrite !Nat.eqb_refl. now rewrite orb_true_r.
    + destruct (Nat.eqb_spec b u); [|destruct H].
      destruct H as [->|[]]. subst b. now rewrite !Nat.eqb_refl.
  - apply in_or_app. apply orb_prop in H as [H|H];
      apply andb_prop in H as [H1 H2]; apply Nat.eqb_eq in H1, H2; subst.
    + right. rewrite Nat.eqb_refl. now left.
    + left. rewrite Nat.eqb_refl. now left.
Qed.

Lemma is_walk_app (l1 : list nat) (x : nat) (l2 : list nat) :
  Rx.is_walk g (l1 ++ x :: l2)
  = Rx.is_walk g (l1 ++ [x]) && Rx.is_walk g (x :: l2).
Proof.
  induction l1 as [|y l1 IH]; [reflexivity|].
  destruct l1 as [|z l1].
  - cbn [app Rx.is_walk]. now rewrite andb_true_r.
  - change (Rx.adjacent g y z && Rx.is_walk g ((z :: l1) ++ x :: l2)
            = Rx.adjacent g y z && Rx.is_walk g ((z :: l1) ++ [x])
              && Rx.is_walk g (x :: l2)).
    rewrite IH. now rewrite andb_assoc.
Qed.

Lemma is_walk_rev (p : list nat) : Rx.is_walk g (rev p) = Rx.is_walk g p.
Proof.
  induction p as [|x p IH]; [reflexivity|].
  destruct p as [|y p]; [reflexivity|].
  change (rev (x :: y :: p)) with ((rev p ++ [y]) ++ [x]).
  rewrite <- app_assoc. cbn [app].
  rewrite is_walk_app.
  change (rev p ++ [y]) with (rev (y :: p)). rewrite IH.
  cbn [Rx.is_walk]. rewrite andb_true_r, (adjacent_sym y x).
  apply andb_comm.
Qed.

Lemma last_app_cons (l : list nat) (x : nat) (m : list nat) (d : nat) :
  List.last (l ++ x :: m) d = List.last (x :: m) d.
Proof.
  induction l as [|y l IH]; [reflexivity|].
  destruct l as [|z l]; exact IH.
Qed.

Lemma hd_error_rev (w : list nat) (d : nat) :
  w <> [] -> hd_error (rev w) = Some (List.last w d).
Proof.
  induction w as [|x w IH]; intros Hne; [congruence|].
  destruct w as [|y w]; [reflexivity|].
  change (rev (x :: y :: w)) with (rev (y :: w) ++ [x]).
  change (List.last (x :: y :: w) d) with (List.last (y :: w) d).
  rewrite <- IH by discriminate.
  destruct (rev (y :: w)) as [|z r] eqn:Er; [|reflexivity].
  apply (f_equal (@length nat)) in Er. rewrite length_rev in Er.
  discriminate.
Qed.

Lemma last_rev (w : list nat) (x d : nat) :
  hd_error w = Some x -> List.last (rev w) d = x.
Proof.
  destruct w as [|y w]; intros H; [discriminate|].
  injection H as ->. cbn [rev]. apply last_last.
Qed.

Lemma layer_sound (s k : nat) (w : list nat) :
  In w (RefLib.layer g s k) -> RefLib.rwalk g s k w.
Proof.
  revert w. induction k as [|k IH]; intros w Hw.
  - destruct Hw as [<-|[]]. repeat split.
  - cbn [RefLib.layer] in Hw. unfold RefLib.extend in Hw.
    apply in_flat_map in Hw as (w' & Hw' & Hin).
    destruct (IH w' Hw') as (Hlen & Hlast & Hwalk).
    destruct w' as [|x w']; [destruct Hin|].
    apply in_map_iff in Hin as (n & <- & Hn).
    apply neighbours_adjacent in Hn.
    repeat split.
    + cbn [length] in *. lia.
    + exact Hlast.
    + change (Rx.adjacent g n x && Rx.is_walk g (x :: w') = true).
      now rewrite Hn, Hwalk.
Qed.

Lemma layer_complete (s k : nat) (w : list nat) :
  RefLib.rwalk g s k w -> In w (RefLib.layer g s k).
Proof.
  revert w. induction k as [|k IH]; intros w (Hlen & Hlast & Hwalk).
  - destruct w as [|x [|y w]]; try discriminate.
    cbn in Hlast. subst x. now left.
  - destruct w as [|n [|x w]]; try discriminate.
    cbn [RefLib.layer]. unfold RefLib.extend. apply in_flat_map.
    exists (x :: w).
    change (Rx.adjacent g n x && Rx.is_walk g (x :: w) = true) in Hwalk.
    apply andb_prop in Hwalk as [Hadj Hwalk]. split.
    + apply IH. repeat split; [cbn [length] in *; lia | exact Hlast
                               | exact Hwalk].
    + apply in_map_iff. exists n. split; [reflexivity|].
      now apply neighbours_adjacent.
Qed.

End Walks.

Section Search.
Context {E : Type}.
Variable g : Rx.PyGraph E.

Lemma search_hit (t fuel : nat) (ws : list (list nat)) :
  List.filter (RefLib.reaches t) ws <> [] ->
  RefLib.search g t fuel ws
  = map (@rev nat) (List.filter (RefLib.reaches t) ws).
Proof.
  intros H. destruct fuel; cbn [RefLib.search];
    destruct (List.filter (RefLib.reaches t) ws); congruence.
Qed.

Lemma search_miss (t fuel : nat) (ws : list (list nat)) :
  List.filter (RefLib.reaches t) ws = [] ->
  RefLib.search g t fuel ws
  = match fuel with
    | O => []
    | S fuel' => RefLib.search g t fuel' (RefLib.extend g ws)
    end.
Proof. intros H. destruct fuel; cbn [RefLib.search]; now rewrite H. Qed.

Lemma search_spec (s t fuel k : nat) :
  (exists j, k <= j <= k + fuel /\ RefLib.hits g s t j <> [] /\
             (forall i, k <= i < j -> RefLib.hits g s t i = []) /\
             RefLib.search g t fuel (RefLib.layer g s k)
             = map (@rev nat) (RefLib.hits g s t j)) \/
  ((forall i, k <= i <= k + fuel -> RefLib.hits g s t i = []) /\
   RefLib.search g t fuel (RefLib.layer g s k) = []).
Proof.
  revert k. induction fuel as [|fuel IH]; intros k.
  - destruct (RefLib.hits g s t k) as [|x l] eqn:Eh.
    + right. split.
      * intros i Hi. replace i with k by lia. exact Eh.
      * now rewrite search_miss.
    + left. exists k. repeat split; try lia.
      * congruence.
      * unfold RefLib.hits in Eh. rewrite search_hit by congruence. reflexivity.
  - destruct (RefLib.hits g s t k) as [|x l] eqn:Eh.
    + rewrite search_miss by exact Eh.
      change (RefLib.extend g (RefLib.layer g s k))
        with (RefLib.layer g s (S k)).
      destruct (IH (S k)) as [(j & Hj & Hne & Hbefore & Hres)|[Hall Hres]].
      * left. exists j. repeat split; try lia; try assumption.
        intros i Hi. destruct (Nat.eq_dec i k) as [->|Hik];
          [exact Eh | apply Hbefore; lia].
      * right. split; [|exact Hres].
        intros i Hi. destruct (Nat.eq_dec i k) as [->|Hik];
          [exact Eh | apply Hall; lia].
    + left. exists k. repeat split; try lia.
      * congruence.
      * unfold RefLib.hits in Eh. rewrite search_hit by congruence. reflexivity.
Qed.

(** A walk from [s] to [t], reversed, is among the hits of its length. *)
Lemma walk_in_hits (s t : nat) (q : list nat) :
  Rx.walk_between g s t q -> In (rev q) (RefLib.hits g s t (length q - 1)).
Proof.
  intros (Hhd & Hlast & Hwalk). destruct q as [|x q]; [discriminate|].
  unfold RefLib.hits. apply filter_In. split.
  - apply layer_complete. repeat split.
    + rewrite length_rev. cbn [length]. lia.
    + now apply last_rev.
    + now rewrite is_walk_rev.
  - pose proof (hd_error_rev (x :: q) s ltac:(discriminate)) as Hh.
    rewrite Hlast in Hh.
    destruct (rev (x :: q)) as [|y r]; [discriminate|].
    injection Hh as ->. cbn [RefLib.reaches]. apply Nat.eqb_refl.
Qed.

Lemma hit_is_walk (s t k : nat) (w : list nat) :
  In w (RefLib.hits g s t k) ->
  Rx.walk_between g s t (rev w) /\ length (rev w) = S k.
Proof.
  intros Hw. unfold RefLib.hits in Hw. apply filter_In in Hw as [Hw Hreach].
  destruct (layer_sound g s k w Hw) as (Hlen & Hlast & Hwalk).
  destruct w as [|x w]; [discriminate|].
  cbn [RefLib.reaches] in Hreach. apply Nat.eqb_eq in Hreach. subst x.
  repeat split.
  - rewrite (hd_error_rev (t :: w) s) by discriminate. now rewrite Hlast.
  - now apply last_rev.
  - now rewrite is_walk_rev.
  - now rewrite length_rev.
Qed.

Lemma length_endpoints :
  length (RefLib.endpoints g) = 2 * length (Rx.edges g).
Proof.
  unfold RefLib.endpoints. induction (Rx.edges g) as [|[[a b] w] l IH];
    [reflexivity|]. cbn [flat_map app length]. rewrite IH. lia.
Qed.

Lemma adjacent_endpoints (u v : nat) :
  Rx.adjacent g u v = true ->
  In u (RefLib.endpoints g) /\ In v (RefLib.endpoints g).
Proof.
  unfold Rx.adjacent, RefLib.endpoints. intros H.
  apply existsb_exists in H as ([[a b] w] & Hin & Hj).
  cbn [Rx.joins] in Hj.
  split; apply in_flat_map; exists (a, b, w); (split; [exact Hin|]);
    apply orb_prop in Hj as [Hj|Hj]; apply andb_prop in Hj as [H1 H2];
    apply Nat.eqb_eq in H1, H2; subst; cbn [In]; tauto.
Qed.

Lemma walk_nodes_endpoints (p : list nat) :
  2 <= length p -> Rx.is_walk g p = true -> incl p (RefLib.endpoints g).
Proof.
  induction p as [|x p IH]; intros Hlen Hwalk; [cbn in Hlen; lia|].
  destruct p as [|y p]; [cbn in Hlen; lia|].
  change (Rx.adjacent g x y && Rx.is_walk g (y :: p) = true) in Hwalk.
  apply andb_prop in Hwalk as [Hadj Hwalk].
  destruct (adjacent_endpoints x y Hadj) as [Hx Hy].
  intros n [<-|Hn]; [exact Hx|].
  destruct p as [|z p].
  - destruct Hn as [<-|[]]. exact Hy.
  - apply IH; [cbn [length]; lia | exact Hwalk | exact Hn].
Qed.

(** Cutting the loops out of a walk. *)
Lemma walk_nodup (s t : nat) (q : list nat) :
  Rx.walk_between g s t q ->
  exists q', Rx.walk_between g s t q' /\ List.NoDup q'.
Proof.
  remember (length q) as n eqn:Hn. revert q Hn.
  induction n as [n IH] using lt_wf_ind. intros q Hn Hq.
  destruct (NoDup_decidable Nat.eq_decidable q) as [Hnd|Hdup].
  - now exists q.
  - apply (not_NoDup Nat.eq_decidable) in Hdup
      as (a & l1 & l2 & l3 & ->).
    destruct Hq as (Hhd & Hlast & Hwalk).
    apply (IH (length (l1 ++ a :: l3))) with (q := l1 ++ a :: l3).
    + subst n. rewrite !length_app. cbn [length].
      rewrite length_app. cbn [length]. lia.
    + reflexivity.
    + repeat split.
      * destruct l1; exact Hhd.
      * rewrite last_app_cons in Hlast |- *.
        change (a :: l2 ++ a :: l3) with ((a :: l2) ++ a :: l3) in Hlast.
        now rewrite last_app_cons in Hlast.
      * rewrite is_walk_app in Hwalk |- *.
        apply andb_prop in Hwalk as [H1 H2].
        change (a :: l2 ++ a :: l3) with ((a :: l2) ++ a :: l3) in H2.
        rewrite is_walk_app in H2. apply andb_prop in H2 as [_ H3].
        now rewrite H1, H3.
Qed.

End Search.

Section ReferenceLibrary.

Lemma ref_all_shortest_paths_cases {E} (g : Rx.PyGraph E) (s t : nat) :
  s <> t ->
  let fuel := 2 * length (Rx.edges g) in
  (exists j, j <= fuel /\ RefLib.hits g s t j <> [] /\
             (forall i, i < j -> RefLib.hits g s t i = []) /\
             RefLib.all_shortest_paths g s t
             = map (@rev nat) (RefLib.hits g s t j)) \/
  ((forall i, i <= fuel -> RefLib.hits g s t i = []) /\
   RefLib.all_shortest_paths g s t = []).
Proof.
  intros Hst fuel. unfold RefLib.all_shortest_paths.
  rewrite (proj2 (Nat.eqb_neq s t) Hst).
  change [[s]] with (RefLib.layer g s 0). fold fuel.
  destruct (search_spec g s t fuel 0)
    as [(j & Hj & Hne & Hbefore & Hres)|[Hall Hres]].
  - left. exists j. repeat split; try assumption; try lia.
    intros i Hi. apply Hbefore. lia.
  - right. split; [|exact Hres]. intros i Hi. apply Hall. lia.
Qed.

Lemma ref_asp_sound {E} (g : Rx.PyGraph E) (s t : nat) (p : list nat) :
  In p (RefLib.all_shortest_paths g s t) -> Rx.walk_between g s t p.
Proof.
  intros Hp. destruct (Nat.eq_dec s t) as [->|Hst].
  - unfold RefLib.all_shortest_paths in Hp.
    rewrite Nat.eqb_refl in Hp. destruct Hp.
  - destruct (ref_all_shortest_paths_cases g s t Hst)
      as [(j & _ & _ & _ & Hres)|[_ Hres]]; rewrite Hres in Hp.
    + apply in_map_iff in Hp as (w & <- & Hw).
      exact (proj1 (hit_is_walk g s t j w Hw)).
    + destruct Hp.
Qed.

Lemma ref_asp_shortest {E} (g : Rx.PyGraph E) (s t : nat)
  (p q : list nat) :
  In p (RefLib.all_shortest_paths g s t) ->
  Rx.walk_between g s t q -> length p <= length q.
Proof.
  intros Hp Hq. destruct (Nat.eq_dec s t) as [->|Hst].
  - unfold RefLib.all_shortest_paths in Hp.
    rewrite Nat.eqb_refl in Hp. destruct Hp.
  - destruct (ref_all_shortest_paths_cases g s t Hst)
      as [(j & _ & _ & Hbefore & Hres)|[_ Hres]]; rewrite Hres in Hp.
    + apply in_map_iff in Hp as (w & <- & Hw).
      rewrite (proj2 (hit_is_walk g s t j w Hw)).
      pose proof (walk_in_hits g s t q Hq) as Hin.
      destruct q as [|x q]; [destruct Hq; discriminate|].
      destruct (Nat.lt_ge_cases (length (x :: q) - 1) j) as [Hlt|Hge].
      * rewrite (Hbefore _ Hlt) in Hin. destruct Hin.
      * cbn [length] in *. lia.
    + destruct Hp.
Qed.

Lemma ref_asp_complete {E} (g : Rx.PyGraph E) (s t : nat) (q : list nat) :
  s <> t -> Rx.walk_between g s t q ->
  RefLib.all_shortest_paths g s t <> [].
Proof.
  intros Hst Hq Hnil.
  destruct (ref_all_shortest_paths_cases g s t Hst)
    as [(j & _ & Hne & _ & Hres)|[Hall _]].
  - rewrite Hres in Hnil. apply map_eq_nil in Hnil. contradiction.
  - destruct (walk_nodup g s t q Hq) as (q' & Hq' & Hnd).
    pose proof (walk_in_hits g s t q' Hq') as Hin.
    destruct Hq' as (Hhd & Hlast & Hwalk).
    destruct q' as [|x [|y q']]; [discriminate | cbn in *; congruence |].
    assert (Hlen : length (x :: y :: q') <= 2 * length (Rx.edges g)).
    { rewrite <- (length_endpoints g). apply NoDup_incl_length; [exact Hnd|].
      apply walk_nodes_endpoints; [cbn [length]; lia | exact Hwalk]. }
    rewrite Hall in Hin by lia. destruct Hin.
Qed.

Lemma ref_edge_data_sound {E} (g : Rx.PyGraph E) (u v : nat) (w : E) :
  RefLib.edge_data g u v = Some w ->
  exists a b, In (a, b, w) (Rx.edges g) /\ Rx.joins u v (a, b, w) = true.
Proof.
  unfold RefLib.edge_data. intros H.
  destruct (find (Rx.joins u v) (Rx.edges g)) as [[[a b] w']|] eqn:Ef;
    [|discriminate].
  injection H as <-. apply find_some in Ef. now exists a, b.
Qed.

Lemma ref_edge_data_complete {E} (g : Rx.PyGraph E) (u v : nat) :
  Rx.adjacent g u v = true -> RefLib.edge_data g u v <> None.
Proof.
  unfold RefLib.edge_data, Rx.adjacent. intros H Hnone.
  apply existsb_exists in H as (e & Hin & Hj).
  destruct (find (Rx.joins u v) (Rx.edges g)) eqn:Ef; [discriminate|].
  rewrite (find_none _ _ Ef e Hin) in Hj. discriminate.
Qed.

(** The reference library is a library. *)
Lemma ref_lib_ok : LibraryOk RefLib.lib.
Proof.
  constructor; cbn [RefLib.lib graph_all_shortest_paths get_edge_data
                    set_of_str set_of_path].
  - intros E. exact (@ref_asp_sound E).
  - intros E. exact (@ref_asp_shortest E).
  - intros E. exact (@ref_asp_complete E).
  - intros E. exact (@ref_edge_data_sound E).
  - intros E. exact (@ref_edge_data_complete E).
  - intros l. apply NoDup_nodup.
  - intros l x. apply nodup_In.
  - intros l. apply NoDup_nodup.
  - intros l x. apply nodup_In.
Qed.

End ReferenceLibrary.

(** ** The theorems at work on the small chain *)

Section Witnesses.
Import Py Calculation Examples.

Lemma end_to_end_single_swap_witness :
  get_token_conversion_rate RefLib.lib one_pool token_A token_B 19577771
  = Returned {| conversion_rate := PyFloat (decimal 20 (-1));
                token0_decimals := 18;
                token1_decimals := 18;
                token0_symbol := "USDC";
                token1_symbol := "USDC";
                token_pair_path := ["0xaa"%string; "0xbb"%string] |}.
Proof.
  apply (end_to_end_single_swap RefLib.lib ref_lib_ok one_pool
           token_A token_B 19577771 (19577671, 19577871)%Z log_AB
           1000 (-2000) "00ff" "US DC" "US DC" 19577771 31);
    first [reflexivity | discriminate | split; reflexivity].
Defined.

Lemma direction_aware_aggregation_witness :
  let ids := token_addresses RefLib.lib [swap_AB; swap_CB] in
  exists g a b c,
    build_graph ids [swap_AB; swap_CB] = Returned g /\
    index_of "0xaa" ids = Some a /\
    index_of "0xbb" ids = Some b /\
    index_of "0xcc" ids = Some c /\
    hd_error (set_of_path RefLib.lib
                (graph_all_shortest_paths RefLib.lib g a c))
      = Some [a; b; c] /\
    walk_path RefLib.lib g ids [a; b; c] (PyInt 1)
      = Returned (PyFloat (decimal 40 (-1))).
Proof.
  apply (proj2 (proj2 (direction_aware_aggregation RefLib.lib ref_lib_ok))
           swap_AB swap_CB "0xaa" "0xbb" "0xcc");
    first [reflexivity | discriminate].
Defined.

Lemma missing_token_failure_witness :
  get_token_conversion_rate RefLib.lib one_pool token_C token_B 19577771
  = Raised (token0_not_found "0xcc") /\
  get_token_conversion_rate RefLib.lib one_pool token_A token_C 19577771
  = Raised (token1_not_found "0xcc").
Proof.
  split.
  - apply (proj1 (missing_token_failure RefLib.lib ref_lib_ok one_pool
                    token_C token_B 19577771 (19577671, 19577871)%Z
                    [swap_AB] eq_refl eq_refl)).
    intros (s & [<-|[]] & [H|H]); discriminate H.
  - apply (proj2 (missing_token_failure RefLib.lib ref_lib_ok one_pool
                    token_A token_C 19577771 (19577671, 19577871)%Z
                    [swap_AB] eq_refl eq_refl)).
    + exists swap_AB. split; [now left | now left].
    + intros (s & [<-|[]] & [H|H]); discriminate H.
Defined.

End Witnesses.

Section Islands.
Import Py Calculation Examples.

(** Two tokens on different sides of a cut that no swap crosses are not
    linked by any chain of swaps. *)
Lemma cut_separates (swaps : list SwapEvent) (side : string -> bool)
  (t0 t1 : string) :
  (forall s, In s swaps -> side (from_token s) = side (to_token s)) ->
  side t0 <> side t1 ->
  ~ rtc (linked swaps) t0 t1.
Proof.
  intros Hcut Hside Hrtc. apply Hside. clear Hside.
  induction Hrtc as [x | x y z (s & Hs & Hxy) _ IH]; [reflexivity|].
  rewrite <- IH. specialize (Hcut s Hs).
  destruct Hxy as [[<- <-]|[<- <-]]; congruence.
Qed.

Lemma disconnected_graph_failure_witness :
  get_token_conversion_rate RefLib.lib two_islands token_A token_C 19577771
  = Raised (no_swap_path "0xaa" "0xcc").
Proof.
  apply (disconnected_graph_failure RefLib.lib ref_lib_ok two_islands
           token_A token_C 19577771 (19577671, 19577871)%Z
           [swap_AB; swap_CD] eq_refl eq_refl).
  - exists swap_AB. split; [now left | now left].
  - exists swap_CD. split; [right; now left | now left].
  - apply (cut_separates _
             (fun x => String.eqb x "0xaa" || String.eqb x "0xbb")).
    + intros s [<-|[<-|[]]]; reflexivity.
    + discriminate.
Defined.

End Islands.

(** ** Decimal scaling, and a token converted to itself *)

Section Scaling.
Import Py Calculation.

(** An integer divided by itself is the double 1.0, whatever its size. *)
Lemma int_truediv_self (p : positive) :
  int_truediv (Zpos p) (Zpos p) = Returned (decimal 10 (-1)).
Proof.
  unfold int_truediv. cbn [Z.eqb Z2SF SFdiv].
  unfold SFdiv_core_binary.
  rewrite !Z.add_0_r, !Z.sub_diag.
  change (fexp prec emax 0) with (-53)%Z.
  change (Z.min (-53) 0) with (-53)%Z.
  change (0 - -53)%Z with 53%Z. cbv iota.
  rewrite Z.shiftl_mul_pow2 by lia.
  pose proof (Z.div_eucl_eq (Zpos p * 2 ^ 53) (Zpos p) ltac:(lia)) as Hdm.
  pose proof (Z.mod_pos_bound (Zpos p * 2 ^ 53) (Zpos p) ltac:(lia)) as Hb.
  unfold Z.modulo in Hb.
  destruct (Z.div_eucl (Zpos p * 2 ^ 53) (Zpos p)) as [q r].
  assert (Hq : (q = 2 ^ 53)%Z) by nia.
  subst q. assert (Hr : r = 0%Z) by lia. subst r.
  unfold new_location, new_location_even, new_location_odd.
  cbn [Z.eqb]. destruct (Z.even (Zpos p)); reflexivity.
Qed.

(** With equal decimals the integer ratio 1 scales to 1.0. *)
Lemma scale_one (d : N) :
  scale (PyInt 1) d d = Returned (PyFloat (decimal 10 (-1))).
Proof.
  unfold scale, pow10. cbn [mul bind truediv]. rewrite Z.mul_1_l.
  assert (H : (0 < 10 ^ Z.of_N d)%Z) by (apply Z.pow_pos_nonneg; lia).
  destruct (10 ^ Z.of_N d)%Z as [|p|p]; try lia.
  now rewrite int_truediv_self.
Qed.

(** The scaling can leave the range of a double: the ratio 1e60 with 255
    and 0 decimals scales to infinity, and scaling back with the
    decimals swapped leaves it there. *)
Remark scale_overflow :
  scale (PyFloat (decimal 1 60)) 255 0
  = Returned (PyFloat (S754_infinity false)) /\
  scale (PyFloat (S754_infinity false)) 0 255
  = Returned (PyFloat (S754_infinity false)).
Proof. split; vm_compute; reflexivity. Qed.

(** Within range it comes back: 2.0 with 18 and 6 decimals. *)
Remark scale_there_and_back :
  scale (PyFloat (decimal 20 (-1))) 18 6
  = Returned (PyFloat (decimal 2 12)) /\
  scale (PyFloat (decimal 2 12)) 6 18
  = Returned (PyFloat (decimal 20 (-1))).
Proof. split; vm_compute; reflexivity. Qed.

Variable L : Library.
Hypothesis ok : LibraryOk L.

Lemma set_of_path_singleton (p : list nat) : set_of_path L [p] = [p].
Proof.
  pose proof (set_of_path_nodup L ok [p]) as Hnd.
  pose proof (set_of_path_in L ok [p]) as Hin.
  destruct (set_of_path L [p]) as [|y l].
  - exfalso. apply (proj2 (Hin p)). now left.
  - assert (Hy : y = p).
    { destruct (proj1 (Hin y) (or_introl eq_refl)) as [H|[]]. now symmetry. }
    subst y. f_equal. destruct l as [|z l]; [reflexivity|].
    exfalso. apply NoDup_cons_iff in Hnd as [Hnotin _]. apply Hnotin.
    destruct (proj1 (Hin z) (or_intror (or_introl eq_refl))) as [H|[]].
    subst z. now left.
Qed.

(** What a conversion of a token into itself gives depends on what
    [graph_all_shortest_paths] answers for equal source and target,
    which the contract leaves open: with the one-node path the rate is
    1.0 and the path is the token alone ... *)
Lemma same_token_with_one_node_path (w : world) (swaps : list SwapEvent)
  (token : string) (a : nat) (d : N) (sym : string) :
  index_of token (token_addresses L swaps) = Some a ->
  graph_all_shortest_paths L
    (swap_graph (token_addresses L swaps) swaps) a a = [[a]] ->
  token_decimals w token = Returned d ->
  token_symbol w token = Returned sym ->
  rate_from_swaps L w swaps token token
  = Returned {| conversion_rate := PyFloat (decimal 10 (-1));
                token0_decimals := d;
                token1_decimals := d;
                token0_symbol := parse_symbol sym;
                token1_symbol := parse_symbol sym;
                token_pair_path := [token] |}.
Proof.
  intros Ha Hasp Hd Hsym.
  rewrite (rate_from_swaps_unfold L ok). cbv zeta.
  rewrite Ha. cbn [of_option bind]. rewrite Hasp, set_of_path_singleton.
  cbn [hd_error of_option bind walk_path]. rewrite Hd. cbn [bind].
  rewrite scale_one. cbn [bind]. rewrite Hsym. cbn [bind path_tokens].
  unfold token_of. rewrite (index_of_Some _ _ _ Ha). reflexivity.
Qed.

(** ... and with no path at all, the failure for a missing path. *)
Lemma same_token_without_path (w : world) (swaps : list SwapEvent)
  (token : string) (a : nat) :
  index_of token (token_addresses L swaps) = Some a ->
  graph_all_shortest_paths L
    (swap_graph (token_addresses L swaps) swaps) a a = [] ->
  rate_from_swaps L w swaps token token
  = Raised (no_swap_path token token).
Proof.
  intros Ha Hasp.
  rewrite (rate_from_swaps_unfold L ok). cbv zeta.
  rewrite Ha. cbn [of_option bind].
  rewrite Hasp, (set_of_path_nil L ok). reflexivity.
Qed.

End Scaling.

(* ================================================================== *)
(** * Further properties of the code                                   *)
(* ================================================================== *)

(** ** Symbols and addresses *)

Section Text.
Import Py Calculation Words.

Lemma remove_char_list (c : ascii) (s : string) :
  list_ascii_of_string (remove_char c s)
  = List.filter (fun x => negb (Ascii.eqb x c)) (list_ascii_of_string s).
Proof. unfold remove_char. apply list_ascii_of_string_of_list_ascii. Qed.

Lemma filter_filter {A} (p q : A -> bool) (l : list A) :
  List.filter q (List.filter p l) = List.filter (fun x => p x && q x) l.
Proof.
  induction l as [|x l IH]; [reflexivity|]. cbn [List.filter].
  destruct (p x); cbn [andb List.filter]; [destruct (q x)|]; now rewrite IH.
Qed.

Lemma fold_remove_char (cs : list ascii) (s : string) :
  list_ascii_of_string (fold_left (fun s c => remove_char c s) cs s)
  = List.filter (fun x => negb (existsb (Ascii.eqb x) cs))
                (list_ascii_of_string s).
Proof.
  revert s. induction cs as [|c cs IH]; intros s; cbn [fold_left existsb].
  - induction (list_ascii_of_string s) as [|x l IHl]; [reflexivity|].
    cbn [List.filter negb]. f_equal. exact IHl.
  - rewrite IH, remove_char_list, filter_filter.
    apply filter_ext. intros x. now rewrite negb_orb.
Qed.

(** X1.  [parse_symbol] keeps, in their order, exactly the characters
    that are not one of the control characters 0 to 9 or a space; so
    none of these is left in what it returns, and cleaning a cleaned
    symbol changes nothing. *)
Theorem parse_symbol_keeps_the_rest (symbol : string) :
  list_ascii_of_string (parse_symbol symbol)
  = List.filter (fun c => negb (replaced c)) (list_ascii_of_string symbol) /\
  (forall c, In c (list_ascii_of_string (parse_symbol symbol)) ->
             replaced c = false) /\
  parse_symbol (parse_symbol symbol) = parse_symbol symbol.
Proof.
  assert (H : forall s,
             list_ascii_of_string (parse_symbol s)
             = List.filter (fun c => negb (replaced c))
                           (list_ascii_of_string s)).
  { intros s. unfold parse_symbol. apply fold_remove_char. }
  split; [apply H | split].
  - intros c Hc. rewrite H in Hc. apply filter_In in Hc as [_ Hc].
    now apply negb_true_iff.
  - rewrite <- (string_of_list_ascii_of_string (parse_symbol symbol)) at 2.
    rewrite <- (string_of_list_ascii_of_string
                  (parse_symbol (parse_symbol symbol))).
    f_equal. rewrite (H (parse_symbol symbol)), H, filter_filter.
    apply filter_ext. intros c. now rewrite andb_diag.
Qed.

Lemma lower_ascii_idempotent (c : ascii) :
  lower_ascii (lower_ascii c) = lower_ascii c.
Proof. destruct c as [[] [] [] [] [] [] [] []]; reflexivity. Qed.

Lemma lower_idempotent (s : string) : lower (lower s) = lower s.
Proof.
  induction s as [|c s IH]; [reflexivity|].
  cbn [lower]. now rewrite lower_ascii_idempotent, IH.
Qed.

(** X2.  The conversion does not look at the case of the two addresses
    it is given: an address and its lower-case form give the same
    outcome, whatever the node and the cache answer. *)
Theorem conversion_ignores_case (L : Library) (w : world)
  (token0 token1 : string) (blk : Z) :
  get_token_conversion_rate L w (lower token0) (lower token1) blk
  = get_token_conversion_rate L w token0 token1 blk.
Proof.
  unfold get_token_conversion_rate. now rewrite !lower_idempotent.
Qed.

End Text.

(** ** The cache and the resolvers on it *)

Section CacheProperties.
Import Py Calculation.

Lemma split_comma_aux_concat (s cur : string) :
  String.concat "," (split_comma_aux s cur) = cur +:+ s.
Proof.
  revert cur. induction s as [|c s IH]; intros cur.
  - cbn [split_comma_aux String.concat]. now rewrite append_empty_r.
  - cbn [split_comma_aux]. destruct (Ascii.eqb_spec c ","%char) as [->|Hc].
    + specialize (IH EmptyString).
      destruct (split_comma_aux s "") as [|x l] eqn:E.
      * destruct s; cbn in E; [discriminate|].
        destruct (Ascii.eqb a ","); discriminate.
      * change (String.concat "," (cur :: x :: l))
          with (cur +:+ "," +:+ String.concat "," (x :: l)).
        rewrite IH. reflexivity.
    + rewrite IH. apply append_snoc.
Qed.

(** Joining what [split(",")] gives is the text that was split. *)
Lemma split_comma_two (v t0 t1 : string) :
  split_comma v = [t0; t1] -> v = t0 +:+ "," +:+ t1.
Proof.
  intros H. pose proof (split_comma_aux_concat v EmptyString) as Hc.
  fold (split_comma v) in Hc. rewrite H in Hc. cbn in Hc. now symmetry.
Qed.

Lemma split_comma_no_comma (v : string) :
  no_comma v = true -> split_comma v = [v].
Proof.
  intros H. unfold split_comma.
  rewrite <- (append_empty_r v) at 1.
  now rewrite split_comma_aux_no_comma.
Qed.

(** X3.  What is written to the cache is what is read back: decimals
    through their decimal text, a symbol as it is, and a pool pair
    through the comma-joined text of its first two items, which reads
    back as the pair when neither address holds a comma. *)
Theorem cache_round_trip (c : Cache.t) (adr t0 t1 sym : string) (d : N)
  (more : list string) :
  no_comma t0 = true -> no_comma t1 = true ->
  Cache.get_token_decimals (Cache.set_token_decimals c adr d) adr
    = Returned (Some d) /\
  Cache.get_token_symbol (Cache.set_token_symbol c adr sym) adr
    = Some sym /\
  exists c', Cache.set_pool_pair c adr (t0 :: t1 :: more) = Returned c' /\
             Cache.get_pool_pair c' adr = Some [t0; t1].
Proof.
  intros H0 H1. split; [|split].
  - unfold Cache.get_token_decimals, Cache.set_token_decimals.
    cbn [Cache.token_decimals_db]. rewrite lookup_insert_eq.
    now rewrite int_of_str_of_N.
  - unfold Cache.get_token_symbol, Cache.set_token_symbol.
    cbn [Cache.token_symbols_db]. apply lookup_insert_eq.
  - eexists. split; [reflexivity|].
    unfold Cache.get_pool_pair. cbn [Cache.pool_address_redis].
    rewrite lookup_insert_eq. cbn [option_map].
    now rewrite split_comma_join.
Qed.

Lemma cache_round_trip_witness :
  Cache.get_token_decimals (Cache.set_token_decimals Cache.empty "0xa" 18)
                           "0xa" = Returned (Some 18%N) /\
  Cache.get_token_symbol (Cache.set_token_symbol Cache.empty "0xa" "DAI")
                         "0xa" = Some "DAI"%string /\
  exists c',
    Cache.set_pool_pair Cache.empty "0xa"
      ["0xb"%string; "0xc"%string; "0xd"%string] = Returned c' /\
    Cache.get_pool_pair c' "0xa" = Some ["0xb"%string; "0xc"%string].
Proof.
  apply (cache_round_trip Cache.empty "0xa" "0xb" "0xc" "DAI" 18
           ["0xd"%string]); reflexivity.
Defined.

(** X4.  A write to the cache is local: it changes what is read under
    no other key, and nothing in the two other databases. *)
Theorem cache_writes_are_local (c : Cache.t) (adr other any : string)
  (d : N) (sym : string) (tokens : list string) (c' : Cache.t) :
  adr <> other ->
  Cache.set_pool_pair c adr tokens = Returned c' ->
  (Cache.get_token_decimals (Cache.set_token_decimals c adr d) other
     = Cache.get_token_decimals c other /\
   Cache.get_token_symbol (Cache.set_token_decimals c adr d) any
     = Cache.get_token_symbol c any /\
   Cache.get_pool_pair (Cache.set_token_decimals c adr d) any
     = Cache.get_pool_pair c any) /\
  (Cache.get_token_symbol (Cache.set_token_symbol c adr sym) other
     = Cache.get_token_symbol c other /\
   Cache.get_token_decimals (Cache.set_token_symbol c adr sym) any
     = Cache.get_token_decimals c any /\
   Cache.get_pool_pair (Cache.set_token_symbol c adr sym) any
     = Cache.get_pool_pair c any) /\
  (Cache.get_pool_pair c' other = Cache.get_pool_pair c other /\
   Cache.get_token_decimals c' any = Cache.get_token_decimals c any /\
   Cache.get_token_symbol c' any = Cache.get_token_symbol c any).
Proof.
  intros Hne Hset.
  unfold Cache.set_pool_pair in Hset.
  destruct tokens as [|t0 [|t1 more]]; try discriminate.
  injection Hset as <-.
  unfold Cache.get_token_decimals, Cache.get_token_symbol,
    Cache.get_pool_pair, Cache.set_token_decimals, Cache.set_token_symbol.
  cbn [Cache.token_decimals_db Cache.token_symbols_db
       Cache.pool_address_redis].
  rewrite !lookup_insert_ne by exact Hne. repeat split; reflexivity.
Qed.

Lemma cache_writes_are_local_witness :
  Cache.get_pool_pair
    {| Cache.pool_address_redis := <["0xa"%string := "0xb,0xc"%string]> ∅;
       Cache.token_decimals_db := ∅; Cache.token_symbols_db := ∅ |}
    "0xe" = Cache.get_pool_pair Cache.empty "0xe".
Proof.
  exact (proj1 (proj2 (proj2
    (cache_writes_are_local Cache.empty "0xa" "0xe" "0xa" 18 "DAI"
       ["0xb"%string; "0xc"%string] _ ltac:(discriminate) eq_refl)))).
Defined.

(** X5.  On a hit the fetcher is not called and its outcome plays no
    part: the cached value is returned; a cached symbol and a cached
    pool pair leave the cache exactly as it was, and cached decimals
    read the same afterwards. *)
Theorem cache_hit_needs_no_fetch (c : Cache.t) (adr sym t0 t1 : string)
  (d : N) (fetch_d : outcome N) (fetch_s : outcome string)
  (fetch_p : outcome (list string)) :
  Cache.get_token_symbol c adr = Some sym ->
  Cache.get_token_decimals c adr = Returned (Some d) ->
  Cache.get_pool_pair c adr = Some [t0; t1] ->
  get_token_symbol c fetch_s adr
    = {| result := Returned sym; cache_after := c; fetches := 0 |} /\
  get_pool_tokens c fetch_p adr
    = {| result := Returned [t0; t1]; cache_after := c; fetches := 0 |} /\
  (let r := get_token_decimals c fetch_d adr in
   result r = Returned d /\ fetches r = 0 /\
   Cache.get_token_decimals (cache_after r) adr = Returned (Some d)).
Proof.
  intros Hs Hd Hp. split; [|split].
  - unfold get_token_symbol. rewrite Hs. f_equal.
    unfold Cache.get_token_symbol in Hs. unfold Cache.set_token_symbol.
    rewrite (insert_id _ _ _ Hs). now destruct c.
  - unfold get_pool_tokens. rewrite Hp.
    unfold store_pool_pair, Cache.set_pool_pair. f_equal.
    unfold Cache.get_pool_pair in Hp.
    destruct (Cache.pool_address_redis c !! adr) as [v|] eqn:Hv;
      [|discriminate].
    injection Hp as Hp. apply split_comma_two in Hp. subst v.
    rewrite (insert_id _ _ _ Hv). now destruct c.
  - unfold get_token_decimals. rewrite Hd.
    cbn [result fetches cache_after]. repeat split.
    unfold Cache.get_token_decimals, Cache.set_token_decimals.
    cbn [Cache.token_decimals_db]. rewrite lookup_insert_eq.
    now rewrite int_of_str_of_N.
Qed.

Lemma cache_hit_needs_no_fetch_witness :
  let c := {| Cache.pool_address_redis :=
                <["0xa"%string := "0xb,0xc"%string]> ∅;
              Cache.token_decimals_db := <["0xa"%string := "007"%string]> ∅;
              Cache.token_symbols_db := <["0xa"%string := "DAI"%string]> ∅ |}
  in
  get_token_symbol c (Raised ClientError) "0xa"
    = {| result := Returned "DAI"%string; cache_after := c; fetches := 0 |} /\
  get_pool_tokens c (Raised ClientError) "0xa"
    = {| result := Returned ["0xb"%string; "0xc"%string];
         cache_after := c; fetches := 0 |} /\
  (let r := get_token_decimals c (Raised ClientError) "0xa" in
   result r = Returned 7%N /\ fetches r = 0 /\
   Cache.get_token_decimals (cache_after r) "0xa" = Returned (Some 7%N)).
Proof.
  intros c.
  apply (cache_hit_needs_no_fetch c "0xa" "DAI" "0xb" "0xc" 7
           (Raised ClientError) (Raised ClientError) (Raised ClientError));
    reflexivity.
Defined.

Lemma decimals_resolution_writes (c : Cache.t) (fetch : outcome N)
  (adr : string) :
  cache_after (get_token_decimals c fetch adr) = c \/
  exists d, result (get_token_decimals c fetch adr) = Returned d /\
            cache_after (get_token_decimals c fetch adr)
            = Cache.set_token_decimals c adr d.
Proof.
  unfold get_token_decimals.
  destruct (Cache.get_token_decimals c adr) as [[d|]|e|];
    [right; now exists d | | now left | now left].
  destruct fetch as [d|e|]; [right; now exists d | now left | now left].
Qed.

Lemma symbol_resolution_writes (c : Cache.t) (fetch : outcome string)
  (adr : string) :
  cache_after (get_token_symbol c fetch adr) = c \/
  exists sym, result (get_token_symbol c fetch adr) = Returned sym /\
              cache_after (get_token_symbol c fetch adr)
              = Cache.set_token_symbol c adr sym.
Proof.
  unfold get_token_symbol.
  destruct (Cache.get_token_symbol c adr) as [sym|];
    [right; now exists sym|].
  destruct fetch as [sym|e|]; [right; now exists sym | now left | now left].
Qed.

Lemma pool_resolution_writes (c : Cache.t) (fetch : outcome (list string))
  (adr : string) :
  cache_after (get_pool_tokens c fetch adr) = c \/
  exists tokens,
    result (get_pool_tokens c fetch adr) = Returned tokens /\
    Cache.set_pool_pair c adr tokens
    = Returned (cache_after (get_pool_tokens c fetch adr)).
Proof.
  assert (Hstore : forall tokens n,
    cache_after (store_pool_pair c adr tokens n) = c \/
    (result (store_pool_pair c adr tokens n) = Returned tokens /\
     Cache.set_pool_pair c adr tokens
     = Returned (cache_after (store_pool_pair c adr tokens n)))).
  { intros tokens n. unfold store_pool_pair.
    destruct (Cache.set_pool_pair c adr tokens) as [c'|e|];
      [right; now split | now left | now left]. }
  unfold get_pool_tokens.
  destruct (Cache.get_pool_pair c adr) as [tokens|].
  - destruct (Hstore tokens 0) as [H|H]; [now left | right; now exists tokens].
  - destruct fetch as [tokens|e|]; [|now left|now left].
    destruct (Hstore tokens 1) as [H|H]; [now left | right; now exists tokens].
Qed.

(** X6.  What a resolution leaves in the cache.  A resolver that does
    not return a value, because the cache read failed, the fetcher
    raised or never answered, or the pair could not be written back,
    leaves the cache exactly as it was, whatever it held.  A resolver
    that returns writes the entry of its own address in its own
    database and nothing else: every read under another address, and
    every read of the two other databases, gives what it gave before. *)
Theorem resolution_writes_only_its_own_entry (c : Cache.t) (adr : string)
  (fetch_d : outcome N) (fetch_s : outcome string)
  (fetch_p : outcome (list string)) :
  (((forall d, result (get_token_decimals c fetch_d adr) <> Returned d) ->
    cache_after (get_token_decimals c fetch_d adr) = c) /\
   ((forall sym, result (get_token_symbol c fetch_s adr) <> Returned sym) ->
    cache_after (get_token_symbol c fetch_s adr) = c) /\
   ((forall tokens,
       result (get_pool_tokens c fetch_p adr) <> Returned tokens) ->
    cache_after (get_pool_tokens c fetch_p adr) = c)) /\
  (forall other any : string, adr <> other ->
     (Cache.get_token_decimals
        (cache_after (get_token_decimals c fetch_d adr)) other
      = Cache.get_token_decimals c other /\
      Cache.get_token_symbol
        (cache_after (get_token_decimals c fetch_d adr)) any
      = Cache.get_token_symbol c any /\
      Cache.get_pool_pair
        (cache_after (get_token_decimals c fetch_d adr)) any
      = Cache.get_pool_pair c any) /\
     (Cache.get_token_symbol
        (cache_after (get_token_symbol c fetch_s adr)) other
      = Cache.get_token_symbol c other /\
      Cache.get_token_decimals
        (cache_after (get_token_symbol c fetch_s adr)) any
      = Cache.get_token_decimals c any /\
      Cache.get_pool_pair
        (cache_after (get_token_symbol c fetch_s adr)) any
      = Cache.get_pool_pair c any) /\
     (Cache.get_pool_pair
        (cache_after (get_pool_tokens c fetch_p adr)) other
      = Cache.get_pool_pair c other /\
      Cache.get_token_decimals
        (cache_after (get_pool_tokens c fetch_p adr)) any
      = Cache.get_token_decimals c any /\
      Cache.get_token_symbol
        (cache_after (get_pool_tokens c fetch_p adr)) any
      = Cache.get_token_symbol c any)).
Proof.
  pose proof (decimals_resolution_writes c fetch_d adr) as Hd.
  pose proof (symbol_resolution_writes c fetch_s adr) as Hs.
  pose proof (pool_resolution_writes c fetch_p adr) as Hp.
  split; [split; [|split]|].
  - intros Hnot. destruct Hd as [H|(d & Hres & _)]; [exact H|].
    exfalso. exact (Hnot d Hres).
  - intros Hnot. destruct Hs as [H|(sym & Hres & _)]; [exact H|].
    exfalso. exact (Hnot sym Hres).
  - intros Hnot. destruct Hp as [H|(tokens & Hres & _)]; [exact H|].
    exfalso. exact (Hnot tokens Hres).
  - intros other any Hne. split; [|split].
    + destruct Hd as [->|(d & _ & ->)]; [repeat split|].
      unfold Cache.get_token_decimals, Cache.get_token_symbol,
        Cache.get_pool_pair, Cache.set_token_decimals.
      cbn [Cache.token_decimals_db Cache.token_symbols_db
           Cache.pool_address_redis].
      rewrite lookup_insert_ne by exact Hne. repeat split.
    + destruct Hs as [->|(sym & _ & ->)]; [repeat split|].
      unfold Cache.get_token_decimals, Cache.get_token_symbol,
        Cache.get_pool_pair, Cache.set_token_symbol.
      cbn [Cache.token_decimals_db Cache.token_symbols_db
           Cache.pool_address_redis].
      rewrite lookup_insert_ne by exact Hne. repeat split.
    + destruct Hp as [->|(tokens & _ & Hset)]; [repeat split|].
      unfold Cache.set_pool_pair in Hset.
      destruct tokens as [|t0 [|t1 more]]; try discriminate.
      injection Hset as <-.
      unfold Cache.get_token_decimals, Cache.get_token_symbol,
        Cache.get_pool_pair.
      cbn [Cache.token_decimals_db Cache.token_symbols_db
           Cache.pool_address_redis].
      rewrite lookup_insert_ne by exact Hne. repeat split.
Qed.

(** X7.  A cached pool entry that holds no comma is read as a tuple of
    one item; the resolver does not call the fetcher for it and fails
    with [IndexError] when it writes the pair back, leaving the entry in
    the cache as it is. *)
Theorem cached_pool_entry_without_comma (c : Cache.t) (adr v : string)
  (fetch : outcome (list string)) :
  Cache.pool_address_redis c !! adr = Some v ->
  no_comma v = true ->
  get_pool_tokens c fetch adr
  = {| result := Raised IndexError; cache_after := c; fetches := 0 |}.
Proof.
  intros Hv Hnc. unfold get_pool_tokens, Cache.get_pool_pair.
  rewrite Hv. cbn [option_map]. now rewrite split_comma_no_comma.
Qed.

Lemma cached_pool_entry_without_comma_witness :
  let c := {| Cache.pool_address_redis := <["0xa"%string := "0xb"%string]> ∅;
              Cache.token_decimals_db := ∅; Cache.token_symbols_db := ∅ |} in
  get_pool_tokens c (Returned ["0xb"%string; "0xc"%string]) "0xa"
  = {| result := Raised IndexError; cache_after := c; fetches := 0 |}.
Proof.
  intros c.
  apply (cached_pool_entry_without_comma c "0xa" "0xb"); reflexivity.
Defined.

End CacheProperties.

(** ** The chain client, whatever the node answers *)

Section ChainClientProperties.
Import Py Node Words.

Lemma single_pool_token_loop_never_raises (replies : list (reply string))
  (slept : nat) (e : exn) :
  fst (single_pool_token_loop replies slept) <> Raised e.
Proof.
  revert slept. induction replies as [|r replies IH]; intros slept;
    [discriminate|].
  destruct r as [status [word|]|status e'|]; cbn [single_pool_token_loop];
    try apply IH; destruct (status =? 200)%Z; try apply IH; discriminate.
Qed.

Lemma token_decimals_loop_never_raises (L : Library)
  (replies : list (reply string)) (slept : nat) (e : exn) :
  fst (token_decimals_loop L replies slept) <> Raised e.
Proof.
  revert slept. induction replies as [|r replies IH]; intros slept;
    [discriminate|].
  destruct r as [status [word|]|status e'|]; cbn [token_decimals_loop];
    try apply IH; destruct (status =? 200)%Z; try apply IH.
  destruct (int16 L word); [discriminate | apply IH].
Qed.

Lemma token_symbol_loop_never_raises (L : Library)
  (replies : list (reply string)) (slept : nat) (e : exn) :
  fst (token_symbol_loop L replies slept) <> Raised e.
Proof.
  revert slept. induction replies as [|r replies IH]; intros slept;
    [discriminate|].
  destruct r as [status [word|]|status e'|]; cbn [token_symbol_loop];
    try apply IH; destruct (status =? 200)%Z; try apply IH.
  destruct (fromhex (drop_str 2 word)) as [bs|]; [|apply IH].
  destruct (utf8_decode L bs); [discriminate | apply IH].
Qed.

Lemma get_pool_tokens_async_never_raises
  (replies replies' : list (reply string)) (e : exn) :
  get_pool_tokens_async replies replies' <> Raised e.
Proof.
  unfold get_pool_tokens_async.
  rewrite (get_single_pool_token_async_loop replies 0) by now left.
  rewrite (get_single_pool_token_async_loop replies' 1) by now right.
  cbn [gather].
  pose proof (single_pool_token_loop_never_raises replies 0) as H0.
  pose proof (single_pool_token_loop_never_raises replies' 0) as H1.
  destruct (fst (single_pool_token_loop replies 0)) as [t0|e0|];
    destruct (fst (single_pool_token_loop replies' 0)) as [t1|e1|];
    cbv beta iota;
    first [ discriminate
          | exfalso; eapply H0; reflexivity
          | exfalso; eapply H1; reflexivity ].
Qed.

(** X8.  The calls for a pool's tokens, for a token's decimals and for
    its symbol never raise, whatever the node answers and in whatever
    order: a refused request, a transport error, an unreadable body or a
    word that does not decode all lead to the next attempt. *)
Theorem retrying_calls_never_raise (L : Library)
  (replies replies' : list (reply string)) (e : exn) :
  fst (get_token_decimals L replies) <> Raised e /\
  fst (get_token_symbol L replies) <> Raised e /\
  get_pool_tokens_async replies replies' <> Raised e.
Proof.
  split; [|split].
  - apply token_decimals_loop_never_raises.
  - apply token_symbol_loop_never_raises.
  - apply get_pool_tokens_async_never_raises.
Qed.

Lemma token_decimals_loop_returned (L : Library)
  (replies : list (reply string)) (slept n : nat) (d : N) :
  token_decimals_loop L replies slept = (Returned d, n) <->
  exists before word after,
    replies = before ++ Http 200 (Some word) :: after /\
    Forall (fun r => answers_decimals L r = false) before /\
    int16 L word = Some d /\ n = slept + length before.
Proof.
  revert slept. induction replies as [|r replies IH]; intros slept.
  - split; [discriminate|]. intros (before & word & after & H & _).
    destruct before; discriminate.
  - assert (Hnext :
      answers_decimals L r = false ->
      token_decimals_loop L (r :: replies) slept
      = token_decimals_loop L replies (S slept)).
    { destruct r as [status [word|]|status e|]; cbn [token_decimals_loop
        answers_decimals]; try reflexivity;
        destruct (status =? 200)%Z; cbn [andb]; try reflexivity.
      destruct (int16 L word); [discriminate | reflexivity]. }
    destruct (answers_decimals L r) eqn:Ea.
    + destruct r as [status [word|]|status e|]; try discriminate.
      cbn [answers_decimals] in Ea. apply andb_prop in Ea as [Est Ei].
      cbn [token_decimals_loop]. rewrite Est.
      destruct (int16 L word) as [d'|] eqn:Ew; [|discriminate].
      apply Z.eqb_eq in Est. subst status. split.
      * intros H. injection H as <- <-.
        exists [], word, replies. repeat split; [constructor | exact Ew
                                                | cbn; lia].
      * intros (before & word' & after & Hr & Hb & Hw & ->).
        destruct before as [|b before].
        -- injection Hr as <- <-. rewrite Ew in Hw. injection Hw as <-.
           cbn. now rewrite Nat.add_0_r.
        -- injection Hr as <- _. apply Forall_inv in Hb.
           cbn [answers_decimals Z.eqb andb] in Hb. rewrite Ew in Hb.
           discriminate.
    + rewrite (Hnext eq_refl), IH. split.
      * intros (before & word & after & -> & Hb & Hw & ->).
        exists (r :: before), word, after.
        repeat split; [now constructor | exact Hw | cbn [length]; lia].
      * intros (before & word & after & Hr & Hb & Hw & ->).
        destruct before as [|b before].
        -- injection Hr as -> _. cbn [answers_decimals Z.eqb andb] in Ea.
           now rewrite Hw in Ea.
        -- injection Hr as <- ->. exists before, word, after.
           repeat split; [now apply Forall_inv_tail in Hb | exact Hw
                          | cbn [length]; lia].
Qed.

(** X9.  The decimals call returns the number read from the first reply
    with status 200 whose word [int(., 16)] accepts, and has then slept
    one second for each reply before it; it returns nothing else. *)
Theorem decimals_come_from_first_answer (L : Library)
  (replies : list (reply string)) (n : nat) (d : N) :
  get_token_decimals L replies = (Returned d, n) <->
  exists before word after,
    replies = before ++ Http 200 (Some word) :: after /\
    Forall (fun r => answers_decimals L r = false) before /\
    int16 L word = Some d /\ n = length before.
Proof.
  unfold get_token_decimals. rewrite token_decimals_loop_returned.
  split; intros (before & word & after & H); exists before, word, after;
    exact H.
Qed.

(** X10.  The call for the swap logs goes by the first reply whose
    status is 200, or the first failure to reach the node, after one
    second slept for each refused request before it.  The logs of a
    readable reply are returned.  Whatever the attempt raises is raised
    to the caller as it is: [KeyError] for a body without ['result'],
    as a JSON-RPC error object is, the exception of [response.json()]
    for a body that does not parse, the transport error when the node
    is not reached. *)
Theorem raw_swap_logs_first_answer (before after : list (reply (list log)))
  (logs : list log) (e : exn) :
  Forall refused before ->
  get_raw_swap_logs (before ++ Http 200 (Some logs) :: after)
    = (Returned logs, length before) /\
  get_raw_swap_logs (before ++ Http 200 None :: after)
    = (Raised KeyError, length before) /\
  get_raw_swap_logs (before ++ Unparsed 200 e :: after)
    = (Raised e, length before) /\
  get_raw_swap_logs (before ++ Unreachable :: after)
    = (Raised ClientError, length before).
Proof.
  intros Hb. unfold get_raw_swap_logs.
  rewrite !raw_swap_logs_loop_refused by exact Hb. repeat split.
Qed.

Lemma raw_swap_logs_first_answer_witness :
  get_raw_swap_logs
    ([Http 429 None; Unparsed 502 ClientError]
       ++ Http 200 (Some []) :: [Unreachable])
    = (Returned [], 2) /\
  get_raw_swap_logs
    ([Http 429 None; Unparsed 502 ClientError]
       ++ Http 200 None :: [Unreachable])
    = (Raised KeyError, 2) /\
  get_raw_swap_logs
    ([Http 429 None; Unparsed 502 ClientError]
       ++ Unparsed 200 ValueError :: [Unreachable])
    = (Raised ValueError, 2) /\
  get_raw_swap_logs
    ([Http 429 None; Unparsed 502 ClientError]
       ++ Unreachable :: [Unreachable])
    = (Raised ClientError, 2).
Proof.
  apply (raw_swap_logs_first_answer
           [Http 429 None; Unparsed 502 ClientError] [Unreachable] []
           ValueError).
  repeat first
    [ apply List.Forall_nil
    | apply List.Forall_cons;
      [ unfold refused; eexists; split; [reflexivity | lia] | ] ].
Defined.

Lemma length_substring (n m : nat) (s : string) :
  String.length (substring n m s) <= m.
Proof.
  revert n m. induction s as [|c s IH]; intros n m.
  - destruct n, m; cbn; lia.
  - destruct n as [|n].
    + destruct m as [|m]; [cbn; lia|]. cbn [substring String.length].
      specialize (IH 0 m). lia.
    + cbn [substring]. apply IH.
Qed.

Lemma single_pool_token_loop_returned (replies : list (reply string))
  (slept n : nat) (t : string) :
  single_pool_token_loop replies slept = (Returned t, n) <->
  exists before word after,
    replies = before ++ Http 200 (Some word) :: after /\
    Forall (fun r => answers_pool_token r = false) before /\
    t = "0x" +:+ slice 26 66 word /\
    n = slept + length before + count_429 before.
Proof.
  revert slept. induction replies as [|r replies IH]; intros slept.
  - split; [discriminate|]. intros (before & word & after & H & _).
    destruct before; discriminate.
  - assert (Hnext :
      answers_pool_token r = false ->
      single_pool_token_loop (r :: replies) slept
      = single_pool_token_loop replies
          (S (if is_429 r then S slept else slept))).
    { destruct r as [status [word|]|status e|];
        cbn [single_pool_token_loop answers_pool_token is_429];
        try reflexivity; destruct (status =? 200)%Z;
        first [reflexivity | discriminate]. }
    destruct (answers_pool_token r) eqn:Ea.
    + destruct r as [status [word|]|status e|]; try discriminate.
      cbn [answers_pool_token] in Ea. apply Z.eqb_eq in Ea. subst status.
      cbn [single_pool_token_loop Z.eqb]. split.
      * intros H. injection H as <- <-.
        exists [], word, replies.
        repeat split; [constructor | cbn; lia].
      * intros (before & word' & after & Hr & Hb & -> & ->).
        destruct before as [|b before].
        -- injection Hr as <- <-. cbn. now rewrite !Nat.add_0_r.
        -- injection Hr as <- _. apply Forall_inv in Hb. discriminate.
    + rewrite (Hnext eq_refl), IH. split.
      * intros (before & word & after & -> & Hb & -> & ->).
        exists (r :: before), word, after.
        repeat split; [now constructor|].
        unfold count_429. cbn [length List.filter].
        destruct (is_429 r); cbn [length]; lia.
      * intros (before & word & after & Hr & Hb & -> & ->).
        destruct before as [|b before].
        -- injection Hr as -> _. discriminate.
        -- injection Hr as <- ->. exists before, word, after.
           repeat split; [now apply Forall_inv_tail in Hb|].
           unfold count_429. cbn [length List.filter].
           destruct (is_429 r); cbn [length]; lia.
Qed.

Lemma length_address (word : string) :
  String.length ("0x" +:+ slice 26 66 word) <= 42.
Proof.
  change ("0x" +:+ slice 26 66 word)
    with (String "0" (String "x" (slice 26 66 word))).
  cbn [String.length]. unfold slice.
  pose proof (length_substring 26 (66 - 26) word). lia.
Qed.

(** X11.  The call for a pool's tokens returns exactly when each of its
    two requests gets a reply with status 200 and a result word.  What
    it returns is then, for each of the two, the characters ["0x"]
    followed by the characters 26 to 66 of the word of the first such
    reply: two addresses of at most 42 characters, in the order token0,
    token1. *)
Theorem pool_tokens_are_two_addresses (replies0 replies1 : list (reply string))
  (tokens : list string) :
  (get_pool_tokens_async replies0 replies1 = Returned tokens <->
   exists before0 word0 after0 before1 word1 after1,
     replies0 = before0 ++ Http 200 (Some word0) :: after0 /\
     Forall (fun r => answers_pool_token r = false) before0 /\
     replies1 = before1 ++ Http 200 (Some word1) :: after1 /\
     Forall (fun r => answers_pool_token r = false) before1 /\
     tokens = ["0x" +:+ slice 26 66 word0; "0x" +:+ slice 26 66 word1]) /\
  (get_pool_tokens_async replies0 replies1 = Returned tokens ->
   Forall (fun t => String.length t <= 42) tokens).
Proof.
  assert (Hiff :
    get_pool_tokens_async replies0 replies1 = Returned tokens <->
    exists before0 word0 after0 before1 word1 after1,
      replies0 = before0 ++ Http 200 (Some word0) :: after0 /\
      Forall (fun r => answers_pool_token r = false) before0 /\
      replies1 = before1 ++ Http 200 (Some word1) :: after1 /\
      Forall (fun r => answers_pool_token r = false) before1 /\
      tokens = ["0x" +:+ slice 26 66 word0; "0x" +:+ slice 26 66 word1]).
  { unfold get_pool_tokens_async.
    rewrite (get_single_pool_token_async_loop replies0 0) by now left.
    rewrite (get_single_pool_token_async_loop replies1 1) by now right.
    cbn [gather]. split.
    - intros H.
      destruct (single_pool_token_loop replies0 0) as [o0 n0] eqn:E0.
      destruct (single_pool_token_loop replies1 0) as [o1 n1] eqn:E1.
      cbn [fst] in H.
      destruct o0 as [t0|e0|]; destruct o1 as [t1|e1|]; try discriminate.
      injection H as <-.
      apply single_pool_token_loop_returned in E0
        as (before0 & word0 & after0 & H0 & Hb0 & -> & _).
      apply single_pool_token_loop_returned in E1
        as (before1 & word1 & after1 & H1 & Hb1 & -> & _).
      now exists before0, word0, after0, before1, word1, after1.
    - intros (before0 & word0 & after0 & before1 & word1 & after1
              & H0 & Hb0 & H1 & Hb1 & ->).
      rewrite (proj2 (single_pool_token_loop_returned replies0 0 _ _)
                 (ex_intro _ before0 (ex_intro _ word0 (ex_intro _ after0
                    (conj H0 (conj Hb0 (conj eq_refl eq_refl))))))).
      rewrite (proj2 (single_pool_token_loop_returned replies1 0 _ _)
                 (ex_intro _ before1 (ex_intro _ word1 (ex_intro _ after1
                    (conj H1 (conj Hb1 (conj eq_refl eq_refl))))))).
      reflexivity. }
  split; [exact Hiff|].
  intros H. apply (proj1 Hiff) in H
    as (before0 & word0 & after0 & before1 & word1 & after1
        & _ & _ & _ & _ & ->).
  constructor; [apply length_address|].
  constructor; [apply length_address|]. constructor.
Qed.

Lemma pool_tokens_are_two_addresses_witness :
  get_pool_tokens_async
    [Http 429 None; Http 200 (Some "0x000000000000000000000000c02a")]
    [Unparsed 200 ValueError; Unreachable; Http 200 (Some "0x")]
  = Returned ["0xc02a"%string; "0x"%string].
Proof.
  apply (proj2 (proj1 (pool_tokens_are_two_addresses
           [Http 429 None; Http 200 (Some "0x000000000000000000000000c02a")]
           [Unparsed 200 ValueError; Unreachable; Http 200 (Some "0x")]
           ["0xc02a"%string; "0x"%string]))).
  exists [Http 429 None], "0x000000000000000000000000c02a"%string, [],
    [Unparsed 200 ValueError; Unreachable], "0x"%string, [].
  repeat split; repeat constructor.
Defined.

End ChainClientProperties.

(** ** The resolvers on the calls of the node *)

Section ResolversOnTheNode.
Import Py Calculation.

(** X12.  Run on the calls of the node, no resolver ever raises
    [ContractNotFoundException], whatever the cache holds and whatever
    the node answers: the calls never raise, so the handlers that would
    wrap their exception are never entered.  (What a resolver can raise
    comes from the cache: [ValueError] for stored decimals that are no
    number, [IndexError] for a stored pair without a comma.) *)
Theorem contract_not_found_is_never_raised (L : Library) (c : Cache.t)
  (adr : string) (replies replies' : list (Node.reply string))
  (msg : string) (cause : exn) :
  result (get_token_decimals c (fst (Node.get_token_decimals L replies)) adr)
    <> Raised (ContractNotFoundException msg cause) /\
  result (get_token_symbol c (fst (Node.get_token_symbol L replies)) adr)
    <> Raised (ContractNotFoundException msg cause) /\
  result (get_pool_tokens c (Node.get_pool_tokens_async replies replies')
                          adr)
    <> Raised (ContractNotFoundException msg cause).
Proof.
  split; [|split].
  - unfold get_token_decimals, Cache.get_token_decimals.
    pose proof (token_decimals_loop_never_raises L replies 0) as Hf.
    fold (Node.get_token_decimals L replies) in Hf.
    destruct (Cache.token_decimals_db c !! adr) as [v|].
    + destruct (int_of_str v); cbn [of_option bind result]; discriminate.
    + destruct (fst (Node.get_token_decimals L replies)) as [d|e|];
        cbn [result]; first [discriminate | exfalso; now apply (Hf e)].
  - unfold get_token_symbol.
    pose proof (token_symbol_loop_never_raises L replies 0) as Hf.
    fold (Node.get_token_symbol L replies) in Hf.
    destruct (Cache.get_token_symbol c adr) as [v|];
      [cbn [result]; discriminate|].
    destruct (fst (Node.get_token_symbol L replies)) as [d|e|];
      cbn [result]; first [discriminate | exfalso; now apply (Hf e)].
  - unfold get_pool_tokens, store_pool_pair, Cache.set_pool_pair.
    pose proof (get_pool_tokens_async_never_raises replies replies') as Hf.
    destruct (Cache.get_pool_pair c adr) as [[|t0 [|t1 more]]|];
      try (cbn [result]; discriminate).
    destruct (Node.get_pool_tokens_async replies replies')
      as [[|t0 [|t1 more]]|e|];
      cbn [result]; first [discriminate | exfalso; now apply (Hf e)].
Qed.

End ResolversOnTheNode.

(** ** Ingestion of the logs *)

Section Ingestion.
Import Py Calculation Words.

Lemma fromhex_length (n : nat) :
  forall s bs, String.length s <= n -> fromhex s = Some bs ->
               2 * length bs <= String.length s.
Proof.
  induction n as [|n IH]; intros s bs Hn H.
  - destruct s; [|cbn in Hn; lia]. injection H as <-. cbn. lia.
  - destruct s as [|c s]; [injection H as <-; cbn; lia|].
    cbn [fromhex] in H. cbn [String.length] in Hn |- *.
    destruct (is_space c).
    + specialize (IH s bs ltac:(lia) H). lia.
    + destruct s as [|c' s]; [discriminate|].
      destruct (hex_digit c); [|discriminate].
      destruct (hex_digit c'); [|discriminate].
      destruct (fromhex s) as [bs'|] eqn:E; [|discriminate].
      injection H as <-. cbn [String.length length] in *.
      specialize (IH s bs' ltac:(lia) E). lia.
Qed.

Lemma byte_val_range (b : Byte.byte) : (0 <= byte_val b < 256)%Z.
Proof. destruct b; cbv; split; congruence. Qed.

Lemma unsigned_be_range (bs : list Byte.byte) :
  (0 <= unsigned_be bs < 256 ^ Z.of_nat (length bs))%Z.
Proof.
  induction bs as [|b bs IH] using rev_ind; [cbn; lia|].
  rewrite unsigned_be_snoc, length_app. cbn [length].
  rewrite Nat.add_1_r, Nat2Z.inj_succ, Z.pow_succ_r by lia.
  pose proof (byte_val_range b). lia.
Qed.

Lemma from_bytes_signed_abs (bs : list Byte.byte) :
  length bs <= 32 -> (Z.abs (from_bytes_signed bs) <= 2 ^ 255)%Z.
Proof.
  intros Hlen. unfold from_bytes_signed.
  pose proof (unsigned_be_range bs) as Hu.
  set (n := Z.of_nat (length bs)) in *.
  assert (Hn : (0 <= n <= 32)%Z) by lia.
  replace (256 ^ n)%Z with (2 ^ (8 * n))%Z in Hu
    by (rewrite Z.pow_mul_r by lia; reflexivity).
  destruct (Z.ltb_spec 0 (8 * n)) as [Hpos|Hzero]; cbn [andb].
  - assert (Hsplit : (2 ^ (8 * n) = 2 * 2 ^ (8 * n - 1))%Z).
    { rewrite <- Z.pow_succ_r by lia. f_equal. lia. }
    assert (Hmono : (2 ^ (8 * n - 1) <= 2 ^ 255)%Z)
      by (apply Z.pow_le_mono_r; lia).
    destruct (Z.leb_spec (2 ^ (8 * n - 1)) (unsigned_be bs)); lia.
  - assert (n = 0%Z) by lia. subst n.
    replace (8 * Z.of_nat (length bs))%Z with 0%Z in Hu by lia.
    cbn in Hu. assert (unsigned_be bs = 0%Z) by lia. lia.
Qed.

Lemma amount_range (data : string) (a : nat) (v : Z) :
  amount data a (a + 64) = Returned v -> (0 <= v <= 2 ^ 255)%Z.
Proof.
  unfold amount. destruct (fromhex (slice a (a + 64) data)) as [bs|] eqn:E;
    [|discriminate].
  cbn [of_option bind]. intros H. injection H as <-.
  split; [apply Z.abs_nonneg|]. apply from_bytes_signed_abs.
  pose proof (fromhex_length _ _ _ (le_n _) E) as Hl.
  unfold slice in Hl.
  pose proof (length_substring a (a + 64 - a) data). lia.
Qed.

Lemma gather_returned {A} (ms : list (outcome A)) (l : list A) :
  gather ms = Returned l -> ms = map Returned l.
Proof.
  revert l. induction ms as [|m ms IH]; intros l H.
  - injection H as <-. reflexivity.
  - cbn [gather] in H.
    destruct m as [a|e|]; destruct (gather ms) as [l'|e'|];
      try discriminate.
    injection H as <-. cbn [map]. now rewrite (IH l' eq_refl).
Qed.

Lemma gather_raised {A} (ms : list (outcome A)) (e : exn) :
  In (Raised e) ms -> exists e', gather ms = Raised e'.
Proof.
  induction ms as [|m ms IH]; intros H; [destruct H|].
  cbn [gather]. destruct H as [->|H]; [now exists e|].
  destruct (IH H) as [e' ->]. destruct m as [a|e0|]; eauto.
Qed.

Lemma lookup_pool_combine (w : world) (adrs : list string)
  (lst : list (list string)) (adr : string) (tokens : list string) :
  map (pool_tokens w) adrs = map Returned lst ->
  lookup_pool (combine adrs lst) adr = Some tokens ->
  pool_tokens w adr = Returned tokens.
Proof.
  revert lst. induction adrs as [|k adrs IH]; intros lst Hm Hl.
  - discriminate.
  - destruct lst as [|v lst]; [discriminate|].
    cbn [map] in Hm. injection Hm as Hk Hm.
    cbn [combine lookup_pool] in Hl.
    destruct (String.eqb_spec k adr) as [->|Hne].
    + injection Hl as <-. exact Hk.
    + exact (IH lst Hm Hl).
Qed.

Lemma parse_log_parsed_from (L : Library) (w : world)
  (adrs : list string) (lst : list (list string)) (log : Node.log)
  (s : SwapEvent) :
  map (pool_tokens w) adrs = map Returned lst ->
  parse_log L (combine adrs lst) log = Returned s ->
  parsed_from w log s.
Proof.
  intros Hm H. unfold parse_log in H.
  destruct (lookup_pool (combine adrs lst) (Node.log_address log))
    as [tokens|] eqn:El; [|discriminate].
  cbn [of_option bind] in H.
  destruct tokens as [|t0 [|t1 [|t2 more]]]; try discriminate.
  cbn [unpack2 bind fst snd] in H.
  destruct (int16 L (Node.log_blockNumber log)); [|discriminate].
  destruct (int16 L (Node.log_logIndex log)); [|discriminate].
  cbn [of_option bind] in H.
  destruct (amount (Node.log_data log) 2 66) as [fa| |] eqn:Ef;
    try discriminate.
  destruct (amount (Node.log_data log) 66 130) as [ta| |] eqn:Et;
    try discriminate.
  cbn [bind] in H. injection H as <-.
  exists t0, t1. cbn [from_token to_token address transaction_hash
                      from_amount to_amount].
  repeat split; try reflexivity.
  - exact (lookup_pool_combine w adrs lst _ _ Hm El).
  - exact (proj1 (amount_range _ 2 fa Ef)).
  - exact (proj2 (amount_range _ 2 fa Ef)).
  - exact (proj1 (amount_range _ 66 ta Et)).
  - exact (proj2 (amount_range _ 66 ta Et)).
Qed.

Lemma parse_logs_forall2 (L : Library) (pt : list (string * list string))
  (logs : list Node.log) (swaps : list SwapEvent) :
  parse_logs L pt logs = Returned swaps ->
  Forall2 (fun log s => parse_log L pt log = Returned s) logs swaps.
Proof.
  revert swaps. induction logs as [|log logs IH]; intros swaps H.
  - injection H as <-. constructor.
  - cbn [parse_logs] in H.
    destruct (parse_log L pt log) as [s| |] eqn:Es; try discriminate.
    cbn [bind] in H.
    destruct (parse_logs L pt logs) as [ss| |]; try discriminate.
    injection H as <-. constructor; [exact Es | now apply IH].
Qed.

(** X13.  When the ingestion returns, it returns one swap record per
    log, in the order of the logs; each record carries its log's
    transaction hash, the pool address and the pool's two tokens in the
    pool's order, all three in lower case, and two amounts between 0 and
    2^255. *)
Theorem ingestion_is_per_log (L : Library) (w : world) (lo hi : Z)
  (swaps : list SwapEvent) :
  get_swaps L w lo hi = Returned swaps ->
  exists logs,
    raw_swap_logs w lo hi = Returned logs /\
    Forall2 (parsed_from w) logs swaps.
Proof.
  unfold get_swaps. intros H.
  destruct (raw_swap_logs w lo hi) as [logs| |]; try discriminate.
  cbn [bind] in H. exists logs. split; [reflexivity|].
  destruct (gather (map (pool_tokens w)
                        (set_of_str L (map Node.log_address logs))))
    as [lst| |] eqn:Eg; try discriminate.
  cbn [bind] in H. apply gather_returned in Eg.
  apply parse_logs_forall2 in H.
  eapply Forall2_impl; [exact H|].
  intros log s. now apply parse_log_parsed_from.
Qed.

Lemma ingestion_is_per_log_witness :
  exists logs,
    raw_swap_logs Examples.two_islands 0 200 = Returned logs /\
    Forall2 (parsed_from Examples.two_islands) logs
            [Examples.swap_AB; Examples.swap_CD].
Proof.
  apply (ingestion_is_per_log RefLib.lib Examples.two_islands 0 200).
  reflexivity.
Defined.

Lemma parse_log_not_pending (L : Library)
  (pt : list (string * list string)) (log : Node.log) :
  parse_log L pt log <> Pending.
Proof.
  unfold parse_log, amount.
  destruct (lookup_pool pt (Node.log_address log)) as [tokens|];
    [|discriminate].
  cbn [of_option bind].
  destruct tokens as [|t0 [|t1 [|t2 more]]]; try discriminate.
  cbn [unpack2 bind].
  destruct (int16 L (Node.log_blockNumber log)); [|discriminate].
  destruct (int16 L (Node.log_logIndex log)); [|discriminate].
  cbn [of_option bind].
  destruct (fromhex (slice 2 66 (Node.log_data log))); [|discriminate].
  destruct (fromhex (slice 66 130 (Node.log_data log))); discriminate.
Qed.

Lemma parse_logs_raised (L : Library) (pt : list (string * list string))
  (logs : list Node.log) (log : Node.log) (e : exn) :
  In log logs -> parse_log L pt log = Raised e ->
  exists e', parse_logs L pt logs = Raised e'.
Proof.
  induction logs as [|l logs IH]; intros Hin He; [destruct Hin|].
  cbn [parse_logs].
  destruct (parse_log L pt l) as [s|e0|] eqn:El.
  - destruct Hin as [->|Hin]; [congruence|].
    destruct (IH Hin He) as [e' ->]. now exists e'.
  - now exists e0.
  - exfalso. exact (parse_log_not_pending L pt l El).
Qed.

(** X14.  The ingestion has no partial success: when the resolution of
    the pool of one log of the window raises, the whole call raises and
    no swap is returned, whatever the other logs are. *)
Theorem unresolved_pool_aborts_ingestion (L : Library) (w : world)
  (lo hi : Z) (logs : list Node.log) (log : Node.log) (e : exn) :
  LibraryOk L ->
  raw_swap_logs w lo hi = Returned logs ->
  In log logs ->
  pool_tokens w (Node.log_address log) = Raised e ->
  exists e', get_swaps L w lo hi = Raised e'.
Proof.
  intros ok Hlogs Hin Hp. unfold get_swaps. rewrite Hlogs. cbn [bind].
  destruct (gather_raised
              (map (pool_tokens w)
                   (set_of_str L (map Node.log_address logs))) e)
    as [e' ->]; [|now exists e'].
  rewrite <- Hp. apply in_map. apply (set_of_str_in L ok).
  now apply in_map.
Qed.

Lemma unresolved_pool_aborts_ingestion_witness :
  exists e', get_swaps RefLib.lib Cases.one_pool_down 0 200 = Raised e'.
Proof.
  apply (unresolved_pool_aborts_ingestion RefLib.lib Cases.one_pool_down
           0 200 [Examples.log_AB; Examples.log_CD] Examples.log_CD
           ClientError).
  - exact ref_lib_ok.
  - reflexivity.
  - right. left. reflexivity.
  - reflexivity.
Defined.

Lemma gather_all_returned {A B} (f : A -> outcome B) (l : list A) :
  (forall x, In x l -> exists b, f x = Returned b) ->
  exists bs, gather (map f l) = Returned bs.
Proof.
  induction l as [|x l IH]; intros H; [now exists []|].
  destruct (H x (or_introl eq_refl)) as [b Hb].
  destruct IH as [bs Hbs]; [intros y Hy; apply H; now right|].
  exists (b :: bs). cbn [map gather]. now rewrite Hb, Hbs.
Qed.

Lemma parse_log_bad_data (L : Library) (pt : list (string * list string))
  (log : Node.log) :
  fromhex (slice 2 66 (Node.log_data log)) = None \/
  fromhex (slice 66 130 (Node.log_data log)) = None ->
  exists e, parse_log L pt log = Raised e.
Proof.
  intros Hbad. unfold parse_log, amount.
  destruct (lookup_pool pt (Node.log_address log)) as [tokens|];
    [|now exists KeyError].
  cbn [of_option bind].
  destruct tokens as [|t0 [|t1 [|t2 more]]];
    try (now exists ValueError).
  cbn [unpack2 bind].
  destruct (int16 L (Node.log_blockNumber log)); [|now exists ValueError].
  destruct (int16 L (Node.log_logIndex log)); [|now exists ValueError].
  cbn [of_option bind].
  destruct (fromhex (slice 2 66 (Node.log_data log)));
    [|now exists ValueError].
  destruct (fromhex (slice 66 130 (Node.log_data log)));
    [|now exists ValueError].
  destruct Hbad; discriminate.
Qed.

(** X15.  One log whose data does not hold two hexadecimal words where
    the amounts are read makes the whole ingestion raise, also when every
    pool of the window resolves: the swaps of the other logs are lost
    with it. *)
Theorem malformed_log_aborts_ingestion (L : Library) (w : world)
  (lo hi : Z) (logs : list Node.log) (log : Node.log) :
  LibraryOk L ->
  raw_swap_logs w lo hi = Returned logs ->
  (forall l, In l logs ->
             exists tokens, pool_tokens w (Node.log_address l)
                            = Returned tokens) ->
  In log logs ->
  fromhex (slice 2 66 (Node.log_data log)) = None \/
  fromhex (slice 66 130 (Node.log_data log)) = None ->
  exists e', get_swaps L w lo hi = Raised e'.
Proof.
  intros ok Hlogs Hpools Hin Hbad.
  unfold get_swaps. rewrite Hlogs. cbn [bind].
  destruct (gather_all_returned (pool_tokens w)
              (set_of_str L (map Node.log_address logs))) as [lst ->].
  { intros adr Hadr. apply (proj1 (set_of_str_in L ok _ _)) in Hadr.
    apply in_map_iff in Hadr. destruct Hadr as [l [<- Hl]].
    now apply Hpools. }
  cbn [bind].
  destruct (parse_log_bad_data L
              (combine (set_of_str L (map Node.log_address logs)) lst)
              log Hbad) as [e He].
  exact (parse_logs_raised L _ logs log e Hin He).
Qed.

Lemma malformed_log_aborts_ingestion_witness :
  exists e', get_swaps RefLib.lib Cases.one_log_garbled 0 200 = Raised e'.
Proof.
  apply (malformed_log_aborts_ingestion RefLib.lib Cases.one_log_garbled
           0 200 [Examples.log_AB; Cases.garbled_log] Cases.garbled_log).
  - exact ref_lib_ok.
  - reflexivity.
  - intros l [<-|[<-|[]]]; eexists; reflexivity.
  - right. left. reflexivity.
  - left. reflexivity.
Defined.

End Ingestion.

(** ** The path of a returned conversion *)

Section Paths.
Import Py Calculation Words.

Variable L : Library.
Hypothesis ok : LibraryOk L.

Lemma conversion_returned (w : world) (token0 token1 : string) (blk : Z)
  (r : ConversionResult) :
  get_token_conversion_rate L w token0 token1 blk = Returned r ->
  exists window swaps,
    block_window blk = Returned window /\
    get_swaps L w (fst window) (snd window) = Returned swaps /\
    rate_from_swaps L w swaps (lower token0) (lower token1) = Returned r.
Proof.
  unfold get_token_conversion_rate. intros H.
  destruct (block_window blk) as [window| |]; try discriminate.
  cbn [bind] in H.
  destruct (get_swaps L w (fst window) (snd window)) as [swaps| |] eqn:Es;
    try discriminate.
  cbn [bind] in H. now exists window, swaps.
Qed.

Lemma rate_from_swaps_returned (w : world) (swaps : list SwapEvent)
  (token0 token1 : string) (r : ConversionResult) :
  rate_from_swaps L w swaps token0 token1 = Returned r ->
  exists a b p total,
    index_of token0 (token_addresses L swaps) = Some a /\
    index_of token1 (token_addresses L swaps) = Some b /\
    In p (graph_all_shortest_paths L
            (swap_graph (token_addresses L swaps) swaps) a b) /\
    walk_path L (swap_graph (token_addresses L swaps) swaps)
              (token_addresses L swaps) p (PyInt 1) = Returned total /\
    token_decimals w token0 = Returned (token0_decimals r) /\
    token_decimals w token1 = Returned (token1_decimals r) /\
    scale total (token0_decimals r) (token1_decimals r)
      = Returned (conversion_rate r) /\
    path_tokens (token_addresses L swaps) p
      = Returned (token_pair_path r).
Proof.
  rewrite (rate_from_swaps_unfold L ok). cbv zeta. intros H.
  destruct (index_of token0 (token_addresses L swaps)) as [a|];
    [|discriminate].
  destruct (index_of token1 (token_addresses L swaps)) as [b|];
    [|discriminate].
  cbn [of_option bind] in H.
  destruct (hd_error _) as [p|] eqn:Ehd in H; [|discriminate].
  cbn [of_option bind] in H.
  destruct (walk_path _ _ _ p _) as [total| |] eqn:Ewalk in H;
    try discriminate.
  cbn [bind] in H.
  destruct (token_decimals w token0) as [d0| |] eqn:Ed0; try discriminate.
  destruct (token_decimals w token1) as [d1| |] eqn:Ed1; try discriminate.
  cbn [bind] in H.
  destruct (scale total d0 d1) as [rate| |] eqn:Escale; try discriminate.
  cbn [bind] in H.
  destruct (token_symbol w token0) as [s0| |]; try discriminate.
  destruct (token_symbol w token1) as [s1| |]; try discriminate.
  cbn [bind] in H.
  destruct (path_tokens _ p) as [toks| |] eqn:Etoks in H;
    try discriminate.
  cbn [bind] in H. injection H as <-.
  cbn [token0_decimals token1_decimals conversion_rate token_pair_path].
  exists a, b, p, total. repeat split; try assumption; try reflexivity.
  apply (set_of_path_in L ok).
  destruct (set_of_path L _) as [|x l]; [discriminate|].
  injection Ehd as ->. now left.
Qed.

Lemma path_tokens_returned (ids : list string) (p : list nat)
  (toks : list string) :
  path_tokens ids p = Returned toks ->
  Forall2 (fun i t => nth_error ids i = Some t) p toks.
Proof.
  revert toks. induction p as [|i p IH]; intros toks H.
  - injection H as <-. constructor.
  - cbn [path_tokens] in H. unfold token_of in H.
    destruct (nth_error ids i) as [t|] eqn:Ei; [|discriminate].
    cbn [of_option bind] in H.
    destruct (path_tokens ids p) as [ts| |]; try discriminate.
    injection H as <-. constructor; [exact Ei | now apply IH].
Qed.

Lemma Forall2_last {A B} (R : A -> B -> Prop) (l : list A) (k : list B)
  (d : A) (e : B) :
  Forall2 R l k -> l <> [] -> R (List.last l d) (List.last k e).
Proof.
  induction 1 as [|x y l k Hxy Hlk IH]; intros Hne; [congruence|].
  destruct Hlk as [|x' y' l k Hxy' Hlk]; [exact Hxy|].
  apply IH. discriminate.
Qed.

Lemma walk_tokens_chain (swaps : list SwapEvent) (p : list nat)
  (toks : list string) :
  Rx.is_walk (swap_graph (token_addresses L swaps) swaps) p = true ->
  Forall2 (fun i t => nth_error (token_addresses L swaps) i = Some t)
          p toks ->
  chain swaps toks.
Proof.
  intros Hwalk HF. revert Hwalk.
  induction HF as [|u tu p toks Hu HF IH]; intros Hwalk; [exact I|].
  destruct HF as [|v tv p toks Hv HF]; [exact I|].
  change (Rx.adjacent (swap_graph (token_addresses L swaps) swaps) u v
          && Rx.is_walk (swap_graph (token_addresses L swaps) swaps)
                        (v :: p) = true) in Hwalk.
  apply andb_prop in Hwalk as [Hadj Hwalk].
  split; [|exact (IH Hwalk)].
  destruct (swap_graph_adjacent _ swaps u v tu
              (token_addresses_in L swaps ok) Hadj Hu)
    as (tv' & Hv' & Hlink).
  congruence.
Qed.

(** X16.  When a conversion returns, the path in the result leads from
    the source token to the target token, both in lower case, and every
    two consecutive tokens of it are the two tokens of a swap of the
    block window. *)
Theorem returned_path_is_a_chain (w : world) (token0 token1 : string)
  (blk : Z) (r : ConversionResult) :
  get_token_conversion_rate L w token0 token1 blk = Returned r ->
  exists window swaps,
    block_window blk = Returned window /\
    get_swaps L w (fst window) (snd window) = Returned swaps /\
    hd_error (token_pair_path r) = Some (lower token0) /\
    List.last (token_pair_path r) (lower token0) = lower token1 /\
    chain swaps (token_pair_path r).
Proof.
  intros H.
  destruct (conversion_returned w token0 token1 blk r H)
    as (window & swaps & Hw & Hs & Hr).
  exists window, swaps. split; [exact Hw|]. split; [exact Hs|].
  destruct (rate_from_swaps_returned w swaps _ _ r Hr)
    as (a & b & p & total & Ha & Hb & Hp & _ & _ & _ & _ & Htoks).
  apply path_tokens_returned in Htoks.
  destruct (asp_sound L ok SwapEvent _ a b p Hp) as (Hhd & Hlast & Hwalk).
  apply index_of_Some in Ha, Hb.
  split; [|split].
  - destruct Htoks as [|i t p toks Hi _]; [discriminate|].
    injection Hhd as ->. cbn [hd_error]. congruence.
  - assert (Hne : p <> []) by (intros ->; discriminate).
    pose proof (Forall2_last _ p (token_pair_path r) a (lower token0)
                  Htoks Hne) as Hl.
    cbv beta in Hl. rewrite Hlast in Hl. congruence.
  - exact (walk_tokens_chain swaps p _ Hwalk Htoks).
Qed.

Lemma linked_adjacent (ids : list string) (swaps : list SwapEvent)
  (x y : string) :
  linked swaps x y ->
  Rx.adjacent (swap_graph ids swaps) (id_of ids x) (id_of ids y) = true.
Proof.
  intros (s & Hs & Hxy). unfold Rx.adjacent. apply existsb_exists.
  exists (swap_edge ids s). split.
  - cbn [swap_graph Rx.edges]. now apply in_map.
  - unfold swap_edge. cbn [Rx.joins].
    destruct Hxy as [[-> ->]|[-> ->]]; rewrite !Nat.eqb_refl;
      cbn [andb orb]; [reflexivity | apply orb_true_r].
Qed.

Lemma chain_walk (ids : list string) (swaps : list SwapEvent)
  (toks : list string) :
  chain swaps toks ->
  Rx.is_walk (swap_graph ids swaps) (map (id_of ids) toks) = true.
Proof.
  induction toks as [|x toks IH]; intros H; [reflexivity|].
  destruct toks as [|y toks]; [reflexivity|].
  destruct H as [Hxy H].
  change (Rx.adjacent (swap_graph ids swaps) (id_of ids x) (id_of ids y)
          && Rx.is_walk (swap_graph ids swaps)
                        (map (id_of ids) (y :: toks)) = true).
  now rewrite (linked_adjacent ids swaps x y Hxy), (IH H).
Qed.

Lemma last_map {A B} (f : A -> B) (l : list A) (d : A) :
  List.last (map f l) (f d) = f (List.last l d).
Proof.
  induction l as [|x l IH]; [reflexivity|].
  destruct l as [|y l]; [reflexivity|]. exact IH.
Qed.

Lemma id_of_index (ids : list string) (t : string) (i : nat) :
  index_of t ids = Some i -> id_of ids t = i.
Proof. unfold id_of. now intros ->. Qed.

(** X17.  The path of a returned conversion has the fewest hops: no list
    of tokens that leads from the source to the target, each token
    linked to the next by a swap of the block window, is shorter. *)
Theorem returned_path_is_shortest (w : world) (token0 token1 : string)
  (blk : Z) (r : ConversionResult) :
  get_token_conversion_rate L w token0 token1 blk = Returned r ->
  exists window swaps,
    block_window blk = Returned window /\
    get_swaps L w (fst window) (snd window) = Returned swaps /\
    forall toks,
      hd_error toks = Some (lower token0) ->
      List.last toks (lower token0) = lower token1 ->
      chain swaps toks ->
      length (token_pair_path r) <= length toks.
Proof.
  intros H.
  destruct (conversion_returned w token0 token1 blk r H)
    as (window & swaps & Hw & Hs & Hr).
  exists window, swaps. split; [exact Hw|]. split; [exact Hs|].
  destruct (rate_from_swaps_returned w swaps _ _ r Hr)
    as (a & b & p & total & Ha & Hb & Hp & _ & _ & _ & _ & Htoks).
  apply path_tokens_returned in Htoks.
  intros toks Hhd Hlast Hchain.
  rewrite <- (Forall2_length _ _ _ Htoks).
  rewrite <- (length_map (id_of (token_addresses L swaps)) toks).
  apply (asp_shortest L ok SwapEvent
           (swap_graph (token_addresses L swaps) swaps) a b p _ Hp).
  repeat split.
  - destruct toks as [|t toks]; [discriminate|].
    injection Hhd as ->. cbn [map hd_error].
    now rewrite (id_of_index _ _ _ Ha).
  - rewrite <- (id_of_index _ _ _ Ha), last_map, Hlast.
    exact (id_of_index _ _ _ Hb).
  - now apply chain_walk.
Qed.

Lemma walk_between_rev {E} (g : Rx.PyGraph E) (s t : nat) (p : list nat) :
  Rx.walk_between g s t p -> Rx.walk_between g t s (rev p).
Proof.
  intros (Hhd & Hlast & Hwalk). repeat split.
  - rewrite (hd_error_rev p s) by (intros ->; discriminate).
    now rewrite Hlast.
  - now apply last_rev.
  - now rewrite is_walk_rev.
Qed.

(** X18.  Swaps are edges without direction for the search: when the
    conversion from one token to another and the conversion back both
    return for the same block, their two paths have the same number of
    tokens. *)
Theorem both_directions_same_hops (w : world) (token0 token1 : string)
  (blk : Z) (r r' : ConversionResult) :
  get_token_conversion_rate L w token0 token1 blk = Returned r ->
  get_token_conversion_rate L w token1 token0 blk = Returned r' ->
  length (token_pair_path r) = length (token_pair_path r').
Proof.
  intros H H'.
  destruct (conversion_returned w token0 token1 blk r H)
    as (window & swaps & Hw & Hs & Hr).
  destruct (conversion_returned w token1 token0 blk r' H')
    as (window' & swaps' & Hw' & Hs' & Hr').
  rewrite Hw in Hw'. injection Hw' as <-.
  rewrite Hs in Hs'. injection Hs' as <-.
  destruct (rate_from_swaps_returned w swaps _ _ r Hr)
    as (a & b & p & total & Ha & Hb & Hp & _ & _ & _ & _ & Htoks).
  destruct (rate_from_swaps_returned w swaps _ _ r' Hr')
    as (b' & a' & p' & total' & Hb' & Ha' & Hp' & _ & _ & _ & _ & Htoks').
  rewrite Ha in Ha'. injection Ha' as <-.
  rewrite Hb in Hb'. injection Hb' as <-.
  apply path_tokens_returned in Htoks, Htoks'.
  rewrite <- (Forall2_length _ _ _ Htoks), <- (Forall2_length _ _ _ Htoks').
  pose proof (asp_sound L ok SwapEvent _ a b p Hp) as Hwalk.
  pose proof (asp_sound L ok SwapEvent _ b a p' Hp') as Hwalk'.
  apply walk_between_rev in Hwalk, Hwalk'.
  pose proof (asp_shortest L ok SwapEvent _ a b p (rev p') Hp Hwalk') as H1.
  pose proof (asp_shortest L ok SwapEvent _ b a p' (rev p) Hp' Hwalk) as H2.
  rewrite length_rev in H1, H2. lia.
Qed.

(** X19.  The rate along a path is made hop by hop: cut at any of its
    nodes, walking the whole path is walking the part up to the node
    and then, from the ratio reached there, the part from the node on;
    a failure in the first part is the failure of the whole. *)
Theorem walk_path_composes (g : Rx.PyGraph SwapEvent) (ids : list string)
  (p : list nat) (x : nat) (q : list nat) (total_ratio : num) :
  walk_path L g ids (p ++ x :: q) total_ratio
  = let? reached := walk_path L g ids (p ++ [x]) total_ratio in
    walk_path L g ids (x :: q) reached.
Proof.
  revert total_ratio. induction p as [|u p IH]; intros total_ratio.
  - reflexivity.
  - destruct p as [|v p].
    + cbn [app]. cbn [walk_path].
      destruct (step L g ids u x total_ratio); reflexivity.
    + change (walk_path L g ids ((u :: v :: p) ++ x :: q) total_ratio)
        with (let? t := step L g ids u v total_ratio in
              walk_path L g ids ((v :: p) ++ x :: q) t).
      change (walk_path L g ids ((u :: v :: p) ++ [x]) total_ratio)
        with (let? t := step L g ids u v total_ratio in
              walk_path L g ids ((v :: p) ++ [x]) t).
      destruct (step L g ids u v total_ratio) as [t| |]; cbn [bind];
        [apply IH | reflexivity | reflexivity].
Qed.

(** Cutting one loop out of a walk that visits a node twice. *)
Lemma walk_shortcut {E} (g : Rx.PyGraph E) (s t : nat) (q : list nat) :
  Rx.walk_between g s t q -> ~ List.NoDup q ->
  exists q', Rx.walk_between g s t q' /\ length q' < length q.
Proof.
  intros (Hhd & Hlast & Hwalk) Hdup.
  apply (not_NoDup Nat.eq_decidable) in Hdup as (a & l1 & l2 & l3 & ->).
  exists (l1 ++ a :: l3). split.
  - repeat split.
    + destruct l1; exact Hhd.
    + rewrite last_app_cons in Hlast |- *.
      change (a :: l2 ++ a :: l3) with ((a :: l2) ++ a :: l3) in Hlast.
      now rewrite last_app_cons in Hlast.
    + rewrite is_walk_app in Hwalk |- *.
      apply andb_prop in Hwalk as [H1 H2].
      change (a :: l2 ++ a :: l3) with ((a :: l2) ++ a :: l3) in H2.
      rewrite is_walk_app in H2. apply andb_prop in H2 as [_ H3].
      now rewrite H1, H3.
  - rewrite !length_app. cbn [length]. rewrite length_app. cbn [length].
    lia.
Qed.

Lemma Forall2_NoDup {A B} (R : A -> B -> Prop) (l : list A) (k : list B) :
  (forall x y b, R x b -> R y b -> x = y) ->
  Forall2 R l k -> List.NoDup l -> List.NoDup k.
Proof.
  intros Hinj HF. induction HF as [|x b l k Hxb HF IH]; intros Hnd.
  - constructor.
  - apply NoDup_cons_iff in Hnd as [Hx Hnd]. constructor; [|exact (IH Hnd)].
    intros Hb. apply Hx. clear IH Hnd Hx.
    induction HF as [|y b' l k Hyb HF IH]; [destruct Hb|].
    destruct Hb as [->|Hb].
    + left. exact (Hinj y x b Hyb Hxb).
    + right. exact (IH Hb).
Qed.

(** X20.  The path of a returned conversion names no token twice. *)
Theorem returned_path_repeats_no_token (w : world) (token0 token1 : string)
  (blk : Z) (r : ConversionResult) :
  get_token_conversion_rate L w token0 token1 blk = Returned r ->
  List.NoDup (token_pair_path r).
Proof.
  intros H.
  destruct (conversion_returned w token0 token1 blk r H)
    as (window & swaps & _ & _ & Hr).
  destruct (rate_from_swaps_returned w swaps _ _ r Hr)
    as (a & b & p & total & _ & _ & Hp & _ & _ & _ & _ & Htoks).
  apply path_tokens_returned in Htoks.
  apply (Forall2_NoDup _ p _) in Htoks; [exact Htoks| |].
  - intros i j t Hi Hj.
    apply (proj1 (NoDup_nth_error (token_addresses L swaps))
             (set_of_str_nodup L ok _)).
    + apply nth_error_Some. congruence.
    + congruence.
  - destruct (NoDup_decidable Nat.eq_decidable p) as [Hnd|Hdup];
      [exact Hnd|].
    exfalso.
    destruct (walk_shortcut _ a b p (asp_sound L ok SwapEvent _ a b p Hp)
                Hdup) as (q & Hq & Hlen).
    pose proof (asp_shortest L ok SwapEvent _ a b p q Hp Hq). lia.
Qed.

End Paths.

Section PathWitnesses.
Import Py Calculation Words Examples.

Lemma returned_path_is_a_chain_witness :
  exists window swaps,
    block_window 19577771 = Returned window /\
    get_swaps RefLib.lib one_pool (fst window) (snd window)
      = Returned swaps /\
    hd_error (token_pair_path Cases.rate_AB) = Some (lower token_A) /\
    List.last (token_pair_path Cases.rate_AB) (lower token_A)
      = lower token_B /\
    chain swaps (token_pair_path Cases.rate_AB).
Proof.
  apply (returned_path_is_a_chain RefLib.lib ref_lib_ok one_pool
           token_A token_B 19577771 Cases.rate_AB).
  reflexivity.
Defined.

Lemma returned_path_is_shortest_witness :
  exists window swaps,
    block_window 19577771 = Returned window /\
    get_swaps RefLib.lib one_pool (fst window) (snd window)
      = Returned swaps /\
    forall toks,
      hd_error toks = Some (lower token_A) ->
      List.last toks (lower token_A) = lower token_B ->
      chain swaps toks ->
      length (token_pair_path Cases.rate_AB) <= length toks.
Proof.
  apply (returned_path_is_shortest RefLib.lib ref_lib_ok one_pool
           token_A token_B 19577771 Cases.rate_AB).
  reflexivity.
Defined.

Lemma both_directions_same_hops_witness :
  length (token_pair_path Cases.rate_AB)
  = length (token_pair_path Cases.rate_BA).
Proof.
  apply (both_directions_same_hops RefLib.lib ref_lib_ok one_pool
           token_A token_B 19577771 Cases.rate_AB Cases.rate_BA);
    reflexivity.
Defined.

Lemma returned_path_repeats_no_token_witness :
  List.NoDup (token_pair_path Cases.rate_AB).
Proof.
  apply (returned_path_repeats_no_token RefLib.lib ref_lib_ok one_pool
           token_A token_B 19577771 Cases.rate_AB).
  reflexivity.
Defined.

End PathWitnesses.

(** ** Token ids and the graph *)

Section TokenIds.
Import Py Calculation Words.

Variable L : Library.
Hypothesis ok : LibraryOk L.

Lemma nth_error_index_of (l : list string) (i : nat) (x : string) :
  List.NoDup l -> nth_error l i = Some x -> index_of x l = Some i.
Proof.
  intros Hnd. revert i. induction Hnd as [|y l Hy Hnd IH]; intros i H.
  - destruct i; discriminate.
  - cbn [index_of]. destruct i as [|i]; cbn [nth_error] in H.
    + injection H as ->. now rewrite String.eqb_refl.
    + destruct (String.eqb_spec y x) as [->|Hne].
      * exfalso. apply Hy. exact (nth_error_In _ _ H).
      * now rewrite (IH i H).
Qed.

(** X21.  The two maps between tokens and ids are inverse to each
    other: a token has the id [i] exactly when the token looked up for
    [i] is that token; and the tokens that have an id are the tokens of
    the swaps. *)
Theorem token_ids_are_a_bijection (swaps : list SwapEvent) :
  (forall (t : string) (i : nat),
     index_of t (token_addresses L swaps) = Some i <->
     token_of (token_addresses L swaps) i = Returned t) /\
  (forall t : string,
     (exists i, index_of t (token_addresses L swaps) = Some i) <->
     touches swaps t).
Proof.
  split.
  - intros t i. unfold token_of. split.
    + intros H. now rewrite (index_of_Some _ _ _ H).
    + intros H.
      destruct (nth_error (token_addresses L swaps) i) as [x|] eqn:E;
        [|discriminate].
      injection H as ->.
      apply nth_error_index_of; [|exact E].
      apply (set_of_str_nodup L ok).
  - intros t. rewrite <- (token_addresses_touches L swaps t ok). split.
    + intros [i Hi]. apply index_of_Some in Hi.
      exact (nth_error_In _ _ Hi).
    + apply index_of_In.
Qed.

Lemma swap_edges_forall2 (ids : list string) (l : list SwapEvent) :
  (forall s, In s l -> In (from_token s) ids /\ In (to_token s) ids) ->
  Forall2 (fun s e =>
             snd e = s /\
             index_of (from_token s) ids = Some (fst (fst e)) /\
             index_of (to_token s) ids = Some (snd (fst e)))
          l (map (swap_edge ids) l).
Proof.
  induction l as [|s l IH]; intros Hin; [constructor|].
  cbn [map]. constructor.
  - destruct (Hin s (or_introl eq_refl)) as [Hf Ht].
    destruct (index_of_In _ _ Hf) as [a Ha].
    destruct (index_of_In _ _ Ht) as [b Hb].
    unfold swap_edge, id_of. rewrite Ha, Hb. cbn [fst snd].
    repeat split; assumption.
  - apply IH. intros s' Hs'. apply Hin. now right.
Qed.

(** X22.  Building the graph never fails, whatever the swaps are: it has
    one node per token, numbered from 0 in the order of the ids, and one
    edge per swap, in the order of the swaps, parallel edges and loops
    kept; each edge carries its swap and joins the id of the swap's
    source token to the id of its target token. *)
Theorem graph_has_one_edge_per_swap (swaps : list SwapEvent) :
  exists g,
    build_graph (token_addresses L swaps) swaps = Returned g /\
    Rx.nodes g = seq 0 (length (token_addresses L swaps)) /\
    Forall2 (fun s e =>
               snd e = s /\
               index_of (from_token s) (token_addresses L swaps)
                 = Some (fst (fst e)) /\
               index_of (to_token s) (token_addresses L swaps)
                 = Some (snd (fst e)))
            swaps (Rx.edges g).
Proof.
  exists (swap_graph (token_addresses L swaps) swaps).
  split; [exact (build_graph_spec L swaps ok)|].
  split; [reflexivity|].
  cbn [swap_graph Rx.edges].
  apply swap_edges_forall2. exact (token_addresses_in L swaps ok).
Qed.

End TokenIds.

Section TokenIdsWitnesses.
Import Py Calculation Words Examples.

Lemma token_ids_are_a_bijection_witness :
  (forall (t : string) (i : nat),
     index_of t (token_addresses RefLib.lib [swap_AB; swap_CB]) = Some i <->
     token_of (token_addresses RefLib.lib [swap_AB; swap_CB]) i
       = Returned t) /\
  (forall t : string,
     (exists i, index_of t (token_addresses RefLib.lib [swap_AB; swap_CB])
                = Some i) <->
     touches [swap_AB; swap_CB] t).
Proof.
  exact (token_ids_are_a_bijection RefLib.lib ref_lib_ok [swap_AB; swap_CB]).
Defined.

Lemma graph_has_one_edge_per_swap_witness :
  exists g,
    build_graph (token_addresses RefLib.lib [swap_AB; swap_CB])
                [swap_AB; swap_CB] = Returned g /\
    Rx.nodes g
      = seq 0 (length (token_addresses RefLib.lib [swap_AB; swap_CB])) /\
    Forall2 (fun s e =>
               snd e = s /\
               index_of (from_token s)
                        (token_addresses RefLib.lib [swap_AB; swap_CB])
                 = Some (fst (fst e)) /\
               index_of (to_token s)
                        (token_addresses RefLib.lib [swap_AB; swap_CB])
                 = Some (snd (fst e)))
            [swap_AB; swap_CB] (Rx.edges g).
Proof.
  exact (graph_has_one_edge_per_swap RefLib.lib ref_lib_ok
           [swap_AB; swap_CB]).
Defined.

End TokenIdsWitnesses.

(** ** Windows with one swap, windows without swaps *)

Section Degenerate.
Import Py Calculation Words.

Variable L : Library.
Hypothesis ok : LibraryOk L.

(** The one edge, walked from its second node to its first. *)
Lemma single_edge_walk_back {E} (a b : nat) (ns : list nat) (e : E) :
  a <> b ->
  let g := {| Rx.nodes := ns; Rx.edges := [(a, b, e)] |} in
  Rx.walk_between g b a [b; a] /\
  (forall p, Rx.walk_between g b a p -> length p <= 2 -> p = [b; a]) /\
  get_edge_data L g b a = Some e.
Proof.
  intros Hab g.
  assert (Hadj : Rx.adjacent g b a = true).
  { unfold Rx.adjacent. cbn [g Rx.edges existsb Rx.joins].
    rewrite !Nat.eqb_refl. cbn [andb]. now rewrite !orb_true_r. }
  split; [|split].
  - repeat split. cbn [Rx.is_walk]. now rewrite Hadj.
  - intros p (Hhd & Hlast & _) Hlen.
    destruct p as [|x [|y [|z p]]]; cbn in Hhd, Hlast, Hlen.
    + discriminate.
    + congruence.
    + congruence.
    + lia.
  - apply (get_edge_data_unique L ok g b a e Hadj).
    intros a' b' w' [Hin|[]] _. congruence.
Qed.

(** The ratio of the record is taken before its direction is looked at. *)
Lemma step_zero_from_amount (g : Rx.PyGraph SwapEvent) (ids : list string)
  (u v : nat) (total_ratio : num) (swap : SwapEvent) :
  get_edge_data L g u v = Some swap ->
  from_amount swap = 0%Z ->
  step L g ids u v total_ratio = Raised ZeroDivisionError.
Proof.
  intros Hget H0. unfold step, ratio. rewrite Hget.
  cbn [of_option bind]. rewrite H0. reflexivity.
Qed.

Lemma int_truediv_zero_l (b : Z) :
  b <> 0%Z -> int_truediv 0 b = Returned (S754_zero (b <? 0)%Z).
Proof.
  intros Hb. unfold int_truediv.
  rewrite (proj2 (Z.eqb_neq _ _) Hb).
  destruct b as [|p|p]; [congruence| |]; reflexivity.
Qed.

(** X23.  A window whose one swap has an amount of zero: with a first
    amount of zero the conversion raises [ZeroDivisionError] in both
    directions, because the ratio of the swap is taken before its
    direction is looked at; with a second amount of zero the conversion
    against the swap raises it, dividing by the ratio 0.0. *)
Theorem zero_amount_swap_aborts (w : world) (tokenA tokenB : string)
  (blk : Z) (window : Z * Z) (log : Node.log) (a0 a1 : Z)
  (rest : string) (bn li : N) :
  lower tokenA <> lower tokenB ->
  block_window blk = Returned window ->
  raw_swap_logs w (fst window) (snd window) = Returned [log] ->
  pool_tokens w (Node.log_address log) = Returned [tokenA; tokenB] ->
  (- 2 ^ 255 <= a0 < 2 ^ 255)%Z ->
  (- 2 ^ 255 <= a1 < 2 ^ 255)%Z ->
  Node.log_data log = Abi.swap_data a0 a1 rest ->
  int16 L (Node.log_blockNumber log) = Some bn ->
  int16 L (Node.log_logIndex log) = Some li ->
  (a0 = 0%Z ->
   get_token_conversion_rate L w tokenA tokenB blk
   = Raised ZeroDivisionError /\
   get_token_conversion_rate L w tokenB tokenA blk
   = Raised ZeroDivisionError) /\
  (a1 = 0%Z ->
   get_token_conversion_rate L w tokenB tokenA blk
   = Raised ZeroDivisionError).
Proof.
  intros Hne Hwin Hlogs Hpool Hr0 Hr1 Hdata Hbn Hli.
  assert (Hswaps := get_swaps_single L ok w _ _ log a0 a1 rest tokenA tokenB
                      bn li Hlogs Hpool Hr0 Hr1 Hdata Hbn Hli).
  rewrite (conversion_unfold L w tokenA tokenB blk window _ Hwin Hswaps).
  rewrite (conversion_unfold L w tokenB tokenA blk window _ Hwin Hswaps).
  rewrite !(rate_from_swaps_unfold L ok). cbv zeta.
  set (swap := {| block_number := bn; from_amount := Z.abs a0 |}) in *.
  set (ids := token_addresses L [swap]).
  destruct (token_addresses_in L [swap] ok swap (or_introl eq_refl))
    as [HinA HinB].
  fold ids in HinA, HinB.
  destruct (index_of_In _ _ HinA) as [a Ha].
  destruct (index_of_In _ _ HinB) as [b Hb].
  cbn [swap from_token to_token] in Ha, Hb.
  assert (Hab : a <> b).
  { intros ->. apply Hne. exact (index_of_inj _ _ ids b Ha Hb). }
  rewrite Ha, Hb. cbn [of_option bind].
  assert (Hg : swap_graph ids [swap]
               = {| Rx.nodes := seq 0 (length ids);
                    Rx.edges := [(a, b, swap)] |}).
  { unfold swap_graph. cbn [map]. unfold swap_edge, id_of.
    cbn [swap from_token to_token]. now rewrite Ha, Hb. }
  rewrite Hg.
  destruct (single_edge_walk L ok a b (seq 0 (length ids)) swap Hab)
    as (Hwalk & Huniq & Hget).
  destruct (single_edge_walk_back a b (seq 0 (length ids)) swap Hab)
    as (Hwalk' & Huniq' & Hget').
  rewrite (select_path_unique L ok _ a b [a; b] Hab Hwalk Huniq).
  rewrite (select_path_unique L ok _ b a [b; a]
             (fun H => Hab (eq_sym H)) Hwalk' Huniq').
  cbn [of_option bind walk_path].
  split.
  - intros ->.
    rewrite (step_zero_from_amount _ ids a b (PyInt 1) swap Hget eq_refl).
    rewrite (step_zero_from_amount _ ids b a (PyInt 1) swap Hget' eq_refl).
    split; reflexivity.
  - intros ->.
    destruct (Z.eq_dec a0 0%Z) as [->|Hnz].
    + now rewrite (step_zero_from_amount _ ids b a (PyInt 1) swap Hget'
                     eq_refl).
    + apply index_of_Some in Ha, Hb.
      rewrite (step_backward L _ ids b a (PyInt 1) swap (S754_zero false)
                 Hget').
      * reflexivity.
      * unfold ratio. cbn [swap to_amount from_amount Z.abs].
        rewrite int_truediv_zero_l by lia.
        f_equal. f_equal. apply Z.ltb_ge. lia.
      * exact Hb.
      * exact Ha.
      * exact Hne.
Qed.

(** X24.  A window with one swap, whatever its amounts and the decimals
    of its tokens: converting along the swap gives the swap's ratio, the
    second amount over the first, scaled by the decimals; converting
    against it gives 1 over that ratio, scaled the other way; the path
    is the two tokens in the order asked for. *)
Theorem single_swap_rates (w : world) (tokenA tokenB : string)
  (blk : Z) (window : Z * Z) (log : Node.log) (a0 a1 : Z)
  (rest sA sB : string) (bn li dA dB : N) (r : spec_float) :
  lower tokenA <> lower tokenB ->
  block_window blk = Returned window ->
  raw_swap_logs w (fst window) (snd window) = Returned [log] ->
  pool_tokens w (Node.log_address log) = Returned [tokenA; tokenB] ->
  (- 2 ^ 255 <= a0 < 2 ^ 255)%Z ->
  (- 2 ^ 255 <= a1 < 2 ^ 255)%Z ->
  Node.log_data log = Abi.swap_data a0 a1 rest ->
  int16 L (Node.log_blockNumber log) = Some bn ->
  int16 L (Node.log_logIndex log) = Some li ->
  int_truediv (Z.abs a1) (Z.abs a0) = Returned r ->
  token_decimals w (lower tokenA) = Returned dA ->
  token_decimals w (lower tokenB) = Returned dB ->
  token_symbol w (lower tokenA) = Returned sA ->
  token_symbol w (lower tokenB) = Returned sB ->
  get_token_conversion_rate L w tokenA tokenB blk
  = (let? along := mul (PyInt 1) (PyFloat r) in
     let? rate := scale along dA dB in
     Returned {| conversion_rate := rate;
                 token0_decimals := dA;
                 token1_decimals := dB;
                 token0_symbol := parse_symbol sA;
                 token1_symbol := parse_symbol sB;
                 token_pair_path := [lower tokenA; lower tokenB] |}) /\
  get_token_conversion_rate L w tokenB tokenA blk
  = (let? against := truediv (PyInt 1) (PyFloat r) in
     let? rate := scale against dB dA in
     Returned {| conversion_rate := rate;
                 token0_decimals := dB;
                 token1_decimals := dA;
                 token0_symbol := parse_symbol sB;
                 token1_symbol := parse_symbol sA;
                 token_pair_path := [lower tokenB; lower tokenA] |}).
Proof.
  intros Hne Hwin Hlogs Hpool Hr0 Hr1 Hdata Hbn Hli Hratio HdA HdB HsA HsB.
  assert (Hswaps := get_swaps_single L ok w _ _ log a0 a1 rest tokenA tokenB
                      bn li Hlogs Hpool Hr0 Hr1 Hdata Hbn Hli).
  rewrite (conversion_unfold L w tokenA tokenB blk window _ Hwin Hswaps).
  rewrite (conversion_unfold L w tokenB tokenA blk window _ Hwin Hswaps).
  rewrite !(rate_from_swaps_unfold L ok). cbv zeta.
  set (swap := {| block_number := bn; from_amount := Z.abs a0 |}) in *.
  set (ids := token_addresses L [swap]).
  destruct (token_addresses_in L [swap] ok swap (or_introl eq_refl))
    as [HinA HinB].
  fold ids in HinA, HinB.
  destruct (index_of_In _ _ HinA) as [a Ha].
  destruct (index_of_In _ _ HinB) as [b Hb].
  cbn [swap from_token to_token] in Ha, Hb.
  assert (Hab : a <> b).
  { intros ->. apply Hne. exact (index_of_inj _ _ ids b Ha Hb). }
  rewrite Ha, Hb. cbn [of_option bind].
  assert (Hg : swap_graph ids [swap]
               = {| Rx.nodes := seq 0 (length ids);
                    Rx.edges := [(a, b, swap)] |}).
  { unfold swap_graph. cbn [map]. unfold swap_edge, id_of.
    cbn [swap from_token to_token]. now rewrite Ha, Hb. }
  rewrite Hg.
  destruct (single_edge_walk L ok a b (seq 0 (length ids)) swap Hab)
    as (Hwalk & Huniq & Hget).
  destruct (single_edge_walk_back a b (seq 0 (length ids)) swap Hab)
    as (Hwalk' & Huniq' & Hget').
  rewrite (select_path_unique L ok _ a b [a; b] Hab Hwalk Huniq).
  rewrite (select_path_unique L ok _ b a [b; a]
             (fun H => Hab (eq_sym H)) Hwalk' Huniq').
  cbn [of_option bind walk_path].
  apply index_of_Some in Ha, Hb.
  rewrite (step_forward L _ ids a b (PyInt 1) swap r Hget Hratio Ha Hb).
  rewrite (step_backward L _ ids b a (PyInt 1) swap r Hget' Hratio Hb Ha
             Hne).
  rewrite HdA, HdB, HsA, HsB. cbn [path_tokens]. unfold token_of.
  rewrite Ha, Hb. cbn [of_option].
  split.
  - destruct (mul (PyInt 1) (PyFloat r)) as [t| |]; cbn [bind];
      [|reflexivity|reflexivity].
    destruct (scale t dA dB); reflexivity.
  - destruct (truediv (PyInt 1) (PyFloat r)) as [t| |]; cbn [bind];
      [|reflexivity|reflexivity].
    destruct (scale t dB dA); reflexivity.
Qed.

Lemma set_of_str_nil : set_of_str L [] = [].
Proof.
  destruct (set_of_str L []) as [|x l] eqn:E; [reflexivity|].
  exfalso. apply (proj1 (set_of_str_in L ok [] x)). rewrite E. now left.
Qed.

(** X25.  A block window without any swap log: the ingestion returns no
    swap without resolving any pool, and every conversion raises the
    failure for a source token that is not found, whatever the two
    tokens are, also for a token converted to itself. *)
Theorem empty_window_finds_no_token (w : world) (token0 token1 : string)
  (blk : Z) (window : Z * Z) :
  block_window blk = Returned window ->
  raw_swap_logs w (fst window) (snd window) = Returned [] ->
  get_swaps L w (fst window) (snd window) = Returned [] /\
  get_token_conversion_rate L w token0 token1 blk
  = Raised (token0_not_found (lower token0)).
Proof.
  intros Hwin Hlogs.
  assert (Hswaps : get_swaps L w (fst window) (snd window) = Returned []).
  { unfold get_swaps. rewrite Hlogs. cbn [bind map].
    rewrite set_of_str_nil. reflexivity. }
  split; [exact Hswaps|].
  rewrite (conversion_unfold L w token0 token1 blk window _ Hwin Hswaps).
  rewrite (rate_from_swaps_unfold L ok). cbv zeta.
  unfold token_addresses. cbn [flat_map]. rewrite set_of_str_nil.
  reflexivity.
Qed.

End Degenerate.

Section DegenerateWitnesses.
Import Py Calculation Words Examples.

Lemma zero_amount_swap_aborts_witness :
  (0%Z = 0%Z ->
   get_token_conversion_rate RefLib.lib Cases.one_pool_zero token_A token_B
     19577771 = Raised ZeroDivisionError /\
   get_token_conversion_rate RefLib.lib Cases.one_pool_zero token_B token_A
     19577771 = Raised ZeroDivisionError) /\
  (0%Z = 0%Z ->
   get_token_conversion_rate RefLib.lib Cases.one_pool_zero token_B token_A
     19577771 = Raised ZeroDivisionError).
Proof.
  apply (zero_amount_swap_aborts RefLib.lib ref_lib_ok Cases.one_pool_zero
           token_A token_B 19577771 (19577671, 19577871)%Z
           Cases.log_AB_zero 0 0 "" 19577771 31);
    first [reflexivity | discriminate | split; vm_compute; congruence].
Defined.

Lemma empty_window_finds_no_token_witness :
  get_swaps RefLib.lib Cases.quiet 19577671 19577871 = Returned [] /\
  get_token_conversion_rate RefLib.lib Cases.quiet token_A token_A 19577771
  = Raised (token0_not_found "0xaa").
Proof.
  apply (empty_window_finds_no_token RefLib.lib ref_lib_ok Cases.quiet
           token_A token_A 19577771 (19577671, 19577871)%Z);
    reflexivity.
Defined.

Lemma single_swap_rates_witness :
  get_token_conversion_rate RefLib.lib one_pool token_A token_B 19577771
  = Returned Cases.rate_AB /\
  get_token_conversion_rate RefLib.lib one_pool token_B token_A 19577771
  = Returned Cases.rate_BA.
Proof.
  apply (single_swap_rates RefLib.lib ref_lib_ok one_pool token_A token_B
           19577771 (19577671, 19577871)%Z log_AB 1000 (-2000) "00ff"
           "US DC" "US DC" 19577771 31 18 18 (decimal 20 (-1)));
    first [reflexivity | discriminate | split; vm_compute; congruence].
Defined.

End DegenerateWitnesses.

(** ** The block window: integers in doubles *)

Section BlockWindow.
Import Py Calculation Words.
Local Open Scope Z_scope.

Lemma digits2_pos_bounds (p : positive) :
  (2 ^ (Zpos (digits2_pos p) - 1) <= Zpos p < 2 ^ Zpos (digits2_pos p))%Z.
Proof.
  induction p as [p IH|p IH|]; cbn [digits2_pos].
  - rewrite Pos2Z.inj_succ.
    replace (Z.succ (Zpos (digits2_pos p)) - 1)%Z
      with (Z.succ (Zpos (digits2_pos p) - 1)) by lia.
    rewrite !Z.pow_succ_r by lia. lia.
  - rewrite Pos2Z.inj_succ.
    replace (Z.succ (Zpos (digits2_pos p)) - 1)%Z
      with (Z.succ (Zpos (digits2_pos p) - 1)) by lia.
    rewrite !Z.pow_succ_r by lia. lia.
  - cbn. lia.
Qed.

Lemma digits2_pos_unique (p : positive) (d : Z) :
  (2 ^ (d - 1) <= Zpos p < 2 ^ d)%Z -> Zpos (digits2_pos p) = d.
Proof.
  intros [Hlo Hhi]. pose proof (digits2_pos_bounds p) as [Hlo' Hhi'].
  assert (Hd : (0 < d)%Z).
  { destruct (Z.ltb_spec 0 d) as [H|H]; [exact H|].
    destruct (Z.eq_dec d 0) as [->|Hne].
    - cbn in Hhi. lia.
    - rewrite Z.pow_neg_r in Hhi by lia. lia. }
  destruct (Z.lt_trichotomy (Zpos (digits2_pos p)) d) as [H|[H|H]].
  - assert (2 ^ Zpos (digits2_pos p) <= 2 ^ (d - 1))%Z
      by (apply Z.pow_le_mono_r; lia). lia.
  - exact H.
  - assert (2 ^ d <= 2 ^ (Zpos (digits2_pos p) - 1))%Z
      by (apply Z.pow_le_mono_r; lia). lia.
Qed.

Lemma iter_xO (p : positive) (m : positive) :
  Zpos (Pos.iter xO m p) = (Zpos m * 2 ^ Zpos p)%Z.
Proof.
  induction p as [|p IH] using Pos.peano_ind.
  - cbn [Pos.iter]. lia.
  - rewrite Pos.iter_succ, Pos2Z.inj_succ, Z.pow_succ_r by lia.
    rewrite Pos2Z.inj_xO, IH. lia.
Qed.

Lemma shr_1_double (M : positive) :
  shr_1 {| shr_m := 2 * Zpos M; shr_r := false; shr_s := false |}
  = {| shr_m := Zpos M; shr_r := false; shr_s := false |}.
Proof. reflexivity. Qed.

Lemma pow2_xO (p : positive) :
  2 ^ Zpos p~0 = 2 ^ Zpos p * 2 ^ Zpos p.
Proof.
  replace (Zpos p~0) with (Zpos p + Zpos p) by lia.
  apply Z.pow_add_r; lia.
Qed.

Lemma pow2_xI (p : positive) :
  2 ^ Zpos p~1 = 2 * (2 ^ Zpos p * 2 ^ Zpos p).
Proof.
  replace (Zpos p~1) with (Z.succ (Zpos p + Zpos p)) by lia.
  rewrite Z.pow_succ_r by lia. f_equal. apply Z.pow_add_r; lia.
Qed.

Lemma pow2_pos (q : positive) : exists r : positive, 2 ^ Zpos q = Zpos r.
Proof.
  assert (0 < 2 ^ Zpos q) by (apply Z.pow_pos_nonneg; lia).
  destruct (2 ^ Zpos q) as [|r|r]; try lia. now exists r.
Qed.

(** Shifting out zeros only: the quotient is exact. *)
Lemma iter_shr_1_exact (p : positive) :
  forall M : positive,
    SpecFloat.iter_pos shr_1 p
      {| shr_m := Zpos M * 2 ^ Zpos p; shr_r := false; shr_s := false |}
    = {| shr_m := Zpos M; shr_r := false; shr_s := false |}.
Proof.
  induction p as [p IH|p IH|]; intros M; cbn [SpecFloat.iter_pos].
  - destruct (pow2_pos p) as [r Hr].
    replace (Zpos M * 2 ^ Zpos p~1) with (2 * Zpos (M * r * r))
      by (rewrite pow2_xI, Hr; lia).
    rewrite shr_1_double.
    replace (Zpos (M * r * r)) with (Zpos (M * r) * 2 ^ Zpos p)
      by (rewrite Hr; lia).
    rewrite IH.
    replace (Zpos (M * r)) with (Zpos M * 2 ^ Zpos p) by (rewrite Hr; lia).
    apply IH.
  - destruct (pow2_pos p) as [r Hr].
    replace (Zpos M * 2 ^ Zpos p~0) with (Zpos (M * r) * 2 ^ Zpos p)
      by (rewrite pow2_xO, Hr; lia).
    rewrite IH.
    replace (Zpos (M * r)) with (Zpos M * 2 ^ Zpos p) by (rewrite Hr; lia).
    apply IH.
  - rewrite Z.pow_1_r, Z.mul_comm. apply shr_1_double.
Qed.

Lemma digits2_pos_scaled (x N : positive) (k : Z) :
  0 <= k -> Zpos x = Zpos N * 2 ^ k ->
  Zpos (digits2_pos x) = Zpos (digits2_pos N) + k.
Proof.
  intros Hk Hx. apply digits2_pos_unique. rewrite Hx.
  pose proof (digits2_pos_bounds N) as [Hlo Hhi].
  replace (Zpos (digits2_pos N) + k - 1)
    with ((Zpos (digits2_pos N) - 1) + k) by lia.
  rewrite !Z.pow_add_r by lia.
  assert (0 < 2 ^ k) by (apply Z.pow_pos_nonneg; lia). nia.
Qed.

(** A float that holds the integer [n] exactly. *)
Lemma binary_round_exact (sx : bool) (m : positive) (e : Z) (N : positive) :
  e <= 0 ->
  Zpos m = Zpos N * 2 ^ (- e) ->
  Zpos N < 2 ^ 53 ->
  exists m' e',
    binary_round prec emax sx m e = S754_finite sx m' e' /\
    e' <= 0 /\ Zpos m' = Zpos N * 2 ^ (- e').
Proof.
  intros He Hm HN.
  set (d := Zpos (digits2_pos N)).
  pose proof (digits2_pos_bounds N) as Hd. fold d in Hd.
  assert (Hd53 : 1 <= d <= 53).
  { split; [unfold d; lia|].
    destruct (Z.leb_spec d 53) as [H|H]; [exact H|].
    assert (2 ^ 53 <= 2 ^ (d - 1)) by (apply Z.pow_le_mono_r; lia). lia. }
  assert (Hdm : Zpos (digits2_pos m) = d - e).
  { rewrite (digits2_pos_scaled m N (- e)) by (lia || exact Hm).
    fold d. lia. }
  unfold binary_round. rewrite Hdm.
  replace (d - e + e) with d by lia.
  assert (Hfexp : fexp prec emax d = d - 53).
  { unfold fexp, emin, prec, emax. lia. }
  rewrite Hfexp.
  (* the aligned mantissa [mz] has at least 53 digits *)
  assert (Halign : exists mz ez,
             shl_align m e (d - 53) = (mz, ez) /\
             ez <= d - 53 /\ Zpos mz = Zpos N * 2 ^ (- ez)).
  { unfold shl_align. destruct (d - 53 - e) as [|q|q] eqn:Eq.
    - exists m, e. repeat split; [lia | exact Hm].
    - exists m, e. repeat split; [lia | exact Hm].
    - exists (Pos.iter xO m q), (d - 53). repeat split; [lia|].
      rewrite iter_xO, Hm, <- Z.mul_assoc, <- Z.pow_add_r by lia.
      f_equal. f_equal. lia. }
  destruct Halign as (mz & ez & -> & Hez & Hmz).
  set (M := Zpos N * 2 ^ (53 - d)).
  assert (HM : exists M' : positive, Zpos M' = M).
  { assert (0 < M) by (unfold M; assert (0 < 2 ^ (53 - d))
                         by (apply Z.pow_pos_nonneg; lia); lia).
    destruct M as [|M'|M'] eqn:EM; try lia. now exists M'. }
  destruct HM as [M' HM'].
  assert (Hdz : Zpos (digits2_pos mz) = d - ez).
  { rewrite (digits2_pos_scaled mz N (- ez)) by (lia || exact Hmz).
    fold d. lia. }
  assert (HdM : Zpos (digits2_pos M') = 53).
  { rewrite (digits2_pos_scaled M' N (53 - d)) by (lia || exact HM').
    fold d. lia. }
  assert (Hshr : shr_fexp prec emax (Zpos mz) ez loc_Exact
                 = ({| shr_m := Zpos M'; shr_r := false; shr_s := false |},
                    d - 53)).
  { unfold shr_fexp. cbn [Zdigits2 shr_record_of_loc]. rewrite Hdz.
    replace (d - ez + ez) with d by lia. rewrite Hfexp.
    unfold shr. destruct (d - 53 - ez) as [|q|q] eqn:Eq; try lia.
    - assert (ez = d - 53) by lia. subst ez.
      f_equal. f_equal. rewrite Hmz, HM'. unfold M. f_equal. f_equal. lia.
    - f_equal; [|lia].
      replace (Zpos mz) with (Zpos M' * 2 ^ Zpos q).
      + apply iter_shr_1_exact.
      + rewrite Hmz, HM'. unfold M.
        rewrite <- Z.mul_assoc, <- Z.pow_add_r by lia.
        f_equal. f_equal. lia. }
  unfold binary_round_aux. rewrite Hshr.
  cbn [shr_m loc_of_shr_record round_nearest_even].
  assert (Hshr' : shr_fexp prec emax (Zpos M') (d - 53) loc_Exact
                  = ({| shr_m := Zpos M'; shr_r := false; shr_s := false |},
                     d - 53)).
  { unfold shr_fexp. cbn [Zdigits2 shr_record_of_loc]. rewrite HdM.
    replace (53 + (d - 53)) with d by lia. rewrite Hfexp.
    rewrite Z.sub_diag. reflexivity. }
  rewrite Hshr'. cbn [shr_m].
  replace (d - 53 <=? emax - prec) with true
    by (symmetry; apply Z.leb_le; unfold emax, prec; lia).
  exists M', (d - 53). repeat split; [lia|].
  rewrite HM'. unfold M. f_equal. f_equal. lia.
Qed.

Lemma binary_normalize_exact (z e n : Z) :
  e <= 0 -> z = n * 2 ^ (- e) -> Z.abs n < 2 ^ 53 ->
  holds_int (binary_normalize prec emax z e false) n.
Proof.
  intros He Hz Hn.
  assert (Hpow : 0 < 2 ^ (- e)) by (apply Z.pow_pos_nonneg; lia).
  destruct z as [|m|m]; cbn [binary_normalize].
  - cbn [holds_int]. nia.
  - destruct n as [|N|N]; try lia.
    destruct (binary_round_exact false m e N He Hz ltac:(lia))
      as (m' & e' & -> & He' & Hm').
    cbn [holds_int cond_Zopp]. split; assumption.
  - destruct n as [|N|N]; try lia.
    destruct (binary_round_exact true m e N He ltac:(lia) ltac:(lia))
      as (m' & e' & -> & He' & Hm').
    cbn [holds_int cond_Zopp]. split; [assumption|]. lia.
Qed.

Lemma float_of_int_exact (z : Z) :
  Z.abs z < 2 ^ 53 ->
  exists f, float_of_int z = Returned f /\ holds_int f z.
Proof.
  intros Hz. unfold float_of_int.
  pose proof (binary_normalize_exact z 0 z ltac:(lia) ltac:(cbn; lia) Hz)
    as H.
  destruct (binary_normalize prec emax z 0 false) as [s|s| |s m e];
    cbn [holds_int] in H; try contradiction.
  - exists (S754_zero s). split; [reflexivity | exact H].
  - exists (S754_finite s m e). split; [reflexivity | exact H].
Qed.

Lemma int_of_float_exact (f : spec_float) (n : Z) :
  holds_int f n -> int_of_float f = Returned n.
Proof.
  destruct f as [s|s| |s m e]; cbn [holds_int int_of_float];
    try tauto.
  - now intros ->.
  - intros [He Hm]. f_equal.
    destruct e as [|p|p]; try lia.
    + rewrite Z.shiftl_0_r. cbn in Hm. rewrite Z.mul_1_r in Hm.
      destruct s; exact Hm.
    + rewrite Z.shiftr_div_pow2 by lia.
      change (- Zneg p) with (Zpos p) in Hm.
      assert (0 < 2 ^ Zpos p) by (apply Z.pow_pos_nonneg; lia).
      destruct s; cbn [cond_Zopp] in Hm.
      * replace (Zpos m) with ((- n) * 2 ^ Zpos p) by lia.
        rewrite Z.div_mul by lia. lia.
      * rewrite Hm, Z.div_mul by lia. reflexivity.
Qed.

Lemma shl_align_fst (m : positive) (e ez : Z) :
  ez <= e ->
  Zpos (fst (shl_align m e ez)) = Zpos m * 2 ^ (e - ez).
Proof.
  intros H. unfold shl_align.
  destruct (ez - e) as [|q|q] eqn:Eq; try lia; cbn [fst].
  - replace (e - ez) with 0 by lia. cbn. lia.
  - rewrite iter_xO. f_equal. f_equal. lia.
Qed.

Lemma aligned_value (s : bool) (m : positive) (e ez n : Z) :
  ez <= e -> e <= 0 -> cond_Zopp s (Zpos m) = n * 2 ^ (- e) ->
  cond_Zopp s (Zpos (fst (shl_align m e ez))) = n * 2 ^ (- ez).
Proof.
  intros Hez He Hm. rewrite shl_align_fst by exact Hez.
  replace (- ez) with (- e + (e - ez)) by lia.
  rewrite Z.pow_add_r by lia.
  destruct s; cbn [cond_Zopp] in *; nia.
Qed.

Lemma SFadd_exact (x y : spec_float) (a b : Z) :
  holds_int x a -> holds_int y b -> Z.abs (a + b) < 2 ^ 53 ->
  holds_int (SFadd prec emax x y) (a + b).
Proof.
  destruct x as [sx|sx| |sx mx ex]; destruct y as [sy|sy| |sy my ey];
    cbn [holds_int]; try tauto.
  - intros -> -> _. cbn [SFadd]. destruct sx, sy; reflexivity.
  - intros -> [He Hm] _. cbn [SFadd holds_int]. now split.
  - intros [He Hm] -> _. cbn [SFadd holds_int].
    rewrite Z.add_0_r. now split.
  - intros [Hex Hmx] [Hey Hmy] Hab. cbn [SFadd].
    apply binary_normalize_exact; [lia| |exact Hab].
    rewrite (aligned_value sx mx ex _ a) by (lia || assumption).
    rewrite (aligned_value sy my ey _ b) by (lia || assumption).
    lia.
Qed.

Lemma SFsub_exact (x y : spec_float) (a b : Z) :
  holds_int x a -> holds_int y b -> Z.abs (a - b) < 2 ^ 53 ->
  holds_int (SFsub prec emax x y) (a - b).
Proof.
  destruct x as [sx|sx| |sx mx ex]; destruct y as [sy|sy| |sy my ey];
    cbn [holds_int]; try tauto.
  - intros -> -> _. cbn [SFsub]. destruct sx, sy; reflexivity.
  - intros -> [He Hm] _. cbn [SFsub holds_int].
    split; [exact He|]. destruct sy; cbn [negb cond_Zopp] in *; lia.
  - intros [He Hm] -> _. cbn [SFsub holds_int].
    rewrite Z.sub_0_r. now split.
  - intros [Hex Hmx] [Hey Hmy] Hab. cbn [SFsub].
    apply binary_normalize_exact; [lia| |exact Hab].
    rewrite (aligned_value sx mx ex _ a) by (lia || assumption).
    rewrite (aligned_value sy my ey _ b) by (lia || assumption).
    lia.
Qed.

(** X26.  For every block number whose window stays below 2^53 in
    magnitude the detour through floats is harmless: the window is the
    100 blocks before the block and the 100 blocks after it, both ends
    exact. *)
Theorem block_window_is_exact (blk : Z) :
  Z.abs blk + 100 < 2 ^ 53 ->
  block_window blk = Returned (blk - 100, blk + 100).
Proof.
  intros Hblk. unfold block_window.
  assert (Hhalf : exists h, int_truediv 200 2 = Returned h /\
                            holds_int h 100).
  { exists (S754_finite false 7036874417766400 (-46)).
    split; [reflexivity|]. split; [lia | reflexivity]. }
  destruct Hhalf as (h & -> & Hh). cbn [bind].
  destruct (float_of_int_exact blk ltac:(lia)) as (b & -> & Hb).
  cbn [bind].
  rewrite (int_of_float_exact _ (blk - 100))
    by (apply SFsub_exact; [exact Hb | exact Hh | lia]).
  cbn [bind].
  rewrite (int_of_float_exact _ (blk + 100))
    by (apply SFadd_exact; [exact Hb | exact Hh | lia]).
  reflexivity.
Qed.

Lemma block_window_is_exact_witness :
  block_window 19577771 = Returned (19577771 - 100, 19577771 + 100).
Proof.
  apply (block_window_is_exact 19577771). reflexivity.
Defined.

End BlockWindow.


(** ** The sign of the rate *)

Section Sign.
Import Py Calculation Words.

Lemma binary_round_aux_not_negative (mx ex : Z) (lx : location) :
  float_not_negative (binary_round_aux prec emax false mx ex lx).
Proof.
  unfold binary_round_aux.
  destruct (shr_fexp prec emax mx ex lx) as [mrs' e'].
  destruct (shr_fexp prec emax _ e' loc_Exact) as [mrs'' e''].
  destruct (shr_m mrs'') as [|m|m]; [reflexivity| |exact I].
  destruct (e'' <=? emax - prec)%Z; reflexivity.
Qed.

Lemma binary_normalize_not_negative (z e : Z) :
  (0 <= z)%Z -> float_not_negative (binary_normalize prec emax z e false).
Proof.
  intros Hz. destruct z as [|m|m]; [reflexivity| |lia].
  cbn [binary_normalize]. unfold binary_round.
  destruct (shl_align m e _) as [mz ez].
  apply binary_round_aux_not_negative.
Qed.

Lemma SFmul_not_negative (x y : spec_float) :
  float_not_negative x -> float_not_negative y ->
  float_not_negative (SFmul prec emax x y).
Proof.
  destruct x as [sx|sx| |sx mx ex]; destruct y as [sy|sy| |sy my ey];
    cbn [float_not_negative SFmul]; intros Hx Hy; subst;
    first [exact I | reflexivity | apply binary_round_aux_not_negative].
Qed.

Lemma SFdiv_not_negative (x y : spec_float) :
  float_not_negative x -> float_not_negative y ->
  float_not_negative (SFdiv prec emax x y).
Proof.
  destruct x as [sx|sx| |sx mx ex]; destruct y as [sy|sy| |sy my ey];
    cbn [float_not_negative SFdiv]; intros Hx Hy; subst;
    try first [exact I | reflexivity].
  destruct (SFdiv_core_binary prec emax (Zpos mx) ex (Zpos my) ey)
    as [[mz ez] lz].
  apply binary_round_aux_not_negative.
Qed.

Lemma Z2SF_not_negative (z : Z) :
  (0 <= z)%Z -> float_not_negative (Z2SF z).
Proof. destruct z; cbn; intros; first [reflexivity | lia]. Qed.

Lemma float_of_int_not_negative (z : Z) (f : spec_float) :
  (0 <= z)%Z -> float_of_int z = Returned f -> float_not_negative f.
Proof.
  intros Hz. unfold float_of_int.
  pose proof (binary_normalize_not_negative z 0 Hz) as H.
  destruct (binary_normalize prec emax z 0 false); intros E;
    try discriminate; injection E as <-; exact H.
Qed.

Lemma int_truediv_not_negative (a b : Z) (f : spec_float) :
  (0 <= a)%Z -> (0 <= b)%Z -> int_truediv a b = Returned f ->
  float_not_negative f.
Proof.
  intros Ha Hb. unfold int_truediv.
  destruct (b =? 0)%Z; [discriminate|].
  pose proof (SFdiv_not_negative _ _ (Z2SF_not_negative a Ha)
                (Z2SF_not_negative b Hb)) as H.
  destruct (SFdiv prec emax (Z2SF a) (Z2SF b)); intros E;
    try discriminate; injection E as <-; exact H.
Qed.

Lemma float_truediv_not_negative (x y f : spec_float) :
  float_not_negative x -> float_not_negative y ->
  float_truediv x y = Returned f -> float_not_negative f.
Proof.
  intros Hx Hy. unfold float_truediv.
  destruct (is_zero y); [discriminate|].
  intros E. injection E as <-. now apply SFdiv_not_negative.
Qed.

Lemma mul_not_negative (x y z : num) :
  not_negative x -> not_negative y -> mul x y = Returned z ->
  not_negative z.
Proof.
  destruct x as [a|f]; destruct y as [b|g]; cbn [not_negative mul];
    intros Hx Hy H.
  - injection H as <-. cbn [not_negative]. lia.
  - destruct (float_of_int a) as [fa| |] eqn:E; try discriminate.
    injection H as <-. apply SFmul_not_negative; [|exact Hy].
    exact (float_of_int_not_negative a fa Hx E).
  - destruct (float_of_int b) as [fb| |] eqn:E; try discriminate.
    injection H as <-. apply SFmul_not_negative; [exact Hx|].
    exact (float_of_int_not_negative b fb Hy E).
  - injection H as <-. now apply SFmul_not_negative.
Qed.

Lemma truediv_not_negative (x y z : num) :
  not_negative x -> not_negative y -> truediv x y = Returned z ->
  exists f, z = PyFloat f /\ float_not_negative f.
Proof.
  destruct x as [a|f]; destruct y as [b|g]; cbn [not_negative truediv];
    intros Hx Hy H.
  - destruct (int_truediv a b) as [q| |] eqn:E; try discriminate.
    injection H as <-. exists q. split; [reflexivity|].
    exact (int_truediv_not_negative a b q Hx Hy E).
  - destruct (float_of_int a) as [fa| |] eqn:E; try discriminate.
    cbn [bind] in H.
    destruct (float_truediv fa g) as [q| |] eqn:Eq; try discriminate.
    injection H as <-. exists q. split; [reflexivity|].
    exact (float_truediv_not_negative fa g q
             (float_of_int_not_negative a fa Hx E) Hy Eq).
  - destruct (float_of_int b) as [fb| |] eqn:E; try discriminate.
    cbn [bind] in H.
    destruct (float_truediv f fb) as [q| |] eqn:Eq; try discriminate.
    injection H as <-. exists q. split; [reflexivity|].
    exact (float_truediv_not_negative f fb q Hx
             (float_of_int_not_negative b fb Hy E) Eq).
  - destruct (float_truediv f g) as [q| |] eqn:Eq; try discriminate.
    injection H as <-. exists q. split; [reflexivity|].
    exact (float_truediv_not_negative f g q Hx Hy Eq).
Qed.

Variable L : Library.
Hypothesis ok : LibraryOk L.

Lemma step_not_negative (g : Rx.PyGraph SwapEvent) (ids : list string)
  (u v : nat) (t t' : num) :
  (forall a b s, In (a, b, s) (Rx.edges g) ->
                 (0 <= from_amount s)%Z /\ (0 <= to_amount s)%Z) ->
  not_negative t ->
  step L g ids u v t = Returned t' ->
  not_negative t'.
Proof.
  intros Hedges Ht. unfold step.
  destruct (get_edge_data L g u v) as [swap|] eqn:Eget; [|discriminate].
  cbn [of_option bind].
  destruct (edge_data_sound L ok SwapEvent g u v swap Eget)
    as (a & b & Hin & _).
  destruct (Hedges a b swap Hin) as [Hfrom Hto].
  unfold ratio.
  destruct (int_truediv (to_amount swap) (from_amount swap))
    as [r| |] eqn:Er; try discriminate.
  cbn [bind].
  pose proof (int_truediv_not_negative _ _ r Hto Hfrom Er) as Hr.
  assert (Hrev : forall x, step_reversed ids swap r u v t = Returned x ->
                           not_negative x).
  { intros x. unfold step_reversed.
    destruct (token_of ids u) as [tu| |]; try discriminate. cbn [bind].
    destruct (String.eqb (to_token swap) tu).
    - destruct (token_of ids v) as [tv| |]; try discriminate. cbn [bind].
      destruct (String.eqb (from_token swap) tv).
      + intros H.
        destruct (truediv_not_negative t (PyFloat r) x Ht Hr H)
          as (f & -> & Hf). exact Hf.
      + intros H. injection H as <-. exact Ht.
    - intros H. injection H as <-. exact Ht. }
  destruct (token_of ids u) as [tu| |]; try discriminate. cbn [bind].
  destruct (String.eqb (from_token swap) tu); [|apply Hrev].
  destruct (token_of ids v) as [tv| |]; try discriminate. cbn [bind].
  destruct (String.eqb (to_token swap) tv); [|apply Hrev].
  now apply mul_not_negative.
Qed.

Lemma walk_path_not_negative (g : Rx.PyGraph SwapEvent)
  (ids : list string) (p : list nat) (t t' : num) :
  (forall a b s, In (a, b, s) (Rx.edges g) ->
                 (0 <= from_amount s)%Z /\ (0 <= to_amount s)%Z) ->
  not_negative t ->
  walk_path L g ids p t = Returned t' ->
  not_negative t'.
Proof.
  intros Hedges. revert t.
  induction p as [|u p IH]; intros t Ht H.
  - injection H as <-. exact Ht.
  - destruct p as [|v p].
    + injection H as <-. exact Ht.
    + change (walk_path L g ids (u :: v :: p) t)
        with (let? r := step L g ids u v t in
              walk_path L g ids (v :: p) r) in H.
      destruct (step L g ids u v t) as [r| |] eqn:Es; try discriminate.
      cbn [bind] in H.
      exact (IH r (step_not_negative g ids u v t r Hedges Ht Es) H).
Qed.

Lemma parse_log_amounts (pt : list (string * list string))
  (log : Node.log) (s : SwapEvent) :
  parse_log L pt log = Returned s ->
  (0 <= from_amount s)%Z /\ (0 <= to_amount s)%Z.
Proof.
  unfold parse_log, amount. intros H.
  destruct (lookup_pool pt (Node.log_address log)); [|discriminate].
  cbn [of_option bind] in H.
  destruct (unpack2 l) as [pair| |]; try discriminate. cbn [bind] in H.
  destruct (int16 L (Node.log_blockNumber log)); [|discriminate].
  destruct (int16 L (Node.log_logIndex log)); [|discriminate].
  cbn [of_option bind] in H.
  destruct (fromhex (slice 2 66 (Node.log_data log))); [|discriminate].
  destruct (fromhex (slice 66 130 (Node.log_data log))); [|discriminate].
  cbn [of_option bind] in H. injection H as <-.
  cbn [from_amount to_amount]. split; apply Z.abs_nonneg.
Qed.

Lemma get_swaps_amounts (w : world) (lo hi : Z) (swaps : list SwapEvent) :
  get_swaps L w lo hi = Returned swaps ->
  forall s, In s swaps ->
            (0 <= from_amount s)%Z /\ (0 <= to_amount s)%Z.
Proof.
  unfold get_swaps. intros H.
  destruct (raw_swap_logs w lo hi) as [logs| |]; try discriminate.
  cbn [bind] in H.
  destruct (gather _) as [lst| |]; try discriminate.
  cbn [bind] in H. apply parse_logs_forall2 in H.
  induction H as [|log s logs' swaps' Hs _ IH]; intros s' Hin;
    [destruct Hin|].
  destruct Hin as [<-|Hin]; [|exact (IH s' Hin)].
  exact (parse_log_amounts _ log s Hs).
Qed.

(** X27.  The rate of a returned conversion is a float, also for a
    token converted to itself, and it is never negative: its sign bit is
    clear, or it is no number at all. *)
Theorem rate_is_never_negative (w : world) (token0 token1 : string)
  (blk : Z) (r : ConversionResult) :
  get_token_conversion_rate L w token0 token1 blk = Returned r ->
  exists f, conversion_rate r = PyFloat f /\ float_not_negative f.
Proof.
  intros H.
  destruct (conversion_returned L w token0 token1 blk r H)
    as (window & swaps & _ & Hs & Hr).
  destruct (rate_from_swaps_returned L ok w swaps _ _ r Hr)
    as (a & b & p & total & _ & _ & _ & Hwalk & _ & _ & Hscale & _).
  assert (Htotal : not_negative total).
  { apply (walk_path_not_negative
             (swap_graph (token_addresses L swaps) swaps)
             (token_addresses L swaps) p (PyInt 1) total);
      [| |exact Hwalk].
    - intros x y s Hin. cbn [swap_graph Rx.edges] in Hin.
      apply in_map_iff in Hin as (s' & Heq & Hs').
      unfold swap_edge in Heq. injection Heq as _ _ <-.
      exact (get_swaps_amounts w _ _ swaps Hs s' Hs').
    - cbn. lia. }
  unfold scale in Hscale.
  destruct (mul total (pow10 (token0_decimals r))) as [scaled| |] eqn:Em;
    try discriminate.
  cbn [bind] in Hscale.
  assert (Hpow : forall d, not_negative (pow10 d)).
  { intros d. unfold pow10. cbn [not_negative].
    apply Z.pow_nonneg. lia. }
  apply (truediv_not_negative scaled (pow10 (token1_decimals r)));
    [|apply Hpow|exact Hscale].
  exact (mul_not_negative total _ scaled Htotal (Hpow _) Em).
Qed.

End Sign.

Section SignWitnesses.
Import Py Calculation Words Examples.

Lemma rate_is_never_negative_witness :
  exists f, conversion_rate Cases.rate_BA = PyFloat f /\
            float_not_negative f.
Proof.
  apply (rate_is_never_negative RefLib.lib ref_lib_ok one_pool
           token_B token_A 19577771 Cases.rate_BA).
  reflexivity.
Defined.

End SignWitnesses.

(** ** Decimal scaling: what is exact, and what is not *)

Section ExactScaling.
Import Py Calculation Words.
Local Open Scope Z_scope.

















End ExactScaling.

Section ExactScalingExamples.
Import Py Calculation Words.



End ExactScalingExamples.
